(** * Ligra sequence primitives ([ligraUtils.h]): reduce, scan, pack,
      writeMin and remDuplicates, embedded and verified.

    Memory.  Every array lives in a block of storage, [mem T], a map from
    cell index to contents; a pointer into a block is the index of the cell
    it points at, and [p[i]] is cell [p + i].  Each function of the header
    writes one block only (its [Out], its private [Sums]), so that block is
    the state that the embedding threads through the loops.  A block got
    from [newA] holds arbitrary contents [uninit]; [free] has no effect
    that the functions can observe and is left out.

    Integers.  The index type [intT] is a signed type, as the [long] of the
    blocking macros, and indices are mathematical integers: every index
    that the code computes lies between [-1] and the length of an array.
    C's division is [Z.quot].  The 32-bit [int] sums of [sumFlagsSerial]
    wrap around; the sums of [plusReduce] are reduced by the [wrap] of
    their element type, the hash functions work modulo [2^32] and [2^64],
    and the read-modify-write primitives take the operator of their
    element type as a parameter.

    Parallel loops.  [parallel_for] runs each iteration once and joins;
    the order in which the iterations take effect is a parameter of the
    embedding, and the theorems hold for every order.

    Output.  The lines that the counting and packing routines write to
    [cout] are collected in a list. *)

From Equations Require Import Equations.
From Stdlib Require Import ZArith List Lia Bool Permutation Sorted.
Import ListNotations.
Local Open Scope Z_scope.

(** ** Storage *)

Definition mem (T : Type) : Type := Z -> T.

(** [A[i] = v] *)
Definition upd {T} (A : mem T) (i : Z) (v : T) : mem T :=
  fun j => if j =? i then v else A j.

Lemma upd_same {T} (A : mem T) i v : upd A i v i = v.
Proof. unfold upd. now rewrite Z.eqb_refl. Qed.

Lemma upd_other {T} (A : mem T) i j v : j <> i -> upd A i v j = A j.
Proof. unfold upd. intros H. apply Z.eqb_neq in H. now rewrite H. Qed.

(** ** Loops *)

(** [for (i = s; i < e; i++) body] run for [k] more iterations from [i]. *)
Fixpoint iter_up {St} (k : nat) (i : Z) (body : Z -> St -> St) (st : St) : St :=
  match k with
  | O => st
  | S k' => iter_up k' (i + 1) body (body i st)
  end.

Definition for_up {St} (s e : Z) (body : Z -> St -> St) (st : St) : St :=
  iter_up (Z.to_nat (e - s)) s body st.

(** [i = e; while (i > s) { i--; body }] run for [k] more iterations. *)
Fixpoint iter_down {St} (k : nat) (i : Z) (body : Z -> St -> St) (st : St) : St :=
  match k with
  | O => st
  | S k' => iter_down k' (i - 1) body (body (i - 1) st)
  end.

Definition for_down {St} (s e : Z) (body : Z -> St -> St) (st : St) : St :=
  iter_down (Z.to_nat (e - s)) e body st.

(** The indices [s, s+1, ..., e-1]. *)
Definition range (s e : Z) : list Z :=
  map (fun k => s + Z.of_nat k) (seq 0 (Z.to_nat (e - s))).

(** The values an accessor yields on [[s, e)], in index order. *)
Definition slice {T} (g : Z -> T) (s e : Z) : list T := map g (range s e).

(** [parallel_for (i = 0; i < l; i++) body]: the fork-join engine runs every
    iteration once, in an order of its choosing, and joins.  The iterations
    are run here one after another in the order [sched]. *)
Definition parallel_for {St} (sched : list Z) (body : Z -> St -> St) (st : St) : St :=
  fold_left (fun st i => body i st) sched st.

(** ** Block partition *)

Definition _SCAN_LOG_BSIZE : Z := 10.
Definition _SCAN_BSIZE : Z := Z.shiftl 1 _SCAN_LOG_BSIZE.
Definition _F_BSIZE : Z := 2 * _SCAN_BSIZE.

(** [#define nblocks(_n, _bsize) (1 + ((_n)-1) / (_bsize))]; C's [/]
    truncates toward zero. *)
Definition nblocks (n bsize : Z) : Z := 1 + Z.quot (n - 1) bsize.

Lemma _SCAN_BSIZE_val : _SCAN_BSIZE = 1024.
Proof. reflexivity. Qed.

Lemma _SCAN_BSIZE_ge2 : 2 <= _SCAN_BSIZE.
Proof. rewrite _SCAN_BSIZE_val. lia. Qed.

Lemma _F_BSIZE_ge2 : 2 <= _F_BSIZE.
Proof. unfold _F_BSIZE. rewrite _SCAN_BSIZE_val. lia. Qed.

(** For a range of at least one element the macro is the ceiling of
    [n / bsize]. *)
Lemma nblocks_pos n bsize :
  1 <= n -> 0 < bsize -> nblocks n bsize = 1 + (n - 1) / bsize.
Proof.
  intros Hn Hb. unfold nblocks. now rewrite Z.quot_div_nonneg by lia.
Qed.

(** An empty (or negative) range has at most one block. *)
Lemma nblocks_nonpos n bsize : n <= 0 -> 0 < bsize -> nblocks n bsize <= 1.
Proof.
  intros Hn Hb. unfold nblocks.
  assert (Z.quot (n - 1) bsize <= 0); [|lia].
  replace (n - 1) with (- (1 - n)) by lia.
  rewrite Z.quot_opp_l by lia.
  assert (0 <= Z.quot (1 - n) bsize) by (apply Z.quot_pos; lia). lia.
Qed.

(** More than one block means more elements than blocks: the recursion on
    the block sums is on a strictly shorter range. *)
Lemma nblocks_decreases n bsize :
  2 <= bsize -> nblocks n bsize > 1 -> 1 < nblocks n bsize < n.
Proof.
  intros Hb Hl.
  destruct (Z_le_gt_dec n 0) as [Hn|Hn].
  - pose proof (nblocks_nonpos n bsize Hn). lia.
  - rewrite nblocks_pos in * by lia.
    assert (bsize <= n - 1).
    { destruct (Z_lt_le_dec (n - 1) bsize) as [Hlt|]; [|easy].
      rewrite Z.div_small in Hl by lia. lia. }
    assert ((n - 1) / bsize < n - 1) by (apply Z.div_lt; lia). lia.
Qed.

Section Blocked.
(** The order in which the fork-join engine runs the [l] iterations of a
    parallel loop. *)
Variable schedule : Z -> list Z.

Definition blocked_for {St} (s e bsize : Z)
           (body : Z -> Z -> Z -> St -> St) (st : St) : St :=
  let ss := s in
  let ee := e in
  let n := ee - ss in
  let l := nblocks n bsize in
  parallel_for (schedule l)
    (fun i st =>
       let s := ss + i * bsize in
       let e := Z.min (s + bsize) ee in
       body i s e st) st.
End Blocked.

(** ** namespace sequence: reduce *)

Module sequence.
Section Reduce.
Context {OT : Type}.
Variable schedule : Z -> list Z.
(** What [malloc]ed storage holds before it is written. *)
Variable uninit : mem OT.

Definition newA (n : Z) : mem OT := uninit.

(** [getA<ET,intT>(A)]: the accessor [i |-> A[i]]. *)
Definition getA (A : mem OT) : Z -> OT := fun i => A i.

(** [reduceSerial(s, e, f, g)], lines 155-161. *)
Definition reduceSerial (s e : Z) (f : OT -> OT -> OT) (g : Z -> OT) : OT :=
  let r := g s in
  for_up (s + 1) e (fun j r => f r (g j)) r.

(** [reduce(s, e, f, g)], lines 163-173. *)
Equations? reduce (s e : Z) (f : OT -> OT -> OT) (g : Z -> OT) : OT
  by wf (Z.to_nat (e - s)) lt :=
reduce s e f g with Z_le_gt_dec (nblocks (e - s) _SCAN_BSIZE) 1 := {
  | left _ => reduceSerial s e f g
  | right _ =>
      let l := nblocks (e - s) _SCAN_BSIZE in
      let Sums := newA l in
      let Sums :=
        blocked_for schedule s e _SCAN_BSIZE
          (fun i s e Sums => upd Sums i (reduceSerial s e f g)) Sums in
      let r := reduce 0 l f (getA Sums) in
      r }.
Proof.
  clear reduce Sums Sums0. subst l.
  pose proof (nblocks_decreases (e - s) _SCAN_BSIZE _SCAN_BSIZE_ge2). lia.
Qed.

(** The path of [reduce] past the serial base case, on its own. *)
Definition reduce_block_path (s e : Z) (f : OT -> OT -> OT) (g : Z -> OT) : OT :=
  let l := nblocks (e - s) _SCAN_BSIZE in
  let Sums := newA l in
  let Sums :=
    blocked_for schedule s e _SCAN_BSIZE
      (fun i s e Sums => upd Sums i (reduceSerial s e f g)) Sums in
  let r := reduce 0 l f (getA Sums) in
  r.

(** [reduce(OT *A, intT n, F f)] *)
Definition reduce_array (A : mem OT) (n : Z) (f : OT -> OT -> OT) : OT :=
  reduce 0 n f (getA A).
End Reduce.

(** ** namespace sequence: scan *)

Section Scan.
Context {ET : Type}.
Variable schedule : Z -> list Z.
Variable uninit : mem ET.

(** The accessor [g] of a scan is called while [Out] is being written and
    may read the very storage that [Out] points at ([plusScan(Sums, Sums, l)]
    in pack).  An accessor is therefore given the current contents of the
    block that holds [Out], indexed from [Out]. *)
Definition accessor : Type := mem ET -> Z -> ET.

(** Where the input pointer [In] of the array front ends points: [d] cells
    after [Out] in the same block ([In == Out] is [SameBlock 0]), or at an
    array held in another block. *)
Inductive inptr : Type :=
| SameBlock (d : Z)
| OtherBlock (In : mem ET).

(** [getA<ET,intT>(In)] as the accessor of a scan. *)
Definition getA_at (In : inptr) : accessor :=
  fun Out i =>
    match In with
    | SameBlock d => Out (d + i)
    | OtherBlock A => A i
    end.

(** [scanSerial(Out, s, e, f, g, zero, inclusive, back)], lines 264-295:
    the contents of the destination block after the call, and the value
    returned. *)
Definition scanSerial (Out : mem ET) (s e : Z) (f : ET -> ET -> ET)
           (g : accessor) (zero : ET) (inclusive back : bool) : mem ET * ET :=
  let r := zero in
  if inclusive then
    if back then
      for_down s e
        (fun i '(Out, r) => let r := f r (g Out i) in (upd Out i r, r)) (Out, r)
    else
      for_up s e
        (fun i '(Out, r) => let r := f r (g Out i) in (upd Out i r, r)) (Out, r)
  else
    if back then
      for_down s e
        (fun i '(Out, r) =>
           let t := g Out i in
           let Out := upd Out i r in
           (Out, f r t)) (Out, r)
    else
      for_up s e
        (fun i '(Out, r) =>
           let t := g Out i in
           let Out := upd Out i r in
           (Out, f r t)) (Out, r).

(** [scanSerial(In, Out, n, f, zero)] *)
Definition scanSerial_array (In : inptr) (Out : mem ET) (n : Z)
           (f : ET -> ET -> ET) (zero : ET) : mem ET * ET :=
  scanSerial Out 0 n f (getA_at In) zero false false.

(** [scan(Out, s, e, f, g, zero, inclusive, back)], lines 303-316; [back]
    indicates it runs in reverse direction. *)
Equations? scan (Out : mem ET) (s e : Z) (f : ET -> ET -> ET) (g : accessor)
  (zero : ET) (inclusive back : bool) : mem ET * ET
  by wf (Z.to_nat (e - s)) lt :=
scan Out s e f g zero inclusive back
  with Z_le_gt_dec (nblocks (e - s) _SCAN_BSIZE) 2 := {
  | left _ => scanSerial Out s e f g zero inclusive back
  | right _ =>
      let n := e - s in
      let l := nblocks n _SCAN_BSIZE in
      let Sums := newA uninit (nblocks n _SCAN_BSIZE) in
      let Sums :=
        blocked_for schedule s e _SCAN_BSIZE
          (fun i s e Sums => upd Sums i (reduceSerial s e f (g Out))) Sums in
      let res := scan Sums 0 l f (getA_at (SameBlock 0)) zero false back in
      let Sums := fst res in
      let total := snd res in
      let Out :=
        blocked_for schedule s e _SCAN_BSIZE
          (fun i s e Out =>
             fst (scanSerial Out s e f g (Sums i) inclusive back)) Out in
      (Out, total) }.
Proof.
  clear scan Sums Sums0. subst l n.
  pose proof (nblocks_decreases (e - s) _SCAN_BSIZE _SCAN_BSIZE_ge2). lia.
Qed.

(** The path of [scan] past the serial base case, on its own. *)
Definition scan_block_path (Out : mem ET) (s e : Z) (f : ET -> ET -> ET)
           (g : accessor) (zero : ET) (inclusive back : bool) : mem ET * ET :=
  let n := e - s in
  let l := nblocks n _SCAN_BSIZE in
  let Sums := newA uninit (nblocks n _SCAN_BSIZE) in
  let Sums :=
    blocked_for schedule s e _SCAN_BSIZE
      (fun i s e Sums => upd Sums i (reduceSerial s e f (g Out))) Sums in
  let res := scan Sums 0 l f (getA_at (SameBlock 0)) zero false back in
  let Sums := fst res in
  let total := snd res in
  let Out :=
    blocked_for schedule s e _SCAN_BSIZE
      (fun i s e Out =>
         fst (scanSerial Out s e f g (Sums i) inclusive back)) Out in
  (Out, total).

(** [scan(In, Out, n, f, zero)] *)
Definition scan_array (In : inptr) (Out : mem ET) (n : Z)
           (f : ET -> ET -> ET) (zero : ET) : mem ET * ET :=
  scan Out 0 n f (getA_at In) zero false false.

Definition scanI (In : inptr) (Out : mem ET) (n : Z)
           (f : ET -> ET -> ET) (zero : ET) : mem ET * ET :=
  scan Out 0 n f (getA_at In) zero true false.

Definition scanBack (In : inptr) (Out : mem ET) (n : Z)
           (f : ET -> ET -> ET) (zero : ET) : mem ET * ET :=
  scan Out 0 n f (getA_at In) zero false true.

Definition scanIBack (In : inptr) (Out : mem ET) (n : Z)
           (f : ET -> ET -> ET) (zero : ET) : mem ET * ET :=
  scan Out 0 n f (getA_at In) zero true true.
End Scan.

(** [addF<E>] at an integer type. *)
Definition addF (a b : Z) : Z := a + b.

Definition plusScan (schedule : Z -> list Z) (uninit : mem Z)
           (In : inptr) (Out : mem Z) (n : Z) : mem Z * Z :=
  scan schedule uninit Out 0 n addF (getA_at In) 0 false false.

Definition plusScanI (schedule : Z -> list Z) (uninit : mem Z)
           (In : inptr) (Out : mem Z) (n : Z) : mem Z * Z :=
  scan schedule uninit Out 0 n addF (getA_at In) 0 true false.

(** ** namespace sequence: counting flags and pack *)

(** The lines that the counting and packing routines write to [cout]. *)
Inductive line : Type :=
| sumFlagsSerial_line (FL n : Z)  (* "sumFlagsSerial FL = " Fl " n = " n *)
| Sums_line (i v : Z)             (* "Sums[" i "] = " Sums[i] *)
| m_line (m : Z).                 (* "m = " m *)

Definition ostream : Type := list line.

(** A [bool *]: the address it holds and the flags it points at,
    [Fl[j] = flag Fl j].  A [bool] object holds 0 or 1 in one byte. *)
Record boolptr : Type := { address : Z; flag : mem bool }.

(** [Fl + k] *)
Definition boolptr_add (Fl : boolptr) (k : Z) : boolptr :=
  {| address := address Fl + k; flag := fun j => flag Fl (k + j) |}.

(** Arithmetic of the 32-bit [int]: two's complement wrap-around. *)
Definition wrap_int (x : Z) : Z := (x + 2 ^ 31) mod 2 ^ 32 - 2 ^ 31.

(** [((int * )Fl)[j]]: four consecutive flags read as one little-endian
    [int]. *)
Definition read_int (Fl : mem bool) (j : Z) : Z :=
  wrap_int (Z.b2z (Fl (4 * j))
            + Z.shiftl (Z.b2z (Fl (4 * j + 1))) 8
            + Z.shiftl (Z.b2z (Fl (4 * j + 2))) 16
            + Z.shiftl (Z.b2z (Fl (4 * j + 3))) 24).

(** [sumFlagsSerial(Fl, n)], lines 354-371: sums a sequence of [n] boolean
    flags; sums blocks of 4 booleans by treating them as an integer when
    [n] is a multiple of 512 and [Fl] is 4-byte aligned. *)
Definition sumFlagsSerial (Fl : boolptr) (n : Z) (cout : ostream) : Z * ostream :=
  let cout := cout ++ [sumFlagsSerial_line (address Fl) n] in
  let r := 0 in
  if (128 <=? n) && (Z.land n 511 =? 0) && (Z.land (address Fl) 3 =? 0) then
    let IFl := 0 in
    let '(r, IFl) :=
      for_up 0 (Z.shiftr n 9)
        (fun k '(r, IFl) =>
           let rr := 0 in
           let rr :=
             for_up 0 128
               (fun j rr => wrap_int (rr + read_int (flag Fl) (IFl + j))) rr in
           let r := r + (Z.land rr 255 + Z.land (Z.shiftr rr 8) 255
                         + Z.land (Z.shiftr rr 16) 255
                         + Z.land (Z.shiftr rr 24) 255) in
           (r, IFl + 128)) (r, IFl) in
    (r, cout)
  else
    (for_up 0 n (fun j r => r + Z.b2z (flag Fl j)) r, cout).

(** [_seq<T>]: a pointer and a length.  The pointer is [None] when it is
    [NULL] and otherwise the cell of the destination block it points at. *)
Record _seq : Type := { A : option Z; n : Z }.

Section Pack.
Context {ET : Type}.
Variable schedule : Z -> list Z.
Variable uninit : mem ET.
Variable uninit_int : mem Z.

(** [packSerial(Out, Fl, s, e, f)], lines 373-384.  The state of a pack is
    the block that holds the destination, and [cout].  When [Out] is [NULL]
    the routine allocates the destination itself: the block is then a
    fresh one and [Out] its first cell.  The accessor [f] is a function of
    the index: it reads no storage that the pack writes. *)
Definition packSerial (M : mem ET) (Out : option Z) (Fl : boolptr) (s e : Z)
           (f : Z -> ET) (cout : ostream) : mem ET * _seq * ostream :=
  let '(M, Out, cout) :=
    match Out with
    | None =>
        let '(m, cout) := sumFlagsSerial (boolptr_add Fl s) (e - s) cout in
        (newA uninit m, 0, cout)
    | Some Out => (M, Out, cout)
    end in
  let k := 0 in
  let '(M, k) :=
    for_up s e
      (fun i '(M, k) =>
         if flag Fl i then (upd M (Out + k) (f i), k + 1) else (M, k))
      (M, k) in
  (M, {| A := Some Out; n := k |}, cout).

(** [pack(Out, Fl, s, e, f)], lines 386-402: the path past the serial base
    case. *)
Definition pack_block_path (M : mem ET) (Out : option Z) (Fl : boolptr)
           (s e : Z) (f : Z -> ET) (cout : ostream) : mem ET * _seq * ostream :=
  let l := nblocks (e - s) _F_BSIZE in
  let Sums := newA uninit_int l in
  let '(Sums, cout) :=
    blocked_for schedule s e _F_BSIZE
      (fun i s e '(Sums, cout) =>
         let '(c, cout) := sumFlagsSerial (boolptr_add Fl s) (e - s) cout in
         (upd Sums i c, cout)) (Sums, cout) in
  let cout := for_up 0 l (fun i cout => cout ++ [Sums_line i (Sums i)]) cout in
  let '(Sums, m) := plusScan schedule uninit_int (SameBlock 0) Sums l in
  let cout := cout ++ [m_line m] in
  let '(M, Out) :=
    match Out with
    | None => (newA uninit m, 0)
    | Some Out => (M, Out)
    end in
  let '(M, cout) :=
    blocked_for schedule s e _F_BSIZE
      (fun i s e '(M, cout) =>
         let '(M, _, cout) :=
           packSerial M (Some (Out + Sums i)) Fl s e f cout in
         (M, cout)) (M, cout) in
  (M, {| A := Some Out; n := m |}, cout).

Definition pack (M : mem ET) (Out : option Z) (Fl : boolptr) (s e : Z)
           (f : Z -> ET) (cout : ostream) : mem ET * _seq * ostream :=
  let l := nblocks (e - s) _F_BSIZE in
  if l <=? 1 then packSerial M Out Fl s e f cout
  else pack_block_path M Out Fl s e f cout.

(** [pack(In, Out, Fl, n)] *)
Definition pack_array (In : mem ET) (M : mem ET) (Out : option Z)
           (Fl : boolptr) (len : Z) (cout : ostream) : mem ET * Z * ostream :=
  let '(M, sq, cout) := pack M Out Fl 0 len (getA In) cout in
  (M, n sq, cout).
End Pack.

(** [identityF<E>] *)
Definition identityF {E} (x : E) : E := x.

(** [packIndex(Fl, n)] *)
Definition packIndex (schedule : Z -> list Z) (uninit : mem Z)
           (Fl : boolptr) (len : Z) (cout : ostream) : mem Z * _seq * ostream :=
  pack schedule uninit uninit uninit None Fl 0 len identityF cout.
(** ** namespace sequence: the other accessors and the reduce front ends *)

(** [boolGetA<intT>(A)], lines 99-103: [(intT)A[i]]. *)
Definition boolGetA (A : mem bool) : Z -> Z := fun i => Z.b2z (A i).

(** [getAF<IT,OT,intT,F>(A, f)], lines 111-116: [f(A[i])]. *)
Definition getAF {IT OT} (A : mem IT) (f : IT -> OT) : Z -> OT :=
  fun i => f (A i).

(** [addF<E>], lines 56-58, at an integer type [E] of any width: [wrap]
    is the reduction that the arithmetic of [E] and a cast [(E)x] apply to
    a result, [x mod 2^w] at an unsigned type of [w] bits. *)
Definition addF_at (wrap : Z -> Z) (a b : Z) : Z := wrap (a + b).

(** [getDegree<vertex,intT>(V, activeV)], lines 118-125; [getOutDegree] is
    the method of the vertex type and [wrap] the cast to [intT]. *)
Definition getDegree {vertex} (wrap : Z -> Z) (getOutDegree : vertex -> Z)
           (V : mem vertex) (activeV : mem bool) : Z -> Z :=
  fun i => if activeV i then wrap (getOutDegree (V i)) else 0.

(** [plusReduce(A, n)], lines 242-244, at the element type [OT] with
    reduction [wrap]. *)
Definition plusReduce (schedule : Z -> list Z) (uninit : mem Z)
           (wrap : Z -> Z) (A : mem Z) (n : Z) : Z :=
  reduce schedule uninit 0 n (addF_at wrap) (getA A).

(** [plusReduceDegree(A, activeV, n)], lines 246-250, at the index type
    [intT] with reduction [wrap]. *)
Definition plusReduceDegree {vertex} (schedule : Z -> list Z) (uninit : mem Z)
           (wrap : Z -> Z) (getOutDegree : vertex -> Z) (A : mem vertex)
           (activeV : mem bool) (n : Z) : Z :=
  reduce schedule uninit 0 n (addF_at wrap)
    (getDegree wrap getOutDegree A activeV).

(** [mapReduce(A, n, f, g)], lines 255-258: [g] is the map function
    (applied to each element), [f] is the reduce function. *)
Definition mapReduce {IT OT} (schedule : Z -> list Z) (uninit : mem OT)
           (A : mem IT) (n : Z) (f : OT -> OT -> OT) (g : IT -> OT) : OT :=
  reduce schedule uninit 0 n f (getAF A g).

(** [sum(In, n)], lines 260-262. *)
Definition sum (schedule : Z -> list Z) (uninit : mem Z)
           (In : mem bool) (n : Z) : Z :=
  reduce schedule uninit 0 n addF (boolGetA In).

(** ** namespace sequence: apply *)

Section Apply.
(** [applyF] and [endCondition] are closures over storage of the caller:
    [St] is that storage, which [applyF] updates and [endCondition] and the
    getter read. *)
Context {OT St : Type}.
Variable schedule : Z -> list Z.

(** The loop of [applySerial] with [k] iterations left at index [j]; the
    [return] inside it leaves the loop. *)
Fixpoint applySerial_loop (k : nat) (j : Z) (applyF : OT -> Z -> St -> St)
         (endCondition : St -> bool) (getter : St -> Z -> OT) (st : St) : St :=
  match k with
  | O => st
  | S k' =>
      if endCondition st then st
      else applySerial_loop k' (j + 1) applyF endCondition getter
             (applyF (getter st j) j st)
  end.

(** [applySerial(s, e, applyF, endCondition, getter)], lines 180-187. *)
Definition applySerial (s e : Z) (applyF : OT -> Z -> St -> St)
           (endCondition : St -> bool) (getter : St -> Z -> OT) (st : St) : St :=
  applySerial_loop (Z.to_nat (e - s)) s applyF endCondition getter st.

(** [apply(s, e, applyF, endCondition, getter)], lines 189-198.  A block
    of the parallel path is run as a whole when its turn comes. *)
Definition apply (s e : Z) (applyF : OT -> Z -> St -> St)
           (endCondition : St -> bool) (getter : St -> Z -> OT) (st : St) : St :=
  let l := nblocks (e - s) _SCAN_BSIZE in
  if l <=? 1 then applySerial s e applyF endCondition getter st
  else
    blocked_for schedule s e _SCAN_BSIZE
      (fun i s e st => applySerial s e applyF endCondition getter st) st.
End Apply.

(** ** namespace sequence: packIndex's sibling, filter *)

Section Filter.
Context {ET : Type}.
Variable schedule : Z -> list Z.
Variable uninit : mem ET.
Variable uninit_int : mem Z.

(** [filter(In, Out, Fl, n, p)], lines 412-417: the flags as the first
    loop leaves them, the destination block, the count and [cout]. *)
Definition filter (In : mem ET) (M : mem ET) (Out : option Z) (Fl : boolptr)
           (len : Z) (p : ET -> bool) (cout : ostream)
  : boolptr * mem ET * Z * ostream :=
  let Fl :=
    {| address := address Fl;
       flag := parallel_for (schedule len)
                 (fun i F => upd F i (p (In i))) (flag Fl) |} in
  let '(M, m, cout) :=
    pack_array schedule uninit uninit_int In M Out Fl len cout in
  (Fl, M, m, cout).

(** [filter(In, Out, n, p)], lines 419-425: the flags are a fresh array, at
    the address [Fl_address] that [malloc] picks and with contents
    [uninit_bool]. *)
Definition filter_alloc (Fl_address : Z) (uninit_bool : mem bool)
           (In : mem ET) (M : mem ET) (Out : option Z) (len : Z)
           (p : ET -> bool) (cout : ostream) : mem ET * Z * ostream :=
  let Fl := {| address := Fl_address; flag := uninit_bool |} in
  let '(_, M, m, cout) := filter In M Out Fl len p cout in
  (M, m, cout).
End Filter.
End sequence.

(** ** Atomic primitives *)

(** [CAS(ptr, oldv, newv)], lines 429-443, on a cell of an integer type of
    1, 4 or 8 bytes: the new contents of the cell and whether the swap
    happened. *)
Definition CAS (cell oldv newv : Z) : Z * bool :=
  if cell =? oldv then (newv, true) else (cell, false).

(** [writeMin(a, b)], lines 445-452.  Control points of a call: before the
    load [c = *a],
    between the load and the test [c > b && !(r = CAS(a, c, b))], and after
    [return r].  The load and the CAS are its two atomic accesses to the
    cell. *)
Inductive writeMin_pc : Type :=
| at_load
| at_test (c : Z)
| returned (r : bool).

Definition writeMin_step (b : Z) (pc : writeMin_pc) (a : Z) : writeMin_pc * Z :=
  match pc with
  | at_load => (at_test a, a)
  | at_test c =>
      if c >? b then
        let '(a, r) := CAS a c b in
        if negb r then (at_load, a) else (returned r, a)
      else (returned false, a)
  | returned r => (returned r, a)
  end.

(** A call that runs with no other writer of the cell in between. *)
Fixpoint writeMin_run (fuel : nat) (b : Z) (pc : writeMin_pc) (a : Z)
  : option (Z * bool) :=
  match pc with
  | returned r => Some (a, r)
  | _ =>
      match fuel with
      | O => None
      | S fuel =>
          let '(pc, a) := writeMin_step b pc a in
          writeMin_run fuel b pc a
      end
  end.

Definition writeMin (fuel : nat) (a b : Z) : option (Z * bool) :=
  writeMin_run fuel b at_load a.

(** Calls [writeMin(a, v)] for the values of [vs], one after another. *)
Fixpoint writeMin_all (fuel : nat) (a : Z) (vs : list Z) : option Z :=
  match vs with
  | [] => Some a
  | v :: vs =>
      match writeMin fuel a v with
      | Some (a, _) => writeMin_all fuel a vs
      | None => None
      end
  end.

(** Concurrent callers: thread [t] proposes [fst] of its entry and is at
    control point [snd]; [sched] names the thread that takes each step. *)
Definition writeMin_threads : Type := list (Z * writeMin_pc).

Fixpoint thread_step (t : nat) (ths : writeMin_threads) (a : Z) {struct ths}
  : writeMin_threads * Z :=
  match ths with
  | [] => ([], a)
  | (b, pc) :: rest =>
      match t with
      | O => let '(pc, a) := writeMin_step b pc a in ((b, pc) :: rest, a)
      | S t => let '(rest, a) := thread_step t rest a in ((b, pc) :: rest, a)
      end
  end.

Definition interleave (sched : list nat) (ths : writeMin_threads) (a : Z)
  : writeMin_threads * Z :=
  fold_left (fun '(ths, a) t => thread_step t ths a) sched (ths, a).

Definition all_returned (ths : writeMin_threads) : Prop :=
  Forall (fun th => exists r, snd th = returned r) ths.

(** ** remDuplicates *)

Section RemDuplicates.
(** [uintE] and its largest value [UINT_E_MAX] are declared outside this
    header; [uintE] holds the integers of [[0, UINT_E_MAX]]. *)
Variable UINT_E_MAX : Z.
(** The orders in which the two parallel loops run their iterations. *)
Variables schedule1 schedule2 : Z -> list Z.

(** [static_cast<uintE>(i)] *)
Definition to_uintE (i : Z) : Z := i mod (UINT_E_MAX + 1).

(** [remDuplicates(get_key, flags, m, n)], lines 502-521: remove duplicate
    integers in [[0, n-1]].  [get_key(i)] is a reference to the key of
    entry [i]: the entries are the block [get_key].  An iteration of the
    first loop touches shared storage in its CAS only, and a CAS that the
    test before it skips is a CAS that fails, so the iteration is one
    atomic step.  An iteration of the second loop writes its own key, or
    the slot that holds its own index, which no other iteration writes. *)
Definition remDuplicates (get_key : mem Z) (flags : mem Z) (m n : Z)
  : mem Z * mem Z :=
  let flags :=
    parallel_for (schedule1 m)
      (fun i flags =>
         let key := get_key i in
         if negb (key =? UINT_E_MAX) && (flags key =? UINT_E_MAX) then
           upd flags key (fst (CAS (flags key) UINT_E_MAX (to_uintE i)))
         else flags) flags in
  (* reset flags *)
  parallel_for (schedule2 m)
    (fun i '(get_key, flags) =>
       let key := get_key i in
       if negb (key =? UINT_E_MAX) then
         if flags key =? i then (get_key, upd flags key UINT_E_MAX)
         else (upd get_key i UINT_E_MAX, flags)
       else (get_key, flags)) (get_key, flags).
End RemDuplicates.

(** ** The other functors *)

(** [minF<E>] and [maxF<E>], lines 64-70, at an integer type. *)
Definition minF (a b : Z) : Z := if a <? b then a else b.

Definition maxF (a b : Z) : Z := if a >? b then a else b.

(** [nonMaxF], lines 72-74. *)
Definition nonMaxF (UINT_E_MAX : Z) (a : Z) : bool := negb (a =? UINT_E_MAX).

(** ** The read-modify-write primitives *)

(** [writeAdd], [multiplyAndSave] and [divideAndSave] (lines 454-476) and
    [pbbs::fetch_and_add] and [pbbs::write_add] (lines 634-649) are one
    loop, [do { oldV = *a; newV = oldV op b; } while (!CAS(a, oldV, newV))],
    around the operator [op] of the element type.  Control points of a
    call: before the load, between the load and the CAS, and after the
    loop, where [oldV] is what [fetch_and_add] returns. *)
Inductive rmw_pc : Type :=
| rmw_load
| rmw_cas (oldV newV : Z)
| rmw_done (oldV : Z).

Definition rmw_step (op : Z -> Z -> Z) (b : Z) (pc : rmw_pc) (a : Z)
  : rmw_pc * Z :=
  match pc with
  | rmw_load =>
      let oldV := a in
      let newV := op oldV b in
      (rmw_cas oldV newV, a)
  | rmw_cas oldV newV =>
      let '(a, r) := CAS a oldV newV in
      if negb r then (rmw_load, a) else (rmw_done oldV, a)
  | rmw_done oldV => (rmw_done oldV, a)
  end.

(** The operators: [add], [mul] and [div] are [+], [*] and [/] of the
    element type. *)
Definition writeAdd_step (add : Z -> Z -> Z) := rmw_step add.
Definition multiplyAndSave_step (mul : Z -> Z -> Z) := rmw_step mul.
Definition divideAndSave_step (div : Z -> Z -> Z) := rmw_step div.

(** Concurrent callers of one of these primitives on one cell: thread [t]
    has argument [fst] and is at control point [snd]. *)
Definition rmw_threads : Type := list (Z * rmw_pc).

Fixpoint rmw_thread_step (op : Z -> Z -> Z) (t : nat) (ths : rmw_threads)
         (a : Z) {struct ths} : rmw_threads * Z :=
  match ths with
  | [] => ([], a)
  | (b, pc) :: rest =>
      match t with
      | O => let '(pc, a) := rmw_step op b pc a in ((b, pc) :: rest, a)
      | S t =>
          let '(rest, a) := rmw_thread_step op t rest a in ((b, pc) :: rest, a)
      end
  end.

Definition rmw_interleave (op : Z -> Z -> Z) (sched : list nat)
           (ths : rmw_threads) (a : Z) : rmw_threads * Z :=
  fold_left (fun '(ths, a) t => rmw_thread_step op t ths a) sched (ths, a).

(** ** namespace pbbs *)

Module pbbs.

(** [fetch_and_add(a, b)] and [write_add(a, b)], lines 634-649. *)
Definition fetch_and_add_step (add : Z -> Z -> Z) := rmw_step add.
Definition write_add_step (add : Z -> Z -> Z) := rmw_step add.

(** [write_min(a, b, less)], lines 651-658: [writeMin] with the order
    [less] of the caller. *)
Definition write_min_step (less : Z -> Z -> bool) (b : Z) (pc : writeMin_pc)
           (a : Z) : writeMin_pc * Z :=
  match pc with
  | at_load => (at_test a, a)
  | at_test c =>
      if less b c then
        let '(a, r) := CAS a c b in
        if negb r then (at_load, a) else (returned r, a)
      else (returned false, a)
  | returned r => (returned r, a)
  end.

Fixpoint write_min_thread_step (less : Z -> Z -> bool) (t : nat)
         (ths : writeMin_threads) (a : Z) {struct ths} : writeMin_threads * Z :=
  match ths with
  | [] => ([], a)
  | (b, pc) :: rest =>
      match t with
      | O => let '(pc, a) := write_min_step less b pc a in ((b, pc) :: rest, a)
      | S t =>
          let '(rest, a) := write_min_thread_step less t rest a in
          ((b, pc) :: rest, a)
      end
  end.

Definition write_min_interleave (less : Z -> Z -> bool) (sched : list nat)
           (ths : writeMin_threads) (a : Z) : writeMin_threads * Z :=
  fold_left (fun '(ths, a) t => write_min_thread_step less t ths a) sched (ths, a).

(** Arithmetic of [uint32_t] and [uint64_t]. *)
Definition u32 (x : Z) : Z := x mod 2 ^ 32.
Definition u64 (x : Z) : Z := x mod 2 ^ 64.

(** [hash32(a)], lines 556-565: a 32-bit hash function. *)
Definition hash32 (a : Z) : Z :=
  let a := u32 (u32 (a + 0x7ed55d16) + u32 (Z.shiftl a 12)) in
  let a := Z.lxor (Z.lxor a 0xc761c23c) (Z.shiftr a 19) in
  let a := u32 (u32 (a + 0x165667b1) + u32 (Z.shiftl a 5)) in
  let a := Z.lxor (u32 (a + 0xd3a2646c)) (u32 (Z.shiftl a 9)) in
  let a := u32 (u32 (a + 0xfd7046c5) + u32 (Z.shiftl a 3)) in
  let a := Z.lxor (Z.lxor a 0xb55a4f09) (Z.shiftr a 16) in
  a.

(** [hash64(u)], lines 567-578: from numerical recipes. *)
Definition hash64 (u : Z) : Z :=
  let v := u64 (u64 (u * 3935559000370003845) + 2691343689449507681) in
  let v := Z.lxor v (Z.shiftr v 21) in
  let v := Z.lxor v (u64 (Z.shiftl v 37)) in
  let v := Z.lxor v (Z.shiftr v 4) in
  let v := u64 (v * 4768777513237032717) in
  let v := Z.lxor v (u64 (Z.shiftl v 20)) in
  let v := Z.lxor v (Z.shiftr v 41) in
  let v := Z.lxor v (u64 (Z.shiftl v 5)) in
  v.

(** [new_array_no_init<E>(n)], lines 580-602: the number of bytes asked
    of the allocator, in [size_t] arithmetic; [sizeof_E] is [sizeof(E)]. *)
Definition line_size : Z := 64.

Definition new_array_bytes (sizeof_E n : Z) : Z :=
  u64 (u64 (u64 (n * sizeof_E) / line_size + 1) * line_size).

(** The loop of [log2_up]. *)
Equations? log2_up_loop (a b : Z) : Z by wf (Z.to_nat b) lt :=
log2_up_loop a b with Z_gt_le_dec b 0 := {
  | left _ => log2_up_loop (a + 1) (Z.shiftr b 1)
  | right _ => a }.
Proof.
  rewrite Z.shiftr_div_pow2 by lia. change (2 ^ 1) with 2.
  assert (b / 2 < b) by (apply Z.div_lt; lia).
  assert (0 <= b / 2) by (apply Z.div_pos; lia). lia.
Qed.

(** [log2_up(i)], lines 660-670: the log base 2 rounded up, at a signed
    integer type. *)
Definition log2_up (i : Z) : Z :=
  let a := 0 in
  let b := i - 1 in
  log2_up_loop a b.

(** [create_copy(n, ref)], lines 676-681: [temp] is fresh storage, with
    contents [uninit]. *)
Definition create_copy {T} (schedule : Z -> list Z) (uninit : mem T)
           (n : Z) (ref : mem T) : mem T :=
  let temp := uninit in
  parallel_for (schedule n) (fun i temp => upd temp i (ref i)) temp.

(** [create_copy(n, s, ref)], lines 683-693: an array of [n] rows of [s]
    cells.  A row is a block of its own: [temp[i]] is the block that row
    [i] points at. *)
Definition create_copy_rows {T} (schedule : Z -> list Z)
           (uninit_rows : mem (mem T)) (uninit : mem T)
           (n s : Z) (ref : mem (mem T)) : mem (mem T) :=
  let temp := uninit_rows in
  parallel_for (schedule n)
    (fun i temp =>
       let temp := upd temp i uninit in
       for_up 0 s (fun j temp => upd temp i (upd (temp i) j (ref i j))) temp)
    temp.

End pbbs.

(** [hashInt(uint a)], lines 478-486, and [hashInt(ulong a)], lines
    488-496. *)
Definition hashInt_uint (a : Z) : Z :=
  let a := pbbs.u32 (pbbs.u32 (a + 0x7ed55d16) + pbbs.u32 (Z.shiftl a 12)) in
  let a := Z.lxor (Z.lxor a 0xc761c23c) (Z.shiftr a 19) in
  let a := pbbs.u32 (pbbs.u32 (a + 0x165667b1) + pbbs.u32 (Z.shiftl a 5)) in
  let a := Z.lxor (pbbs.u32 (a + 0xd3a2646c)) (pbbs.u32 (Z.shiftl a 9)) in
  let a := pbbs.u32 (pbbs.u32 (a + 0xfd7046c5) + pbbs.u32 (Z.shiftl a 3)) in
  let a := Z.lxor (Z.lxor a 0xb55a4f09) (Z.shiftr a 16) in
  a.

Definition hashInt_ulong (a : Z) : Z :=
  let a := pbbs.u64 (pbbs.u64 (a + 0x7ed55d166bef7a1d) + pbbs.u64 (Z.shiftl a 12)) in
  let a := Z.lxor (Z.lxor a 0xc761c23c510fa2dd) (Z.shiftr a 9) in
  let a := pbbs.u64 (pbbs.u64 (a + 0x165667b183a9c0e1) + pbbs.u64 (Z.shiftl a 59)) in
  let a := Z.lxor (pbbs.u64 (a + 0xd3a2646cab3487e3)) (pbbs.u64 (Z.shiftl a 49)) in
  let a := pbbs.u64 (pbbs.u64 (a + 0xfd7046c5ef9ab54c) + pbbs.u64 (Z.shiftl a 3)) in
  let a := Z.lxor (Z.lxor a 0xb55a4f090dd4a67b) (Z.shiftr a 32) in
  a.

(** * Specification vocabulary *)

(** The schedule that runs the iterations of a parallel loop in index
    order, and an array given by the list of its elements. *)
Definition in_order (l : Z) : list Z := range 0 l.

Definition array_of {T} (d : T) (l : list T) : mem T :=
  fun i => nth (Z.to_nat i) l d.

(** The number of true entries of [Fl[s..e)]. *)
Definition count_true (Fl : mem bool) (s e : Z) : Z :=
  Z.of_nat (length (filter Fl (range s e))).

(** The indices of [[s, e)] whose flag is set, in increasing order. *)
Definition flagged (Fl : mem bool) (s e : Z) : list Z := filter Fl (range s e).

(** The value of the accessor at [i] depends on the destination block
    through cell [i] at most: so it is for an input array that is the
    destination itself, or that lies elsewhere. *)
Definition local_accessor {ET : Type} (g : sequence.accessor (ET := ET)) : Prop :=
  forall Out Out' i, Out i = Out' i -> g Out i = g Out' i.

(** What a pack of [[s, e)] must leave behind: the length of the result is
    the number of set flags, the result holds [f i] for the flagged [i] in
    increasing order, and a destination supplied by the caller is the one
    used and is the only storage written. *)
Definition packed {ET : Type} (M : mem ET) (Out : option Z) (Fl : sequence.boolptr)
           (s e : Z) (f : Z -> ET)
           (res : mem ET * sequence._seq * sequence.ostream) : Prop :=
  let M' := fst (fst res) in
  let sq := snd (fst res) in
  sequence.n sq = count_true (sequence.flag Fl) s e /\
  exists p,
    sequence.A sq = Some p /\
    slice M' p (p + sequence.n sq) = map f (flagged (sequence.flag Fl) s e) /\
    forall o, Out = Some o ->
      p = o /\ forall j, ~ o <= j < o + sequence.n sq -> M' j = M j.

(** An associative combiner that is not commutative. *)
Definition last_wins (a b : Z) : Z := b.

(** What holds of a concurrent caller when the cell holds [a]: [a] is at
    most what the caller has read if it is between its load and its test,
    and at most its proposed value if it has returned. *)
Definition thread_ok (a : Z) (th : Z * writeMin_pc) : Prop :=
  match snd th with
  | at_load => True
  | at_test c => a <= c
  | returned _ => a <= fst th
  end.

(** Concurrent callers.  Whatever the interleaving of their loads and
    CASes, the cell never rises above its initial value [a0], holds [a0] or
    a proposed value, and every caller is [thread_ok]. *)
Definition writeMin_inv (a0 : Z) (ths : writeMin_threads) (a : Z) : Prop :=
  a <= a0 /\ (a = a0 \/ In a (map fst ths)) /\ Forall (thread_ok a) ths.

(** Concurrent callers of a read-modify-write primitive.  The history of
    the callers that are through: the argument of each with the value it
    read last ([oldV], which [fetch_and_add] returns). *)
Definition rmw_is_done (pc : rmw_pc) : bool :=
  match pc with rmw_done _ => true | _ => false end.

Definition rmw_history (ths : rmw_threads) : list (Z * Z) :=
  flat_map (fun th => match snd th with
                      | rmw_done oldV => [(fst th, oldV)]
                      | _ => []
                      end) ths.

(** The calls of [h], run one after another from [a0] with no other
    access to the cell in between, read the values that [h] records and
    leave [a] in the cell. *)
Fixpoint rmw_chain (op : Z -> Z -> Z) (a0 : Z) (h : list (Z * Z)) (a : Z) : Prop :=
  match h with
  | [] => a = a0
  | (b, oldV) :: h => oldV = a0 /\ rmw_chain op (op a0 b) h a
  end.

(** What the interleavings preserve: a caller between its load and its
    CAS holds the value it read and that value combined with its
    argument, the arguments of the callers never change, and the calls
    that are through can be put in an order in which, run one after
    another, they read what they have read and leave what the cell
    holds. *)
Definition rmw_inv (op : Z -> Z -> Z) (a0 : Z) (bs : list Z)
           (ths : rmw_threads) (a : Z) : Prop :=
  map fst ths = bs /\
  (forall b o nv, In (b, rmw_cas o nv) ths -> nv = op o b) /\
  exists h, Permutation h (rmw_history ths) /\ rmw_chain op a0 h a.

(** What holds of a concurrent caller of [write_min] when the cell holds
    [a]: between its load and its test, [a] is what it has read or goes
    before it in the order; once it has returned, its proposed value does
    not go before [a]. *)
Definition write_min_ok (less : Z -> Z -> bool) (a : Z)
           (th : Z * writeMin_pc) : Prop :=
  match snd th with
  | at_load => True
  | at_test c => a = c \/ less a c = true
  | returned _ => less (fst th) a = false
  end.

(** What the interleavings of concurrent [write_min] calls preserve: the
    proposed values never change, the cell holds the initial value or a
    proposed one, it holds the initial value or a value that goes before
    it, and every caller is [write_min_ok]. *)
Definition write_min_inv (less : Z -> Z -> bool) (a0 : Z) (vs : list Z)
           (ths : writeMin_threads) (a : Z) : Prop :=
  map fst ths = vs /\
  (a = a0 \/ In a vs) /\
  (a = a0 \/ less a a0 = true) /\
  Forall (write_min_ok less a) ths.

(** The steps of the hash functions, on [w]-bit words:
    [(x ^ C) ^ (x >> s)], [(x + C) + (x << s)], [(x + C) ^ (x << s)],
    [x * M + C], [x * M], [x ^ (x >> s)] and [x ^ (x << s)]. *)
Definition xor_shiftr (C s x : Z) : Z := Z.lxor (Z.lxor x C) (Z.shiftr x s).

Definition add_shiftl (w C s x : Z) : Z :=
  ((x + C) mod 2 ^ w + Z.shiftl x s mod 2 ^ w) mod 2 ^ w.

Definition add_xor_shiftl (w C s x : Z) : Z :=
  Z.lxor ((x + C) mod 2 ^ w) (Z.shiftl x s mod 2 ^ w).

Definition mul_add (w M C x : Z) : Z := ((x * M) mod 2 ^ w + C) mod 2 ^ w.

Definition mul_word (w M x : Z) : Z := (x * M) mod 2 ^ w.

Definition xorshiftr (s x : Z) : Z := Z.lxor x (Z.shiftr x s).

Definition xorshiftl (w s x : Z) : Z := Z.lxor x (Z.shiftl x s mod 2 ^ w).

(** * Properties *)

(** ** Loops and index ranges *)

Lemma range_nil s e : e <= s -> range s e = [].
Proof.
  intros H. unfold range. now replace (Z.to_nat (e - s)) with O by lia.
Qed.

Lemma range_cons s e : s < e -> range s e = s :: range (s + 1) e.
Proof.
  intros H. unfold range.
  replace (Z.to_nat (e - s)) with (S (Z.to_nat (e - (s + 1)))) by lia.
  cbn [seq map]. f_equal; [lia|].
  rewrite <- seq_shift, map_map. apply map_ext. intros k. lia.
Qed.

Lemma range_snoc s e : s < e -> range s e = range s (e - 1) ++ [e - 1].
Proof.
  intros H. unfold range.
  replace (Z.to_nat (e - s)) with (Z.to_nat (e - 1 - s) + 1)%nat by lia.
  rewrite seq_app, map_app. cbn [seq map]. do 2 f_equal. lia.
Qed.

Lemma range_app s m e : s <= m <= e -> range s e = range s m ++ range m e.
Proof.
  intros H. remember (Z.to_nat (m - s)) as k eqn:Hk.
  revert s H Hk. induction k as [|k IH]; intros s H Hk.
  - replace m with s by lia. now rewrite (range_nil s s) by lia.
  - rewrite (range_cons s e), (range_cons s m) by lia.
    cbn [app]. f_equal. apply IH; lia.
Qed.

Lemma in_range s e i : In i (range s e) <-> s <= i < e.
Proof.
  unfold range. rewrite in_map_iff. split.
  - intros (k & <- & Hk). apply in_seq in Hk. lia.
  - intros H. exists (Z.to_nat (i - s)). split; [lia|]. apply in_seq. lia.
Qed.

Lemma NoDup_range s e : NoDup (range s e).
Proof.
  unfold range. apply Finite.Injective_map_NoDup; [|apply seq_NoDup].
  intros a b. lia.
Qed.

Lemma length_range s e : length (range s e) = Z.to_nat (e - s).
Proof. unfold range. now rewrite length_map, length_seq. Qed.

Lemma iter_up_fold {St} k i (body : Z -> St -> St) st :
  iter_up k i body st =
  fold_left (fun st j => body j st) (range i (i + Z.of_nat k)) st.
Proof.
  revert i st. induction k as [|k IH]; intros i st.
  - now rewrite range_nil by lia.
  - rewrite range_cons by lia. cbn [iter_up fold_left]. rewrite IH.
    now replace (i + 1 + Z.of_nat k) with (i + Z.of_nat (S k)) by lia.
Qed.

Lemma for_up_fold {St} s e (body : Z -> St -> St) st :
  for_up s e body st = fold_left (fun st j => body j st) (range s e) st.
Proof.
  unfold for_up. rewrite iter_up_fold.
  destruct (Z_le_gt_dec e s).
  - now rewrite !range_nil by lia.
  - now replace (s + Z.of_nat (Z.to_nat (e - s))) with e by lia.
Qed.

Lemma iter_down_fold {St} k i (body : Z -> St -> St) st :
  iter_down k i body st =
  fold_left (fun st j => body j st) (rev (range (i - Z.of_nat k) i)) st.
Proof.
  revert i st. induction k as [|k IH]; intros i st.
  - now rewrite range_nil by lia.
  - rewrite range_snoc by lia. rewrite rev_app_distr.
    cbn [iter_down rev app fold_left]. rewrite IH.
    now replace (i - 1 - Z.of_nat k) with (i - Z.of_nat (S k)) by lia.
Qed.

Lemma for_down_fold {St} s e (body : Z -> St -> St) st :
  for_down s e body st = fold_left (fun st j => body j st) (rev (range s e)) st.
Proof.
  unfold for_down. rewrite iter_down_fold.
  destruct (Z_le_gt_dec e s).
  - now rewrite !range_nil by lia.
  - now replace (e - Z.of_nat (Z.to_nat (e - s))) with s by lia.
Qed.

(** ** Parallel loops whose iterations write disjoint cells *)

(** Iteration [i] owns the cells [dom i]: it leaves every other cell alone
    and, started on a block that still has the initial contents on
    [dom i], fills [dom i] with [target].  Whatever the order of the
    iterations, the loop then fills every owned cell with [target]. *)
Lemma parallel_for_footprint {T} (dom : Z -> Z -> Prop)
      (body : Z -> mem T -> mem T) (target st0 : mem T) sched :
  NoDup sched ->
  (forall i i' j, In i sched -> In i' sched -> dom i j -> dom i' j -> i = i') ->
  (forall i st, In i sched ->
     (forall j, dom i j -> st j = st0 j) ->
     forall j, (dom i j -> body i st j = target j) /\
               (~ dom i j -> body i st j = st j)) ->
  forall j,
    ((exists i, In i sched /\ dom i j) ->
       parallel_for sched body st0 j = target j) /\
    ((forall i, In i sched -> ~ dom i j) ->
       parallel_for sched body st0 j = st0 j).
Proof.
  intros Hnd Hdisj Hbody.
  enough (G : forall st, (forall i j, In i sched -> dom i j -> st j = st0 j) ->
            forall j,
              ((exists i, In i sched /\ dom i j) ->
                 parallel_for sched body st j = target j) /\
              ((forall i, In i sched -> ~ dom i j) ->
                 parallel_for sched body st j = st j)).
  { intros j. apply G. reflexivity. }
  unfold parallel_for.
  induction sched as [|i0 rest IH]; intros st Hst j.
  - split; [intros (i & [] & _) | reflexivity].
  - apply NoDup_cons_iff in Hnd. destruct Hnd as [Hi0 Hnd].
    assert (Hrest : forall i j0, In i rest -> dom i j0 -> body i0 st j0 = st0 j0).
    { intros i j0 Hi Hd.
      destruct (Hbody i0 st (or_introl eq_refl)
                  (fun j1 => Hst i0 j1 (or_introl eq_refl)) j0) as [_ Hframe].
      rewrite Hframe; [apply (Hst i); [now right | easy]|].
      intros Hd0. apply Hi0.
      now rewrite (Hdisj i0 i j0 (or_introl eq_refl) (or_intror Hi) Hd0 Hd). }
    specialize (IH Hnd
      (fun i i' j0 Hi Hi' => Hdisj i i' j0 (or_intror Hi) (or_intror Hi'))
      (fun i st' Hi => Hbody i st' (or_intror Hi))
      (body i0 st) Hrest j).
    destruct IH as [IH1 IH2].
    destruct (Hbody i0 st (or_introl eq_refl)
                (fun j1 => Hst i0 j1 (or_introl eq_refl)) j) as [Hown Hframe].
    cbn [fold_left]. split.
    + intros (i & [<- | Hi] & Hd).
      * rewrite IH2; [now apply Hown|].
        intros i Hi Hd'. apply Hi0.
        now rewrite (Hdisj i0 i j (or_introl eq_refl) (or_intror Hi) Hd Hd').
      * apply IH1. now exists i.
    + intros Hno. rewrite IH2 by (intros i Hi; apply Hno; now right).
      apply Hframe. apply Hno. now left.
Qed.

(** The table-filling loop [parallel_for (i < l) Sums[i] = v i]. *)
Lemma parallel_for_table {T} (v : Z -> T) (Sums0 : mem T) sched l :
  Permutation sched (range 0 l) ->
  forall i,
    parallel_for sched (fun i Sums => upd Sums i (v i)) Sums0 i =
    if (0 <=? i) && (i <? l) then v i else Sums0 i.
Proof.
  intros Hp i.
  assert (Hin : forall k, In k sched <-> 0 <= k < l).
  { intros k. rewrite <- in_range. split; apply Permutation_in; [easy|].
    now apply Permutation_sym. }
  assert (Hnd : NoDup sched).
  { apply (Permutation_NoDup (Permutation_sym Hp)), NoDup_range. }
  destruct (parallel_for_footprint (fun i j => j = i)
              (fun i Sums => upd Sums i (v i))
              (fun i => v i) Sums0 sched Hnd) with (j := i) as [H1 H2].
  - intros; congruence.
  - intros k st _ _ j. split.
    + intros ->. apply upd_same.
    + intros Hj. now apply upd_other.
  - destruct (Z.leb_spec 0 i), (Z.ltb_spec i l); cbn [andb].
    + apply H1. exists i. split; [apply Hin; lia | easy].
    + apply H2. intros k Hk ->. apply Hin in Hk. lia.
    + apply H2. intros k Hk ->. apply Hin in Hk. lia.
    + apply H2. intros k Hk ->. apply Hin in Hk. lia.
Qed.

(** ** Folding with an associative combiner *)

Section Associative.
Context {T : Type}.
Variable f : T -> T -> T.
Hypothesis f_assoc : forall a b c, f (f a b) c = f a (f b c).

Lemma fold_left_assoc l a b : fold_left f l (f a b) = f a (fold_left f l b).
Proof.
  revert b. induction l as [|x l IH]; intros b; cbn [fold_left].
  - reflexivity.
  - now rewrite f_assoc, IH.
Qed.

(** A fold can be cut anywhere: fold the tail from its own first element
    and combine. *)
Lemma fold_left_cut l1 x l2 a :
  fold_left f (l1 ++ x :: l2) a = f (fold_left f l1 a) (fold_left f l2 x).
Proof.
  rewrite fold_left_app. cbn [fold_left]. apply fold_left_assoc.
Qed.
End Associative.

(** ** Block geometry *)

Lemma nblocks_cover n bsize :
  1 <= n -> 0 < bsize ->
  (nblocks n bsize - 1) * bsize < n <= nblocks n bsize * bsize.
Proof.
  intros Hn Hb. rewrite nblocks_pos by lia.
  pose proof (Z.mul_div_le (n - 1) bsize Hb).
  pose proof (Z.mul_succ_div_gt (n - 1) bsize Hb).
  nia.
Qed.

(** Block [i] of [[s, e)] is not empty and ends where block [i + 1]
    starts; the last one ends at [e]. *)
Lemma block_bounds s e bsize i :
  s < e -> 0 < bsize -> 0 <= i < nblocks (e - s) bsize ->
  s + i * bsize < Z.min (s + i * bsize + bsize) e <= e /\
  (i < nblocks (e - s) bsize - 1 ->
     Z.min (s + i * bsize + bsize) e = s + (i + 1) * bsize) /\
  (i = nblocks (e - s) bsize - 1 -> Z.min (s + i * bsize + bsize) e = e).
Proof.
  intros Hn Hb Hi.
  pose proof (nblocks_cover (e - s) bsize ltac:(lia) Hb) as [Hlo Hhi].
  assert (i * bsize <= (nblocks (e - s) bsize - 1) * bsize) by nia.
  repeat split; intros; subst; try lia; nia.
Qed.

(** ** reduceSerial and reduce *)

Section ReduceCorrect.
Context {OT : Type}.
Variable f : OT -> OT -> OT.

Lemma reduceSerial_fold s e (g : Z -> OT) :
  sequence.reduceSerial s e f g = fold_left f (slice g (s + 1) e) (g s).
Proof.
  unfold sequence.reduceSerial, slice. rewrite for_up_fold.
  generalize (g s). induction (range (s + 1) e) as [|j js IH]; intros r.
  - reflexivity.
  - cbn [fold_left map]. apply IH.
Qed.

Lemma slice_ext (g g' : Z -> OT) s e :
  (forall i, s <= i < e -> g i = g' i) -> slice g s e = slice g' s e.
Proof.
  intros H. unfold slice. apply map_ext_in. intros i Hi. apply H.
  now apply in_range.
Qed.

Lemma slice_app (g : Z -> OT) s m e :
  s <= m <= e -> slice g s e = slice g s m ++ slice g m e.
Proof. intros H. unfold slice. now rewrite (range_app s m e), map_app. Qed.

Lemma slice_cons (g : Z -> OT) s e :
  s < e -> slice g s e = g s :: slice g (s + 1) e.
Proof. intros H. unfold slice. now rewrite range_cons. Qed.

Lemma slice_snoc (g : Z -> OT) s e :
  s < e -> slice g s e = slice g s (e - 1) ++ [g (e - 1)].
Proof. intros H. unfold slice. now rewrite range_snoc, map_app. Qed.

Lemma slice_nil (g : Z -> OT) s e : e <= s -> slice g s e = [].
Proof. intros H. unfold slice. now rewrite range_nil. Qed.

Hypothesis f_assoc : forall a b c, f (f a b) c = f a (f b c).

(** Two adjacent non-empty ranges reduce to the combination of their
    reductions. *)
Lemma reduceSerial_split (g : Z -> OT) s m e :
  s < m < e ->
  sequence.reduceSerial s e f g =
  f (sequence.reduceSerial s m f g) (sequence.reduceSerial m e f g).
Proof.
  intros H. rewrite !reduceSerial_fold.
  rewrite (slice_app g (s + 1) m e) by lia.
  rewrite (slice_cons g m e) by lia.
  now apply fold_left_cut.
Qed.

(** Folding the per-block reductions of the first [k] blocks gives the
    reduction of the range they cover. *)
Lemma reduce_blocks (g : Z -> OT) s e bsize (k : nat) :
  s < e -> 0 < bsize -> (1 <= k)%nat -> Z.of_nat k <= nblocks (e - s) bsize ->
  let R i := sequence.reduceSerial (s + i * bsize)
               (Z.min (s + i * bsize + bsize) e) f g in
  fold_left f (slice R 1 (Z.of_nat k)) (R 0) =
  sequence.reduceSerial s (Z.min (s + Z.of_nat k * bsize) e) f g.
Proof.
  intros Hn Hb Hk1 Hk R. induction k as [|k IH]; [lia|].
  destruct (Nat.eq_dec k 0) as [->|Hk0].
  - rewrite slice_nil by lia. cbn [fold_left]. unfold R.
    change (Z.of_nat 1) with 1.
    replace (s + 1 * bsize) with (s + bsize) by lia.
    now replace (s + 0 * bsize) with s by lia.
  - rewrite slice_snoc by lia. rewrite fold_left_app. cbn [fold_left].
    replace (Z.of_nat (S k) - 1) with (Z.of_nat k) by lia.
    rewrite IH by lia.
    destruct (block_bounds s e bsize (Z.of_nat k - 1) Hn Hb ltac:(lia))
      as (Hb1 & Hb2 & _).
    destruct (block_bounds s e bsize (Z.of_nat k) Hn Hb ltac:(lia))
      as (Hb3 & _ & _).
    specialize (Hb2 ltac:(lia)).
    replace (s + (Z.of_nat k - 1) * bsize + bsize)
      with (s + Z.of_nat k * bsize) in * by lia.
    replace (s + (Z.of_nat k - 1 + 1) * bsize)
      with (s + Z.of_nat k * bsize) in * by lia.
    unfold R.
    replace (s + Z.of_nat (S k) * bsize)
      with (s + Z.of_nat k * bsize + bsize) by lia.
    rewrite Hb2 in *.
    symmetry. apply reduceSerial_split. lia.
Qed.

Variable schedule : Z -> list Z.
Hypothesis schedule_perm : forall l, Permutation (schedule l) (range 0 l).
Variable uninit : mem OT.

(** The table of block reductions that the first phase of reduce and of
    scan builds. *)
Lemma block_sums_table (g : Z -> OT) s e bsize (Sums0 : mem OT) i :
  0 <= i < nblocks (e - s) bsize ->
  blocked_for schedule s e bsize
    (fun i s e Sums => upd Sums i (sequence.reduceSerial s e f g)) Sums0 i =
  sequence.reduceSerial (s + i * bsize) (Z.min (s + i * bsize + bsize) e) f g.
Proof.
  intros Hi. unfold blocked_for.
  rewrite (parallel_for_table
             (fun i => sequence.reduceSerial (s + i * bsize)
                         (Z.min (s + i * bsize + bsize) e) f g)
             Sums0 _ _ (schedule_perm _)).
  destruct (Z.leb_spec 0 i), (Z.ltb_spec i (nblocks (e - s) bsize));
    cbn [andb]; (reflexivity || lia).
Qed.

Lemma reduce_reduceSerial s e (g : Z -> OT) :
  s < e ->
  sequence.reduce schedule uninit s e f g = sequence.reduceSerial s e f g.
Proof.
  remember (Z.to_nat (e - s)) as n eqn:Hn. revert s e g Hn.
  induction n as [n IH] using lt_wf_ind. intros s e g Hn Hse.
  rewrite sequence.reduce_equation_1.
  destruct (Z_le_gt_dec (nblocks (e - s) _SCAN_BSIZE) 1) as [Hl|Hl];
    cbn [sequence.reduce_unfold_clause_1]; [reflexivity|].
  pose proof (nblocks_decreases (e - s) _SCAN_BSIZE _SCAN_BSIZE_ge2 Hl) as Hd.
  set (l := nblocks (e - s) _SCAN_BSIZE) in *.
  rewrite (IH (Z.to_nat (l - 0))) by lia.
  rewrite reduceSerial_fold. unfold sequence.getA.
  set (R i := sequence.reduceSerial (s + i * _SCAN_BSIZE)
                (Z.min (s + i * _SCAN_BSIZE + _SCAN_BSIZE) e) f g).
  rewrite (slice_ext _ R) by (intros i Hi; apply block_sums_table; lia).
  rewrite block_sums_table by lia.
  pose proof (reduce_blocks g s e _SCAN_BSIZE (Z.to_nat l) Hse
                ltac:(pose proof _SCAN_BSIZE_ge2; lia) ltac:(lia)
                ltac:(lia)) as Hblocks.
  cbv zeta in Hblocks. replace (Z.of_nat (Z.to_nat l)) with l in Hblocks by lia.
  replace (0 + 1) with 1 by lia. fold (R 0). unfold R at 1 2.
  rewrite Hblocks.
  destruct (block_bounds s e _SCAN_BSIZE (l - 1) Hse
              ltac:(pose proof _SCAN_BSIZE_ge2; lia) ltac:(lia))
    as (_ & _ & Hlast).
  specialize (Hlast eq_refl).
  replace (s + (l - 1) * _SCAN_BSIZE + _SCAN_BSIZE)
    with (s + l * _SCAN_BSIZE) in Hlast by lia.
  now rewrite Hlast.
Qed.
End ReduceCorrect.

(** C2: for every non-empty array [A] of length [n] and every associative
    combiner [f], [reduce(A, n, f)] returns the sequential left-to-right
    fold of [A] under [f] seeded by [A[0]], which is what [reduceSerial]
    returns over the same range, whatever the number of blocks, the depth
    of the recursion and the order in which the blocks are reduced. *)
Theorem reduce_sequential_fold {OT} (schedule : Z -> list Z) (uninit : mem OT)
        (f : OT -> OT -> OT) (A : mem OT) (n : Z) :
  (forall l, Permutation (schedule l) (range 0 l)) ->
  (forall a b c, f (f a b) c = f a (f b c)) ->
  1 <= n ->
  sequence.reduce_array schedule uninit A n f = fold_left f (slice A 1 n) (A 0) /\
  sequence.reduce_array schedule uninit A n f =
    sequence.reduceSerial 0 n f (sequence.getA A).
Proof.
  intros Hsched Hassoc Hn. unfold sequence.reduce_array.
  rewrite (reduce_reduceSerial f Hassoc schedule Hsched uninit) by lia.
  split; [|reflexivity].
  now rewrite reduceSerial_fold.
Qed.

Lemma reduce_sequential_fold_witness :
  (forall l, Permutation (in_order l) (range 0 l)) /\
  (forall a b c, Z.add (Z.add a b) c = Z.add a (Z.add b c)) /\
  1 <= 8 /\
  sequence.reduce_array in_order (fun _ => 0)
    (array_of 0 [3; 1; 4; 1; 5; 9; 2; 6]) 8 Z.add = 31.
Proof.
  assert (Hs : forall l, Permutation (in_order l) (range 0 l))
    by (intros l; apply Permutation_refl).
  assert (Ha : forall a b c, Z.add (Z.add a b) c = Z.add a (Z.add b c))
    by (intros; lia).
  assert (Hn : 1 <= 8) by lia.
  split; [exact Hs | split; [exact Ha | split; [exact Hn |]]].
  destruct (reduce_sequential_fold in_order (fun _ => 0) Z.add
              (array_of 0 [3; 1; 4; 1; 5; 9; 2; 6]) 8 Hs Ha Hn) as [H _].
  rewrite H. reflexivity.
Defined.

(** ** scanSerial *)

Lemma for_up_snoc {St} s m (body : Z -> St -> St) st :
  s <= m -> for_up s (m + 1) body st = body m (for_up s m body st).
Proof.
  intros H. rewrite !for_up_fold, (range_snoc s (m + 1)) by lia.
  rewrite fold_left_app. cbn [fold_left].
  now replace (m + 1 - 1) with m by lia.
Qed.

Lemma for_up_none {St} s e (body : Z -> St -> St) st :
  e <= s -> for_up s e body st = st.
Proof. intros H. rewrite for_up_fold, range_nil by lia. reflexivity. Qed.

Lemma for_down_last {St} s e (body : Z -> St -> St) st :
  s < e -> for_down s e body st = body s (for_down (s + 1) e body st).
Proof.
  intros H. rewrite !for_down_fold, (range_cons s e) by lia.
  cbn [rev]. rewrite fold_left_app. reflexivity.
Qed.

Lemma for_down_none {St} s e (body : Z -> St -> St) st :
  e <= s -> for_down s e body st = st.
Proof. intros H. rewrite for_down_fold, range_nil by lia. reflexivity. Qed.

Section ScanSerial.
Context {ET : Type}.
Variable f : ET -> ET -> ET.

Lemma getA_at_same_local :
  local_accessor (ET := ET) (sequence.getA_at (sequence.SameBlock 0)).
Proof. intros Out Out' i H. cbn. exact H. Qed.

Lemma getA_at_other_local (In : mem ET) :
  local_accessor (sequence.getA_at (sequence.OtherBlock In)).
Proof. intros Out Out' i H. reflexivity. Qed.

(** The two forward loops of [scanSerial] differ in what they store. *)
Lemma scanSerial_forward_loop Out s e g zero inclusive :
  sequence.scanSerial Out s e f g zero inclusive false =
  for_up s e
    (fun i '(Out, r) =>
       (upd Out i (if inclusive then f r (g Out i) else r), f r (g Out i)))
    (Out, zero).
Proof. unfold sequence.scanSerial. now destruct inclusive. Qed.

Lemma scanSerial_backward_loop Out s e g zero inclusive :
  sequence.scanSerial Out s e f g zero inclusive true =
  for_down s e
    (fun i '(Out, r) =>
       (upd Out i (if inclusive then f r (g Out i) else r), f r (g Out i)))
    (Out, zero).
Proof. unfold sequence.scanSerial. now destruct inclusive. Qed.

(** Forward serial scan seeded by [zero]: cell [i] receives the fold of
    the seed with the elements before [i] (through [i] when inclusive), the
    cells outside [[s, e)] are not written, and the fold of the whole range
    is returned.  The elements are those that the accessor yields on the
    initial contents of the destination. *)
Lemma scanSerial_forward Out s e g zero inclusive :
  local_accessor g ->
  let res := sequence.scanSerial Out s e f g zero inclusive false in
  snd res = fold_left f (slice (g Out) s e) zero /\
  forall i,
    (s <= i < e ->
       fst res i =
       fold_left f (slice (g Out) s (if inclusive then i + 1 else i)) zero) /\
    (~ s <= i < e -> fst res i = Out i).
Proof.
  intros Hg. cbv zeta. rewrite scanSerial_forward_loop.
  destruct (Z_le_gt_dec e s) as [Hes|Hes].
  { rewrite for_up_none, slice_nil by lia. cbn [fst snd].
    split; [reflexivity|]. intros i. split; [lia | reflexivity]. }
  remember (Z.to_nat (e - s)) as k eqn:Hk.
  replace e with (s + Z.of_nat k) by lia.
  clear Hk Hes e. induction k as [|k IH].
  - rewrite for_up_none, slice_nil by lia. cbn [fst snd].
    split; [reflexivity|]. intros i. split; [lia | reflexivity].
  - replace (s + Z.of_nat (S k)) with (s + Z.of_nat k + 1) by lia.
    rewrite for_up_snoc by lia.
    set (m := s + Z.of_nat k) in *.
    destruct (for_up s m _ (Out, zero)) as [Outm r].
    cbn [fst snd] in *. destruct IH as [IHr IHo].
    assert (Hgm : g Outm m = g Out m).
    { apply Hg. apply IHo. lia. }
    assert (Hr : f r (g Outm m) = fold_left f (slice (g Out) s (m + 1)) zero).
    { rewrite Hgm, (slice_snoc (g Out) s (m + 1)) by lia.
      rewrite fold_left_app. cbn [fold_left].
      replace (m + 1 - 1) with m by lia. now rewrite IHr. }
    split; [exact Hr|].
    intros i. split.
    + intros Hi. destruct (Z.eq_dec i m) as [->|Hne].
      * rewrite upd_same. destruct inclusive; [exact Hr | exact IHr].
      * rewrite upd_other by easy. apply IHo. lia.
    + intros Hi. rewrite upd_other by lia. apply IHo. lia.
Qed.

(** Backward serial scan: the same with the index direction flipped. *)
Lemma scanSerial_backward Out s e g zero inclusive :
  local_accessor g ->
  let res := sequence.scanSerial Out s e f g zero inclusive true in
  snd res = fold_left f (rev (slice (g Out) s e)) zero /\
  forall i,
    (s <= i < e ->
       fst res i =
       fold_left f (rev (slice (g Out) (if inclusive then i else i + 1) e)) zero) /\
    (~ s <= i < e -> fst res i = Out i).
Proof.
  intros Hg. cbv zeta. rewrite scanSerial_backward_loop.
  destruct (Z_le_gt_dec e s) as [Hes|Hes].
  { rewrite for_down_none, slice_nil by lia. cbn [fst snd].
    split; [reflexivity|]. intros i. split; [lia | reflexivity]. }
  remember (Z.to_nat (e - s)) as k eqn:Hk.
  replace s with (e - Z.of_nat k) by lia.
  clear Hk Hes s. induction k as [|k IH].
  - rewrite for_down_none, slice_nil by lia. cbn [fst snd rev].
    split; [reflexivity|]. intros i. split; [lia | reflexivity].
  - rewrite for_down_last by lia.
    replace (e - Z.of_nat (S k) + 1) with (e - Z.of_nat k) by lia.
    set (m := e - Z.of_nat (S k)).
    replace (e - Z.of_nat k) with (m + 1) in * by lia.
    destruct (for_down (m + 1) e _ (Out, zero)) as [Outm r].
    cbn [fst snd] in *. destruct IH as [IHr IHo].
    assert (Hgm : g Outm m = g Out m).
    { apply Hg. apply IHo. lia. }
    assert (Hr : f r (g Outm m) = fold_left f (rev (slice (g Out) m e)) zero).
    { rewrite Hgm, (slice_cons (g Out) m e) by lia.
      cbn [rev]. rewrite fold_left_app. cbn [fold_left]. now rewrite IHr. }
    split; [exact Hr|].
    intros i. split.
    + intros Hi. destruct (Z.eq_dec i m) as [->|Hne].
      * rewrite upd_same. destruct inclusive; [exact Hr | exact IHr].
      * rewrite upd_other by easy. apply IHo. lia.
    + intros Hi. rewrite upd_other by lia. apply IHo. lia.
Qed.
End ScanSerial.

(** ** The blocks partition the range *)

Lemma block_unique bsize i i' x :
  0 < bsize ->
  i * bsize <= x < i * bsize + bsize ->
  i' * bsize <= x < i' * bsize + bsize ->
  i = i'.
Proof. intros Hb H H'. nia. Qed.

Lemma block_of s e bsize j :
  0 < bsize -> s <= j < e ->
  let i := (j - s) / bsize in
  0 <= i < nblocks (e - s) bsize /\
  s + i * bsize <= j < Z.min (s + i * bsize + bsize) e.
Proof.
  intros Hb Hj i.
  pose proof (Z.mul_div_le (j - s) bsize Hb).
  pose proof (Z.mul_succ_div_gt (j - s) bsize Hb).
  assert (0 <= i) by (apply Z.div_pos; lia).
  assert (i <= (e - s - 1) / bsize) by (apply Z.div_le_mono; lia).
  rewrite nblocks_pos by lia. subst i. split; [lia|nia].
Qed.

Lemma in_schedule (schedule : Z -> list Z) l i :
  Permutation (schedule l) (range 0 l) -> In i (schedule l) <-> 0 <= i < l.
Proof.
  intros Hp. rewrite <- in_range. split; apply Permutation_in; [easy|].
  now apply Permutation_sym.
Qed.

Lemma NoDup_schedule (schedule : Z -> list Z) l :
  Permutation (schedule l) (range 0 l) -> NoDup (schedule l).
Proof.
  intros Hp. apply (Permutation_NoDup (Permutation_sym Hp)), NoDup_range.
Qed.

(** A parallel loop over the blocks of [[s, e)] in which block [i] fills
    its own cells [[s_i, e_i)] with [target] and leaves the others alone
    fills [[s, e)] with [target], in whatever order the blocks run. *)
Lemma blocked_for_fill {T} (schedule : Z -> list Z) s e bsize
      (body : Z -> Z -> Z -> mem T -> mem T) (target Out : mem T) :
  (forall l, Permutation (schedule l) (range 0 l)) ->
  0 < bsize ->
  (forall i st, 0 <= i < nblocks (e - s) bsize ->
     let bs := s + i * bsize in
     let be := Z.min (bs + bsize) e in
     (forall j, bs <= j < be -> st j = Out j) ->
     forall j, (bs <= j < be -> body i bs be st j = target j) /\
               (~ bs <= j < be -> body i bs be st j = st j)) ->
  forall j,
    (s <= j < e -> blocked_for schedule s e bsize body Out j = target j) /\
    (~ s <= j < e -> blocked_for schedule s e bsize body Out j = Out j).
Proof.
  intros Hsched Hb Hbody j. unfold blocked_for.
  set (l := nblocks (e - s) bsize).
  destruct (parallel_for_footprint
              (fun i j => s + i * bsize <= j < Z.min (s + i * bsize + bsize) e)
              (fun i st => body i (s + i * bsize)
                             (Z.min (s + i * bsize + bsize) e) st)
              target Out (schedule l) (NoDup_schedule schedule l (Hsched l)))
    with (j := j) as [Hin Hout].
  - intros i i' x _ _ Hi Hi'.
    apply (block_unique bsize i i' (x - s) Hb); lia.
  - intros i st Hi Hst. apply (Hbody i st); [|exact Hst].
    now apply (in_schedule schedule l i (Hsched l)).
  - split.
    + intros Hj. apply Hin. exists ((j - s) / bsize).
      destruct (block_of s e bsize j Hb Hj) as [Hi Hd].
      split; [|exact Hd]. now apply (in_schedule schedule l _ (Hsched l)).
    + intros Hj. apply Hout. intros i Hi Hd.
      apply (in_schedule schedule l i (Hsched l)) in Hi. nia.
Qed.

(** ** Forward scan *)

Section ScanForward.
Context {ET : Type}.
Variable f : ET -> ET -> ET.
Hypothesis f_assoc : forall a b c, f (f a b) c = f a (f b c).
Variable schedule : Z -> list Z.
Hypothesis schedule_perm : forall l, Permutation (schedule l) (range 0 l).
Variable uninit : mem ET.

(** Folding the seed with the reductions of the first [k] blocks is
    folding it with the elements of these blocks. *)
Lemma fold_block_sums (g : Z -> ET) s e bsize zero (k : nat) :
  s < e -> 0 < bsize -> Z.of_nat k <= nblocks (e - s) bsize ->
  let R i := sequence.reduceSerial (s + i * bsize)
               (Z.min (s + i * bsize + bsize) e) f g in
  fold_left f (slice R 0 (Z.of_nat k)) zero =
  fold_left f (slice g s (Z.min (s + Z.of_nat k * bsize) e)) zero.
Proof.
  intros Hn Hb Hk R. induction k as [|k IH].
  - rewrite !slice_nil by lia. reflexivity.
  - rewrite (slice_snoc R 0 (Z.of_nat (S k))) by lia.
    rewrite fold_left_app. cbn [fold_left].
    replace (Z.of_nat (S k) - 1) with (Z.of_nat k) by lia.
    rewrite IH by lia.
    destruct (block_bounds s e bsize (Z.of_nat k) Hn Hb ltac:(lia))
      as (Hb1 & _ & _).
    replace (s + Z.of_nat (S k) * bsize)
      with (s + Z.of_nat k * bsize + bsize) by lia.
    set (bs := s + Z.of_nat k * bsize) in *.
    set (be := Z.min (bs + bsize) e) in *.
    replace (Z.min bs e) with bs by lia.
    unfold R. fold bs. fold be. rewrite reduceSerial_fold.
    rewrite (slice_app g s bs be) by nia.
    rewrite (slice_cons g bs be) by lia.
    symmetry. now apply fold_left_cut.
Qed.

Lemma scan_forward Out s e g zero inclusive :
  local_accessor g ->
  let res := sequence.scan schedule uninit Out s e f g zero inclusive false in
  snd res = fold_left f (slice (g Out) s e) zero /\
  forall i,
    (s <= i < e ->
       fst res i =
       fold_left f (slice (g Out) s (if inclusive then i + 1 else i)) zero) /\
    (~ s <= i < e -> fst res i = Out i).
Proof.
  remember (Z.to_nat (e - s)) as n eqn:Hn.
  revert Out s e g zero inclusive Hn.
  induction n as [n IH] using lt_wf_ind.
  intros Out s e g zero inclusive Hn Hg. cbv zeta.
  rewrite sequence.scan_equation_1.
  destruct (Z_le_gt_dec (nblocks (e - s) _SCAN_BSIZE) 2) as [Hl|Hl];
    cbn [sequence.scan_unfold_clause_1];
    [now apply scanSerial_forward|].
  pose proof _SCAN_BSIZE_ge2 as HB.
  pose proof (nblocks_decreases (e - s) _SCAN_BSIZE HB ltac:(lia)) as Hd.
  set (l := nblocks (e - s) _SCAN_BSIZE) in *.
  assert (Hse : s < e) by lia.
  set (R i := sequence.reduceSerial (s + i * _SCAN_BSIZE)
                (Z.min (s + i * _SCAN_BSIZE + _SCAN_BSIZE) e) f (g Out)).
  set (Sums1 := blocked_for schedule s e _SCAN_BSIZE _ (sequence.newA uninit l)).
  assert (HSums1 : forall i, 0 <= i < l -> Sums1 i = R i).
  { intros i Hi. unfold Sums1. now rewrite block_sums_table. }
  destruct (IH (Z.to_nat (l - 0)) ltac:(lia) Sums1 0 l
              (sequence.getA_at (sequence.SameBlock 0)) zero false eq_refl
              getA_at_same_local) as [Htotal HSums2].
  set (res := sequence.scan schedule uninit Sums1 0 l f _ zero false false) in *.
  assert (Hprefix : forall i, 0 <= i <= l ->
            fold_left f (slice (sequence.getA_at (sequence.SameBlock 0) Sums1) 0 i) zero =
            fold_left f (slice (g Out) s (Z.min (s + i * _SCAN_BSIZE) e)) zero).
  { intros i Hi.
    rewrite (slice_ext _ R) by (intros k Hk; cbn; apply HSums1; lia).
    pose proof (fold_block_sums (g Out) s e _SCAN_BSIZE zero (Z.to_nat i)
                  Hse ltac:(lia) ltac:(fold l; lia)) as Hf.
    cbv zeta in Hf. now replace (Z.of_nat (Z.to_nat i)) with i in Hf by lia. }
  cbn [fst snd]. split.
  - rewrite Htotal, Hprefix by lia.
    destruct (block_bounds s e _SCAN_BSIZE (l - 1) Hse ltac:(lia) ltac:(lia))
      as (_ & _ & Hlast).
    specialize (Hlast eq_refl).
    replace (s + (l - 1) * _SCAN_BSIZE + _SCAN_BSIZE)
      with (s + l * _SCAN_BSIZE) in Hlast by lia.
    now rewrite Hlast.
  - apply (blocked_for_fill schedule s e _SCAN_BSIZE
             (fun i s e Out =>
                fst (sequence.scanSerial Out s e f g (fst res i) inclusive false))
             (fun i => fold_left f
                         (slice (g Out) s (if inclusive then i + 1 else i)) zero)
             Out schedule_perm ltac:(lia)).
    intros i st Hi bs be Hst j. fold l in Hi.
    destruct (block_bounds s e _SCAN_BSIZE i Hse ltac:(lia) Hi) as (Hb1 & _ & _).
    fold bs in Hb1. fold be in Hb1.
    destruct (scanSerial_forward f st bs be g (fst res i) inclusive Hg)
      as [_ Hser].
    destruct (Hser j) as [Hin Hout]. split; [|exact Hout].
    intros Hj. rewrite (Hin Hj).
    destruct (HSums2 i) as [HS _]. rewrite (HS ltac:(lia)), Hprefix by lia.
    replace (Z.min (s + i * _SCAN_BSIZE) e) with bs by (subst bs; lia).
    rewrite <- fold_left_app. f_equal.
    assert (Hbs : s <= bs) by (subst bs; nia).
    set (x := if inclusive then j + 1 else j).
    assert (Hx : bs <= x <= be) by (subst x; destruct inclusive; lia).
    rewrite (slice_app (g Out) s bs x) by lia.
    f_equal. apply slice_ext. intros k Hk. apply Hg, Hst. lia.
Qed.
End ScanForward.

(** ** Counting flags *)

Lemma count_true_nil Fl s e : e <= s -> count_true Fl s e = 0.
Proof. intros H. unfold count_true. now rewrite range_nil. Qed.

Lemma count_true_app Fl s m e :
  s <= m <= e -> count_true Fl s e = count_true Fl s m + count_true Fl m e.
Proof.
  intros H. unfold count_true.
  rewrite (range_app s m e H), filter_app, length_app. lia.
Qed.

Lemma count_true_one Fl i : count_true Fl i (i + 1) = Z.b2z (Fl i).
Proof.
  unfold count_true. rewrite range_cons, range_nil by lia.
  cbn [filter]. now destruct (Fl i).
Qed.

Lemma count_true_snoc Fl s m :
  s <= m -> count_true Fl s (m + 1) = count_true Fl s m + Z.b2z (Fl m).
Proof.
  intros H. now rewrite (count_true_app Fl s m (m + 1)), count_true_one by lia.
Qed.

Lemma count_true_bounds Fl s e : s <= e -> 0 <= count_true Fl s e <= e - s.
Proof.
  intros H. unfold count_true.
  pose proof (filter_length_le Fl (range s e)) as Hle.
  rewrite length_range in Hle. lia.
Qed.

Lemma count_true_shift Fl k s e :
  count_true (fun j => Fl (k + j)) s e = count_true Fl (k + s) (k + e).
Proof.
  unfold count_true, range.
  replace (k + e - (k + s)) with (e - s) by lia.
  generalize (seq 0 (Z.to_nat (e - s))). intros l. f_equal.
  induction l as [|a l IH]; [reflexivity|].
  cbn [map filter]. replace (k + s + Z.of_nat a) with (k + (s + Z.of_nat a)) by lia.
  destruct (Fl _); [cbn [length]|]; now rewrite IH.
Qed.

Lemma count_true_four Fl s m :
  s <= m ->
  count_true Fl s (m + 4) =
  count_true Fl s m + Z.b2z (Fl m) + Z.b2z (Fl (m + 1))
  + Z.b2z (Fl (m + 2)) + Z.b2z (Fl (m + 3)).
Proof.
  intros H.
  rewrite (count_true_app Fl s (m + 3) (m + 4)) by lia.
  rewrite (count_true_app Fl s (m + 2) (m + 3)) by lia.
  rewrite (count_true_app Fl s (m + 1) (m + 2)) by lia.
  rewrite (count_true_app Fl s m (m + 1)) by lia.
  rewrite (count_true_one Fl m).
  replace (m + 2) with (m + 1 + 1) at 1 by lia.
  rewrite (count_true_one Fl (m + 1)).
  replace (m + 3) with (m + 2 + 1) at 1 by lia.
  rewrite (count_true_one Fl (m + 2)).
  replace (m + 4) with (m + 3 + 1) by lia.
  now rewrite (count_true_one Fl (m + 3)).
Qed.

(** The plain per-element loop. *)
Lemma plain_count Fl n :
  for_up 0 n (fun j r => r + Z.b2z (Fl j)) 0 = count_true Fl 0 n.
Proof.
  destruct (Z_le_gt_dec n 0) as [Hn|Hn].
  { now rewrite for_up_none, count_true_nil by lia. }
  remember (Z.to_nat n) as k eqn:Hk.
  replace n with (0 + Z.of_nat k) by lia. clear Hk Hn n.
  induction k as [|k IH].
  - now rewrite for_up_none, count_true_nil by lia.
  - replace (0 + Z.of_nat (S k)) with (0 + Z.of_nat k + 1) by lia.
    rewrite for_up_snoc, count_true_snoc by lia. now rewrite IH.
Qed.

(** [int] addition wraps, and wrapping commutes with it. *)
Lemma wrap_int_add x y :
  sequence.wrap_int (sequence.wrap_int x + sequence.wrap_int y) =
  sequence.wrap_int (x + y).
Proof.
  unfold sequence.wrap_int.
  change (2 ^ 31) with 2147483648. change (2 ^ 32) with 4294967296.
  Z.div_mod_to_equations. lia.
Qed.

(** The four byte lanes of a wrapped sum of packed flags hold the four
    counts, as long as no lane exceeds 255. *)
Lemma byte_lanes c0 c1 c2 c3 :
  0 <= c0 <= 255 -> 0 <= c1 <= 255 -> 0 <= c2 <= 255 -> 0 <= c3 <= 255 ->
  let rr := sequence.wrap_int
              (c0 + Z.shiftl c1 8 + Z.shiftl c2 16 + Z.shiftl c3 24) in
  Z.land rr 255 = c0 /\ Z.land (Z.shiftr rr 8) 255 = c1 /\
  Z.land (Z.shiftr rr 16) 255 = c2 /\ Z.land (Z.shiftr rr 24) 255 = c3.
Proof.
  intros H0 H1 H2 H3 rr. subst rr.
  change 255 with (Z.ones 8). rewrite !Z.land_ones by lia.
  rewrite !Z.shiftr_div_pow2, !Z.shiftl_mul_pow2 by lia.
  unfold sequence.wrap_int.
  change (2 ^ 8) with 256. change (2 ^ 16) with 65536.
  change (2 ^ 24) with 16777216.
  change (2 ^ 31) with 2147483648. change (2 ^ 32) with 4294967296.
  repeat split; Z.div_mod_to_equations; lia.
Qed.

(** One batch of the optimised path: the wrapped sum of [j] packed words
    starting at word [b] carries, in its four byte lanes, four counts that
    add up to the number of true flags among the [4 * j] flags read. *)
Lemma batch_sum (Fl : mem bool) b (j : nat) :
  exists c0 c1 c2 c3,
    (0 <= c0 <= Z.of_nat j /\ 0 <= c1 <= Z.of_nat j /\
     0 <= c2 <= Z.of_nat j /\ 0 <= c3 <= Z.of_nat j) /\
    for_up 0 (Z.of_nat j)
      (fun j rr => sequence.wrap_int (rr + sequence.read_int Fl (b + j))) 0 =
    sequence.wrap_int (c0 + Z.shiftl c1 8 + Z.shiftl c2 16 + Z.shiftl c3 24) /\
    c0 + c1 + c2 + c3 = count_true Fl (4 * b) (4 * (b + Z.of_nat j)).
Proof.
  induction j as [|j (c0 & c1 & c2 & c3 & Hc & Hrr & Hsum)].
  - exists 0, 0, 0, 0. rewrite for_up_none, count_true_nil by lia.
    repeat split; (lia || reflexivity).
  - set (w := b + Z.of_nat j) in *.
    exists (c0 + Z.b2z (Fl (4 * w))), (c1 + Z.b2z (Fl (4 * w + 1))),
           (c2 + Z.b2z (Fl (4 * w + 2))), (c3 + Z.b2z (Fl (4 * w + 3))).
    split; [|split].
    + destruct (Fl (4 * w)), (Fl (4 * w + 1)), (Fl (4 * w + 2)),
        (Fl (4 * w + 3)); cbn [Z.b2z]; lia.
    + replace (Z.of_nat (S j)) with (Z.of_nat j + 1) by lia.
      rewrite for_up_snoc by lia. rewrite Hrr.
      replace (b + Z.of_nat j) with w by reflexivity.
      unfold sequence.read_int. rewrite wrap_int_add. f_equal.
      rewrite !Z.shiftl_mul_pow2 by lia. lia.
    + replace (4 * (b + Z.of_nat (S j))) with (4 * w + 4) by lia.
      rewrite count_true_four by lia. lia.
Qed.

(** The optimised path: after [k] batches of 512 flags. *)
Lemma batched_count (Fl : mem bool) (k : nat) :
  for_up 0 (Z.of_nat k)
    (fun _ '(r, IFl) =>
       let rr :=
         for_up 0 128
           (fun j rr => sequence.wrap_int (rr + sequence.read_int Fl (IFl + j)))
           0 in
       (r + (Z.land rr 255 + Z.land (Z.shiftr rr 8) 255
             + Z.land (Z.shiftr rr 16) 255 + Z.land (Z.shiftr rr 24) 255),
        IFl + 128)) (0, 0) =
  (count_true Fl 0 (512 * Z.of_nat k), 128 * Z.of_nat k).
Proof.
  induction k as [|k IH].
  - now rewrite for_up_none, count_true_nil by lia.
  - replace (Z.of_nat (S k)) with (Z.of_nat k + 1) by lia.
    rewrite for_up_snoc by lia. rewrite IH.
    destruct (batch_sum Fl (128 * Z.of_nat k) 128)
      as (c0 & c1 & c2 & c3 & Hc & Hrr & Hsum).
    change (Z.of_nat 128) with 128 in *.
    cbv zeta. rewrite Hrr.
    destruct (byte_lanes c0 c1 c2 c3) as (-> & -> & -> & ->); try lia.
    rewrite Hsum. f_equal; [|lia].
    rewrite (count_true_app Fl 0 (512 * Z.of_nat k) (512 * (Z.of_nat k + 1)))
      by lia.
    do 2 f_equal; lia.
Qed.

(** What a call of [sumFlagsSerial] returns and prints, on either path. *)
Lemma sumFlagsSerial_eq (Fl : sequence.boolptr) (n : Z) (cout : sequence.ostream) :
  sequence.sumFlagsSerial Fl n cout =
  (count_true (sequence.flag Fl) 0 n,
   cout ++ [sequence.sumFlagsSerial_line (sequence.address Fl) n]).
Proof.
  unfold sequence.sumFlagsSerial.
  destruct ((128 <=? n) && (Z.land n 511 =? 0)
            && (Z.land (sequence.address Fl) 3 =? 0)) eqn:Hc;
    [|now rewrite plain_count].
  apply andb_prop in Hc. destruct Hc as [Hc _].
  apply andb_prop in Hc. destruct Hc as [Hn Hm].
  apply Z.leb_le in Hn. apply Z.eqb_eq in Hm.
  change 511 with (Z.ones 9) in Hm. rewrite Z.land_ones in Hm by lia.
  rewrite Z.shiftr_div_pow2 by lia.
  change (2 ^ 9) with 512 in *.
  pose proof (Z.div_mod n 512 ltac:(lia)) as Hdiv.
  assert (Hq : 0 <= n / 512) by (apply Z.div_pos; lia).
  replace (n / 512) with (Z.of_nat (Z.to_nat (n / 512))) by lia.
  pose proof (batched_count (sequence.flag Fl) (Z.to_nat (n / 512))) as Hb.
  cbv zeta in Hb |- *. rewrite Hb.
  do 2 f_equal. lia.
Qed.

(** C7: for every boolean array [Fl] and every length [n],
    [sumFlagsSerial(Fl, n)] returns the number of true entries of
    [Fl[0..n)]: the batched path, taken when [n >= 128], [n] is a multiple
    of 512 and the address of [Fl] is 4-byte aligned, and which sums the
    flags four at a time as packed [int]s and adds up the byte lanes,
    computes the same count as the plain per-element loop. *)
Theorem sumFlagsSerial_counts (Fl : sequence.boolptr) (n : Z)
        (cout : sequence.ostream) :
  fst (sequence.sumFlagsSerial Fl n cout) = count_true (sequence.flag Fl) 0 n /\
  fst (sequence.sumFlagsSerial Fl n cout) =
    for_up 0 n (fun j r => r + Z.b2z (sequence.flag Fl j)) 0.
Proof.
  rewrite plain_count, sumFlagsSerial_eq. split; reflexivity.
Qed.

Example sumFlagsSerial_batched_all_true :
  fst (sequence.sumFlagsSerial
         {| sequence.address := 4096; sequence.flag := fun _ => true |}
         1024 []) = 1024.
Proof. vm_compute. reflexivity. Qed.

(** C1: for every array [A] of length [n >= 1], associative combiner [f]
    and zero [z], the exclusive forward scan writes into [Out[i]] the
    left-to-right fold of [z] with [A[0..i)], the inclusive forward scan
    writes the fold of [z] with [A[0..i]], and both return the fold of [z]
    with the whole of [A[0..n)], whatever the number of blocks and the
    order in which the blocks run. *)
Theorem scan_prefix_folds {ET} (schedule : Z -> list Z) (uninit : mem ET)
        (f : ET -> ET -> ET) (A Out : mem ET) (n : Z) (z : ET) :
  (forall l, Permutation (schedule l) (range 0 l)) ->
  (forall a b c, f (f a b) c = f a (f b c)) ->
  1 <= n ->
  let ex := sequence.scan_array schedule uninit (sequence.OtherBlock A) Out n f z in
  let inc := sequence.scanI schedule uninit (sequence.OtherBlock A) Out n f z in
  (forall i, 0 <= i < n -> fst ex i = fold_left f (slice A 0 i) z) /\
  (forall i, 0 <= i < n -> fst inc i = fold_left f (slice A 0 (i + 1)) z) /\
  snd ex = fold_left f (slice A 0 n) z /\
  snd inc = fold_left f (slice A 0 n) z.
Proof.
  intros Hsched Hassoc Hn ex inc.
  destruct (scan_forward f Hassoc schedule Hsched uninit Out 0 n
              (sequence.getA_at (sequence.OtherBlock A)) z false
              (getA_at_other_local A)) as [Hex_total Hex].
  destruct (scan_forward f Hassoc schedule Hsched uninit Out 0 n
              (sequence.getA_at (sequence.OtherBlock A)) z true
              (getA_at_other_local A)) as [Hinc_total Hinc].
  repeat split.
  - intros i Hi. now apply Hex.
  - intros i Hi. now apply Hinc.
  - exact Hex_total.
  - exact Hinc_total.
Qed.

Lemma scan_prefix_folds_witness :
  (forall l, Permutation (in_order l) (range 0 l)) /\
  (forall a b c, Z.add (Z.add a b) c = Z.add a (Z.add b c)) /\
  1 <= 4 /\
  let ex := sequence.scan_array in_order (fun _ => 0)
              (sequence.OtherBlock (array_of 0 [1; 1; 1; 1])) (fun _ => 7)
              4 Z.add 0 in
  fst ex 3 = 3 /\ snd ex = 4.
Proof.
  assert (Hs : forall l, Permutation (in_order l) (range 0 l))
    by (intros l; apply Permutation_refl).
  assert (Ha : forall a b c, Z.add (Z.add a b) c = Z.add a (Z.add b c))
    by (intros; lia).
  assert (Hn : 1 <= 4) by lia.
  split; [exact Hs | split; [exact Ha | split; [exact Hn |]]].
  destruct (scan_prefix_folds in_order (fun _ => 0) Z.add
              (array_of 0 [1; 1; 1; 1]) (fun _ => 7) 4 0 Hs Ha Hn)
    as (Hex & _ & Htotal & _).
  cbv zeta. rewrite Htotal, (Hex 3) by lia. split; reflexivity.
Defined.

Lemma addF_assoc a b c :
  sequence.addF (sequence.addF a b) c = sequence.addF a (sequence.addF b c).
Proof. unfold sequence.addF. lia. Qed.

(** C10: scan may be called with [Out == In].  For every array [A],
    associative [f] and zero [z], the exclusive scan of [A] in place
    writes the same outputs and returns the same total as the scan of [A]
    into another buffer; so does the in-place [plusScan(Sums, Sums, l)] by
    which pack turns its per-block counts into write offsets: it leaves in
    [Sums[i]] the sum of the counts before [i] and returns the sum of
    all. *)
Theorem scan_in_place {ET} (schedule : Z -> list Z) (uninit : mem ET)
        (uninit_int : mem Z) (f : ET -> ET -> ET) (A Out : mem ET) (n : Z)
        (z : ET) (Sums : mem Z) (l : Z) :
  (forall l, Permutation (schedule l) (range 0 l)) ->
  (forall a b c, f (f a b) c = f a (f b c)) ->
  let inplace := sequence.scan_array schedule uninit (sequence.SameBlock 0) A n f z in
  let fresh := sequence.scan_array schedule uninit (sequence.OtherBlock A) Out n f z in
  let offsets := sequence.plusScan schedule uninit_int (sequence.SameBlock 0) Sums l in
  (forall i, 0 <= i < n -> fst inplace i = fst fresh i) /\
  snd inplace = snd fresh /\
  (forall i, 0 <= i < l -> fst offsets i = fold_left Z.add (slice Sums 0 i) 0) /\
  snd offsets = fold_left Z.add (slice Sums 0 l) 0.
Proof.
  intros Hsched Hassoc inplace fresh offsets.
  destruct (scan_forward f Hassoc schedule Hsched uninit A 0 n
              (sequence.getA_at (sequence.SameBlock 0)) z false
              getA_at_same_local) as [Hin_total Hin].
  destruct (scan_forward f Hassoc schedule Hsched uninit Out 0 n
              (sequence.getA_at (sequence.OtherBlock A)) z false
              (getA_at_other_local A)) as [Hfr_total Hfr].
  destruct (scan_forward sequence.addF addF_assoc schedule Hsched uninit_int
              Sums 0 l (sequence.getA_at (sequence.SameBlock 0)) 0 false
              getA_at_same_local) as [Hoff_total Hoff].
  repeat split.
  - intros i Hi. unfold inplace, fresh, sequence.scan_array.
    destruct (Hin i) as [H1 _]. destruct (Hfr i) as [H2 _].
    now rewrite (H1 Hi), (H2 Hi).
  - unfold inplace, fresh, sequence.scan_array.
    now rewrite Hin_total, Hfr_total.
  - intros i Hi. destruct (Hoff i) as [H _]. exact (H Hi).
  - exact Hoff_total.
Qed.

(** ** packSerial and pack *)

Lemma flagged_app Fl s m e :
  s <= m <= e -> flagged Fl s e = flagged Fl s m ++ flagged Fl m e.
Proof. intros H. unfold flagged. now rewrite (range_app s m e H), filter_app. Qed.

Lemma flagged_snoc Fl s m :
  s <= m ->
  flagged Fl s (m + 1) = flagged Fl s m ++ (if Fl m then [m] else []).
Proof.
  intros H. rewrite (flagged_app Fl s m (m + 1)) by lia. f_equal.
  unfold flagged. rewrite range_cons, range_nil by lia. reflexivity.
Qed.

Lemma length_flagged Fl s e : Z.of_nat (length (flagged Fl s e)) = count_true Fl s e.
Proof. reflexivity. Qed.

(** A loop over a pair of states that acts on each component by itself. *)
Lemma parallel_for_pair {S1 S2} sched (body : Z -> S1 * S2 -> S1 * S2)
      (body1 : Z -> S1 -> S1) (body2 : Z -> S2 -> S2) st1 st2 :
  (forall i st1 st2, body i (st1, st2) = (body1 i st1, body2 i st2)) ->
  parallel_for sched body (st1, st2) =
  (parallel_for sched body1 st1, parallel_for sched body2 st2).
Proof.
  intros H. unfold parallel_for. revert st1 st2.
  induction sched as [|i sched IH]; intros st1 st2; cbn [fold_left].
  - reflexivity.
  - now rewrite H, IH.
Qed.

Lemma parallel_for_id {St} sched (st : St) :
  parallel_for sched (fun _ st => st) st = st.
Proof. unfold parallel_for. induction sched; cbn [fold_left]; auto. Qed.

Section PackSerial.
Context {ET : Type}.
Variable uninit : mem ET.

(** [packSerial] into a destination that the caller supplies: the selected
    elements land at [Out[0..k)] in index order, nothing else is written
    and nothing is printed. *)
Lemma packSerial_some (M : mem ET) p (Fl : sequence.boolptr) s e
      (f : Z -> ET) cout :
  let res := sequence.packSerial uninit M (Some p) Fl s e f cout in
  snd res = cout /\
  snd (fst res) =
    {| sequence.A := Some p; sequence.n := count_true (sequence.flag Fl) s e |} /\
  forall j,
    (forall k, 0 <= k < count_true (sequence.flag Fl) s e ->
       fst (fst res) (p + k) =
       f (nth (Z.to_nat k) (flagged (sequence.flag Fl) s e) 0)) /\
    (~ p <= j < p + count_true (sequence.flag Fl) s e -> fst (fst res) j = M j).
Proof.
  cbv zeta. unfold sequence.packSerial.
  set (body := fun (i : Z) '(M, k) =>
                 if sequence.flag Fl i
                 then (upd M (p + k) (f i), k + 1) else (M : mem ET, k)).
  enough (G : forall e',
            let st := for_up s e' body (M, 0) in
            snd st = count_true (sequence.flag Fl) s e' /\
            forall j,
              (forall k, 0 <= k < count_true (sequence.flag Fl) s e' ->
                 fst st (p + k) =
                 f (nth (Z.to_nat k) (flagged (sequence.flag Fl) s e') 0)) /\
              (~ p <= j < p + count_true (sequence.flag Fl) s e' ->
                 fst st j = M j)).
  { specialize (G e). cbv zeta in G.
    destruct (for_up s e body (M, 0)) as [M' k]. cbn [fst snd] in *.
    destruct G as [-> G]. split; [reflexivity|]. split; [reflexivity|].
    exact G. }
  intros e'. destruct (Z_le_gt_dec e' s) as [Hes|Hes].
  { cbv zeta. rewrite for_up_none, count_true_nil by lia. cbn [fst snd].
    split; [reflexivity|]. intros j. split; [lia | reflexivity]. }
  remember (Z.to_nat (e' - s)) as c eqn:Hc.
  replace e' with (s + Z.of_nat c) by lia. clear Hc Hes e'.
  induction c as [|c IH]; cbv zeta.
  - rewrite for_up_none, count_true_nil by lia. cbn [fst snd].
    split; [reflexivity|]. intros j. split; [lia | reflexivity].
  - replace (s + Z.of_nat (S c)) with (s + Z.of_nat c + 1) by lia.
    rewrite for_up_snoc by lia. set (m := s + Z.of_nat c) in *.
    cbv zeta in IH. destruct (for_up s m body (M, 0)) as [Mm k].
    cbn [fst snd] in IH. destruct IH as [-> IH].
    rewrite count_true_snoc, flagged_snoc by lia.
    pose proof (count_true_bounds (sequence.flag Fl) s m ltac:(lia)) as Hk.
    set (cnt := count_true (sequence.flag Fl) s m) in *.
    assert (Hlen : length (flagged (sequence.flag Fl) s m) = Z.to_nat cnt)
      by (unfold cnt; rewrite <- length_flagged; lia).
    assert (Hbody : body m (Mm, cnt) =
                    if sequence.flag Fl m
                    then (upd Mm (p + cnt) (f m), cnt + 1) else (Mm, cnt))
      by reflexivity.
    rewrite Hbody. clear Hbody.
    destruct (sequence.flag Fl m); cbn [fst snd Z.b2z].
    + split; [reflexivity|]. intros j. split.
      * intros k Hk'. destruct (Z.eq_dec k cnt) as [->|Hne].
        -- rewrite upd_same, app_nth2 by lia.
           now replace (Z.to_nat cnt - length _)%nat with O by lia.
        -- rewrite upd_other by lia. rewrite app_nth1 by lia.
           apply (IH j). lia.
      * intros Hj. rewrite upd_other by lia. apply (IH j). lia.
    + rewrite app_nil_r, Z.add_0_r. split; [reflexivity|]. exact IH.
Qed.
End PackSerial.

Lemma slice_pointwise {T} (g : mem T) (h : Z -> T) (L : list Z) p :
  (forall k, 0 <= k < Z.of_nat (length L) ->
     g (p + k) = h (nth (Z.to_nat k) L 0)) ->
  slice g p (p + Z.of_nat (length L)) = map h L.
Proof.
  revert p. induction L as [|x L IH]; intros p H.
  - cbn [length map]. now rewrite slice_nil by lia.
  - cbn [length map]. rewrite slice_cons by lia. f_equal.
    + specialize (H 0 ltac:(cbn [length]; lia)).
      now rewrite Z.add_0_r in H.
    + replace (p + Z.of_nat (S (length L))) with (p + 1 + Z.of_nat (length L))
        by lia.
      apply IH. intros k Hk.
      specialize (H (k + 1) ltac:(cbn [length]; lia)).
      replace (Z.to_nat (k + 1)) with (S (Z.to_nat k)) in H by lia.
      cbn [nth] in H. rewrite <- H. f_equal. lia.
Qed.

Lemma count_true_mono Fl s a b :
  s <= a <= b -> count_true Fl s a <= count_true Fl s b.
Proof.
  intros H. rewrite (count_true_app Fl s a b) by lia.
  pose proof (count_true_bounds Fl a b ltac:(lia)). lia.
Qed.

(** A step function that starts at or below [k] and ends above it crosses
    [k] on some step. *)
Lemma crossing_step (F : Z -> Z) (l : nat) k :
  F 0 <= k < F (Z.of_nat l) ->
  exists i, 0 <= i < Z.of_nat l /\ F i <= k < F (i + 1).
Proof.
  induction l as [|l IH]; intros H; [change (Z.of_nat 0) with 0 in H; lia|].
  replace (Z.of_nat (S l)) with (Z.of_nat l + 1) in * by lia.
  destruct (Z_lt_le_dec k (F (Z.of_nat l))) as [Hlt|Hge].
  - destruct IH as (i & Hi & HF); [lia|]. exists i. split; [lia|exact HF].
  - exists (Z.of_nat l). split; lia.
Qed.

Section PackCorrect.
Context {ET : Type}.
Variable schedule : Z -> list Z.
Hypothesis schedule_perm : forall l, Permutation (schedule l) (range 0 l).
Variable uninit : mem ET.
Variable uninit_int : mem Z.

Lemma packSerial_packed M Out Fl s e f cout :
  packed M Out Fl s e f (sequence.packSerial uninit M Out Fl s e f cout).
Proof.
  unfold packed. cbv zeta.
  assert (Hsome : forall M p cout,
            let res := sequence.packSerial uninit M (Some p) Fl s e f cout in
            sequence.n (snd (fst res)) = count_true (sequence.flag Fl) s e /\
            sequence.A (snd (fst res)) = Some p /\
            slice (fst (fst res)) p (p + sequence.n (snd (fst res))) =
              map f (flagged (sequence.flag Fl) s e) /\
            forall j, ~ p <= j < p + sequence.n (snd (fst res)) ->
                      fst (fst res) j = M j).
  { intros M0 p cout0. cbv zeta.
    destruct (packSerial_some uninit M0 p Fl s e f cout0) as (_ & Hsq & Hmem).
    rewrite Hsq. cbn [sequence.n sequence.A].
    split; [reflexivity|]. split; [reflexivity|]. split.
    - rewrite <- length_flagged. apply slice_pointwise.
      intros k Hk. apply (Hmem 0). now rewrite <- length_flagged.
    - intros j Hj. now apply (Hmem j). }
  destruct Out as [o|].
  - destruct (Hsome M o cout) as (Hn & HA & Hslice & Hframe).
    split; [exact Hn|]. exists o. split; [exact HA|]. split; [exact Hslice|].
    intros o' [= <-]. split; [reflexivity | exact Hframe].
  - assert (Hnone : sequence.packSerial uninit M None Fl s e f cout =
                    sequence.packSerial uninit
                      (sequence.newA uninit (count_true (sequence.flag Fl) s e))
                      (Some 0) Fl s e f
                      (cout ++ [sequence.sumFlagsSerial_line
                                  (sequence.address Fl + s) (e - s)])).
    { unfold sequence.packSerial. rewrite sumFlagsSerial_eq.
      cbn [sequence.boolptr_add sequence.flag sequence.address].
      rewrite count_true_shift.
      now replace (s + 0) with s by lia; replace (s + (e - s)) with e by lia. }
    rewrite Hnone.
    destruct (Hsome (sequence.newA uninit (count_true (sequence.flag Fl) s e)) 0
                (cout ++ [sequence.sumFlagsSerial_line
                            (sequence.address Fl + s) (e - s)]))
      as (Hn & HA & Hslice & _).
    split; [exact Hn|]. exists 0. split; [exact HA|]. split; [exact Hslice|].
    intros o' [=].
Qed.
End PackCorrect.

Section PackBlocks.
Context {ET : Type}.
Variable schedule : Z -> list Z.
Hypothesis schedule_perm : forall l, Permutation (schedule l) (range 0 l).
Variable uninit : mem ET.
Variable uninit_int : mem Z.

(** The sum of the counts of the first [k] blocks is the count over the
    range they cover. *)
Lemma sum_block_counts (Fl : mem bool) s e bsize (k : nat) :
  s < e -> 0 < bsize -> Z.of_nat k <= nblocks (e - s) bsize ->
  let C i := count_true Fl (s + i * bsize) (Z.min (s + i * bsize + bsize) e) in
  fold_left sequence.addF (slice C 0 (Z.of_nat k)) 0 =
  count_true Fl s (Z.min (s + Z.of_nat k * bsize) e).
Proof.
  intros Hn Hb Hk C. induction k as [|k IH].
  - rewrite slice_nil, count_true_nil by lia. reflexivity.
  - rewrite (slice_snoc C 0 (Z.of_nat (S k))) by lia.
    rewrite fold_left_app. cbn [fold_left].
    replace (Z.of_nat (S k) - 1) with (Z.of_nat k) by lia.
    rewrite IH by lia.
    destruct (block_bounds s e bsize (Z.of_nat k) Hn Hb ltac:(lia))
      as (Hb1 & _ & _).
    replace (s + Z.of_nat (S k) * bsize)
      with (s + Z.of_nat k * bsize + bsize) by lia.
    unfold C. set (bs := s + Z.of_nat k * bsize) in *.
    set (be := Z.min (bs + bsize) e) in *.
    replace (Z.min bs e) with bs by lia.
    unfold sequence.addF. symmetry. apply count_true_app. nia.
Qed.

(** The first phase of pack: the table of per-block counts. *)
Lemma pack_counts (Fl : sequence.boolptr) s e cout Sums0 i :
  0 <= i < nblocks (e - s) _F_BSIZE ->
  fst (blocked_for schedule s e _F_BSIZE
         (fun i s e '(Sums, cout) =>
            let '(c, cout) :=
              sequence.sumFlagsSerial (sequence.boolptr_add Fl s) (e - s) cout in
            (upd Sums i c, cout)) (Sums0, cout)) i =
  count_true (sequence.flag Fl) (s + i * _F_BSIZE)
    (Z.min (s + i * _F_BSIZE + _F_BSIZE) e).
Proof.
  intros Hi. unfold blocked_for.
  rewrite (parallel_for_pair (schedule (nblocks (e - s) _F_BSIZE)) _
             (fun i Sums =>
                upd Sums i
                  (count_true (sequence.flag Fl) (s + i * _F_BSIZE)
                     (Z.min (s + i * _F_BSIZE + _F_BSIZE) e)))
             (fun i cout =>
                cout ++ [sequence.sumFlagsSerial_line
                           (sequence.address Fl + (s + i * _F_BSIZE))
                           (Z.min (s + i * _F_BSIZE + _F_BSIZE) e
                            - (s + i * _F_BSIZE))])).
  - cbn [fst].
    rewrite (parallel_for_table
               (fun i => count_true (sequence.flag Fl) (s + i * _F_BSIZE)
                           (Z.min (s + i * _F_BSIZE + _F_BSIZE) e))
               Sums0 _ _ (schedule_perm _)).
    destruct (Z.leb_spec 0 i), (Z.ltb_spec i (nblocks (e - s) _F_BSIZE));
      cbn [andb]; (reflexivity || lia).
  - intros k Sums c. cbv zeta. rewrite sumFlagsSerial_eq.
    cbn [sequence.boolptr_add sequence.flag sequence.address].
    rewrite count_true_shift. do 3 f_equal; lia.
Qed.

(** The last phase of pack, on the destination block alone. *)
Lemma pack_write_phase (Fl : sequence.boolptr) s e (f : Z -> ET) p
      (offs : mem Z) M cout :
  blocked_for schedule s e _F_BSIZE
    (fun i s e '(M, cout) =>
       let '(M, _, cout) :=
         sequence.packSerial uninit M (Some (p + offs i)) Fl s e f cout in
       (M, cout)) (M, cout) =
  (blocked_for schedule s e _F_BSIZE
     (fun i s e M =>
        fst (fst (sequence.packSerial uninit M (Some (p + offs i)) Fl s e f [])))
     M, cout).
Proof.
  unfold blocked_for.
  rewrite (parallel_for_pair (schedule (nblocks (e - s) _F_BSIZE)) _
             (fun i M =>
                fst (fst (sequence.packSerial uninit M (Some (p + offs i)) Fl
                            (s + i * _F_BSIZE)
                            (Z.min (s + i * _F_BSIZE + _F_BSIZE) e) f [])))
             (fun _ cout => cout)).
  - now rewrite parallel_for_id.
  - intros i M0 c. cbv zeta. unfold sequence.packSerial.
    destruct (for_up _ _ _ (M0, 0)) as [M1 k]. reflexivity.
Qed.
End PackBlocks.

Section PackBlockPath.
Context {ET : Type}.
Variable schedule : Z -> list Z.
Hypothesis schedule_perm : forall l, Permutation (schedule l) (range 0 l).
Variable uninit : mem ET.
Variable uninit_int : mem Z.

Lemma pack_block_path_packed M Out (Fl : sequence.boolptr) s e (f : Z -> ET) cout :
  nblocks (e - s) _F_BSIZE > 1 ->
  packed M Out Fl s e f
    (sequence.pack_block_path schedule uninit uninit_int M Out Fl s e f cout).
Proof.
  intros Hl. pose proof _F_BSIZE_ge2 as HB.
  pose proof (nblocks_decreases (e - s) _F_BSIZE HB Hl) as Hd.
  assert (Hse : s < e) by lia.
  pose proof (nblocks_cover (e - s) _F_BSIZE ltac:(lia) ltac:(lia)) as Hcover.
  unfold sequence.pack_block_path.
  set (l := nblocks (e - s) _F_BSIZE) in *.
  set (B := _F_BSIZE) in *.
  set (fl := sequence.flag Fl).
  set (F i := count_true fl s (Z.min (s + i * B) e)).
  set (C i := count_true fl (s + i * B) (Z.min (s + i * B + B) e)).
  (* the step function of offsets *)
  assert (HF0 : F 0 = 0) by (unfold F; apply count_true_nil; lia).
  assert (HFl : F l = count_true fl s e)
    by (unfold F; f_equal; lia).
  assert (HFmono : forall a b, 0 <= a <= b -> F a <= F b).
  { intros a b Hab. unfold F. apply count_true_mono. nia. }
  assert (HFstep : forall i, 0 <= i < l ->
            Z.min (s + i * B) e = s + i * B /\ F (i + 1) = F i + C i).
  { intros i Hi.
    destruct (block_bounds s e B i Hse ltac:(lia) Hi) as (Hb1 & _ & _).
    split; [lia|]. unfold F, C.
    replace (Z.min (s + i * B) e) with (s + i * B) by lia.
    replace (s + (i + 1) * B) with (s + i * B + B) by lia.
    apply count_true_app. nia. }
  (* phase 1 *)
  destruct (blocked_for schedule s e B _ (sequence.newA uninit_int l, cout))
    as [Sums1 cout1] eqn:Hphase1.
  assert (H1 : forall i, 0 <= i < l -> Sums1 i = C i).
  { intros i Hi. change Sums1 with (fst (Sums1, cout1)). rewrite <- Hphase1.
    now apply pack_counts. }
  clear Hphase1.
  (* phase 2 *)
  destruct (scan_forward sequence.addF addF_assoc schedule schedule_perm
              uninit_int Sums1 0 l (sequence.getA_at (sequence.SameBlock 0)) 0
              false getA_at_same_local) as [Hm HSums2].
  unfold sequence.plusScan.
  destruct (sequence.scan schedule uninit_int Sums1 0 l sequence.addF _ 0
              false false) as [Sums2 m]. cbn [fst snd] in Hm, HSums2.
  assert (Hsum : forall i, 0 <= i <= l ->
            fold_left sequence.addF
              (slice (sequence.getA_at (sequence.SameBlock 0) Sums1) 0 i) 0 = F i).
  { intros i Hi.
    rewrite (slice_ext _ C) by (intros k Hk; cbn; apply H1; lia).
    pose proof (sum_block_counts fl s e B (Z.to_nat i) Hse ltac:(lia)
                  ltac:(fold l; lia)) as Hs.
    cbv zeta in Hs. now replace (Z.of_nat (Z.to_nat i)) with i in Hs by lia. }
  rewrite Hsum in Hm by lia. rewrite HFl in Hm. subst m.
  assert (Hoff : forall i, 0 <= i < l -> Sums2 i = F i).
  { intros i Hi. destruct (HSums2 i) as [H _]. rewrite (H Hi). apply Hsum. lia. }
  (* phases 3 and 4 *)
  set (p := match Out with Some o => o | None => 0 end).
  set (M0 := match Out with
             | Some _ => M
             | None => sequence.newA uninit (count_true fl s e)
             end).
  assert (HOut : match Out with
                 | None => (sequence.newA uninit (count_true fl s e), 0)
                 | Some Out => (M, Out)
                 end = (M0, p)) by (now destruct Out).
  rewrite HOut, pack_write_phase.
  unfold packed. cbn [fst snd sequence.n sequence.A].
  fold B. set (M' := blocked_for schedule s e B _ M0).
  assert (HM' : forall j,
            ((exists i, In i (schedule l) /\ p + F i <= j < p + F (i + 1)) ->
               M' j = f (nth (Z.to_nat (j - p)) (flagged fl s e) 0)) /\
            ((forall i, In i (schedule l) -> ~ p + F i <= j < p + F (i + 1)) ->
               M' j = M0 j)).
  { apply (parallel_for_footprint
             (fun i j => p + F i <= j < p + F (i + 1)) _
             (fun j => f (nth (Z.to_nat (j - p)) (flagged fl s e) 0)) M0
             (schedule l) (NoDup_schedule schedule l (schedule_perm l))).
    - intros i i' j Hi Hi' Hj Hj'.
      apply (in_schedule schedule l _ (schedule_perm l)) in Hi, Hi'.
      destruct (Z.lt_trichotomy i i') as [Hlt|[Heq|Hgt]]; [|exact Heq|].
      + pose proof (HFmono (i + 1) i' ltac:(lia)). lia.
      + pose proof (HFmono (i' + 1) i ltac:(lia)). lia.
    - intros i st Hi _ j.
      apply (in_schedule schedule l _ (schedule_perm l)) in Hi.
      destruct (HFstep i Hi) as [Hbs Hstep].
      destruct (block_bounds s e B i Hse ltac:(lia) Hi) as (Hb1 & _ & _).
      assert (HFi_eq : F i = count_true fl s (s + i * B))
        by (unfold F; f_equal; lia).
      assert (Hsbs : s <= s + i * B) by nia.
      set (bs := s + i * B) in *. set (be := Z.min (bs + B) e) in *.
      destruct (packSerial_some uninit st (p + Sums2 i) Fl bs be f [])
        as (_ & _ & Hmem).
      fold fl in Hmem.
      assert (HC : count_true fl bs be = C i) by reflexivity.
      rewrite HC in Hmem. clear HC.
      rewrite (Hoff i Hi) in *. rewrite Hstep. cbv zeta. fold be.
      destruct (Hmem j) as [Hin Hout].
      split; [|intros Hj; apply Hout; lia].
      intros Hj. replace j with (p + F i + (j - p - F i)) at 1 by lia.
      rewrite Hin by lia. f_equal.
      assert (Hlen1 : length (flagged fl s bs) = Z.to_nat (F i)).
      { rewrite HFi_eq, <- length_flagged. lia. }
      assert (Hlen2 : length (flagged fl bs be) = Z.to_nat (C i)).
      { change (C i) with (count_true fl bs be).
        rewrite <- length_flagged. lia. }
      pose proof (count_true_bounds fl s bs Hsbs) as HFi.
      rewrite <- HFi_eq in HFi.
      rewrite (flagged_app fl s bs e) by lia.
      rewrite (flagged_app fl bs be e) by lia.
      rewrite app_nth2 by lia. rewrite app_nth1 by lia.
      f_equal. lia. }
  split; [reflexivity|]. exists p. split; [reflexivity|]. split.
  - rewrite <- length_flagged. apply slice_pointwise. intros k Hk.
    rewrite length_flagged in Hk.
    destruct (HM' (p + k)) as [Hin _].
    replace (p + k - p) with k in Hin by lia. apply Hin.
    destruct (crossing_step F (Z.to_nat l) k) as (i & Hi & HFi).
    { replace (Z.of_nat (Z.to_nat l)) with l by lia.
      rewrite HF0, HFl. fold fl in Hk. lia. }
    exists i. split; [|lia].
    apply (in_schedule schedule l _ (schedule_perm l)). lia.
  - intros o HOo. subst Out. cbn in p, M0. split; [reflexivity|].
    intros j Hj. destruct (HM' j) as [_ Hout]. apply Hout.
    intros i Hi. apply (in_schedule schedule l _ (schedule_perm l)) in Hi.
    pose proof (HFmono 0 i ltac:(lia)). pose proof (HFmono (i + 1) l ltac:(lia)).
    subst p. lia.
Qed.

Lemma pack_packed M Out (Fl : sequence.boolptr) s e (f : Z -> ET) cout :
  packed M Out Fl s e f
    (sequence.pack schedule uninit uninit_int M Out Fl s e f cout).
Proof.
  unfold sequence.pack.
  destruct (Z.leb_spec (nblocks (e - s) _F_BSIZE) 1).
  - apply packSerial_packed.
  - apply pack_block_path_packed. lia.
Qed.
End PackBlockPath.

(** C3: for every range, flags array [Fl] and accessor [f], pack returns a
    sequence whose length is the number of true entries of [Fl] over the
    range and whose elements are [f i] for the flagged indices [i] in
    increasing order; so do the serial routine that is its base case and
    the multi-block path past it, whatever the order in which the blocks
    run.  A destination that the caller supplies is the one returned, and
    nothing outside the result is written in it. *)
Theorem pack_stable_compaction {ET} (schedule : Z -> list Z)
        (uninit : mem ET) (uninit_int : mem Z) (M : mem ET) (Out : option Z)
        (Fl : sequence.boolptr) (s e : Z) (f : Z -> ET)
        (cout : sequence.ostream) :
  (forall l, Permutation (schedule l) (range 0 l)) ->
  let res := sequence.pack schedule uninit uninit_int M Out Fl s e f cout in
  (sequence.n (snd (fst res)) =
     Z.of_nat (length (filter (sequence.flag Fl) (range s e))) /\
   exists p,
     sequence.A (snd (fst res)) = Some p /\
     slice (fst (fst res)) p (p + sequence.n (snd (fst res))) =
       map f (filter (sequence.flag Fl) (range s e)) /\
     forall o, Out = Some o ->
       p = o /\
       forall j, ~ o <= j < o + sequence.n (snd (fst res)) ->
                 fst (fst res) j = M j) /\
  packed M Out Fl s e f (sequence.packSerial uninit M Out Fl s e f cout) /\
  (nblocks (e - s) _F_BSIZE > 1 ->
   packed M Out Fl s e f
     (sequence.pack_block_path schedule uninit uninit_int M Out Fl s e f cout)).
Proof.
  intros Hsched res. split; [|split].
  - exact (pack_packed schedule Hsched uninit uninit_int M Out Fl s e f cout).
  - apply packSerial_packed.
  - intros Hl. now apply pack_block_path_packed.
Qed.

Lemma pack_stable_compaction_witness :
  (forall l, Permutation (in_order l) (range 0 l)) /\
  let res := sequence.pack in_order (fun _ => 0) (fun _ => 0) (fun _ => 7) None
               {| sequence.address := 4096;
                  sequence.flag := array_of false [true; false; true; false] |}
               0 4 (array_of 0 [10; 20; 30; 40]) [] in
  sequence.n (snd (fst res)) = 2 /\
  slice (fst (fst res)) 0 2 = [10; 30].
Proof.
  assert (Hs : forall l, Permutation (in_order l) (range 0 l))
    by (intros l; apply Permutation_refl).
  split; [exact Hs|].
  destruct (pack_stable_compaction in_order (fun _ => 0) (fun _ => 0)
              (fun _ => 7) None
              {| sequence.address := 4096;
                 sequence.flag := array_of false [true; false; true; false] |}
              0 4 (array_of 0 [10; 20; 30; 40]) [] Hs)
    as ((Hn & p & HA & Hslice & _) & _).
  cbv zeta. rewrite Hn. split; [reflexivity|].
  assert (Hp : p = 0) by (vm_compute in HA; congruence). subst p.
  rewrite Hn in Hslice. exact Hslice.
Defined.

(** ** Which path is taken *)

Lemma reduce_unfold {OT} schedule (uninit : mem OT) s e f g :
  sequence.reduce schedule uninit s e f g =
  if nblocks (e - s) _SCAN_BSIZE <=? 1
  then sequence.reduceSerial s e f g
  else sequence.reduce_block_path schedule uninit s e f g.
Proof.
  rewrite sequence.reduce_equation_1.
  destruct (Z_le_gt_dec (nblocks (e - s) _SCAN_BSIZE) 1) as [H|H];
    destruct (Z.leb_spec (nblocks (e - s) _SCAN_BSIZE) 1); try lia;
    reflexivity.
Qed.

Lemma scan_unfold {ET} schedule (uninit : mem ET) Out s e f g zero inclusive back :
  sequence.scan schedule uninit Out s e f g zero inclusive back =
  if nblocks (e - s) _SCAN_BSIZE <=? 2
  then sequence.scanSerial Out s e f g zero inclusive back
  else sequence.scan_block_path schedule uninit Out s e f g zero inclusive back.
Proof.
  rewrite sequence.scan_equation_1.
  destruct (Z_le_gt_dec (nblocks (e - s) _SCAN_BSIZE) 2) as [H|H];
    destruct (Z.leb_spec (nblocks (e - s) _SCAN_BSIZE) 2); try lia;
    reflexivity.
Qed.




(** C6 (amended): reduce delegates to its serial routine exactly when the
    block count is <= 1, scan exactly when it is <= 2 and pack exactly when
    it is <= 1; for any larger block count each takes its block-decomposed
    path. *)
Theorem serial_thresholds {OT ET} (schedule : Z -> list Z) (uninit_r : mem OT)
        (uninit : mem ET) (uninit_int : mem Z) (s e : Z)
        (fr : OT -> OT -> OT) (gr : Z -> OT)
        (Out : mem ET) (f : ET -> ET -> ET) (g : sequence.accessor)
        (zero : ET) (inclusive back : bool)
        (M : mem ET) (p : option Z) (Fl : sequence.boolptr) (fp : Z -> ET)
        (cout : sequence.ostream) :
  sequence.reduce schedule uninit_r s e fr gr =
    (if nblocks (e - s) _SCAN_BSIZE <=? 1
     then sequence.reduceSerial s e fr gr
     else sequence.reduce_block_path schedule uninit_r s e fr gr) /\
  sequence.scan schedule uninit Out s e f g zero inclusive back =
    (if nblocks (e - s) _SCAN_BSIZE <=? 2
     then sequence.scanSerial Out s e f g zero inclusive back
     else sequence.scan_block_path schedule uninit Out s e f g zero
            inclusive back) /\
  sequence.pack schedule uninit uninit_int M p Fl s e fp cout =
    (if nblocks (e - s) _F_BSIZE <=? 1
     then sequence.packSerial uninit M p Fl s e fp cout
     else sequence.pack_block_path schedule uninit uninit_int M p Fl s e fp cout).
Proof.
  split; [apply reduce_unfold|]. split; [apply scan_unfold|].
  reflexivity.
Qed.

(** The claim of C6 as it stands fails on ranges of two blocks.  On
    [[0, 1025)] the block count is 2 > 1, yet scan runs its serial
    routine: with subtraction for a combiner, which tells the paths apart,
    it returns the serial total and not the total of the block path.  On
    [[0, 2049)] the block count of pack is 2 <= 2, yet pack does not run
    its serial routine: it prints the lines of the block path. *)
Lemma two_blocks_counterexample :
  nblocks (1025 - 0) _SCAN_BSIZE = 2 /\
  snd (sequence.scan in_order (fun _ => 0) (fun _ => 0) 0 1025 Z.sub
         (sequence.getA_at (sequence.OtherBlock (fun _ => 1))) 0 false false) =
  snd (sequence.scanSerial (fun _ => 0) 0 1025 Z.sub
         (sequence.getA_at (sequence.OtherBlock (fun _ => 1))) 0 false false) /\
  snd (sequence.scan in_order (fun _ => 0) (fun _ => 0) 0 1025 Z.sub
         (sequence.getA_at (sequence.OtherBlock (fun _ => 1))) 0 false false) <>
  snd (sequence.scan_block_path in_order (fun _ => 0) (fun _ => 0) 0 1025 Z.sub
         (sequence.getA_at (sequence.OtherBlock (fun _ => 1))) 0 false false) /\
  nblocks (2049 - 0) _F_BSIZE = 2 /\
  snd (sequence.pack in_order (fun _ => 0) (fun _ => 0) (fun _ => 0) (Some 0)
         {| sequence.address := 4096; sequence.flag := fun _ => true |}
         0 2049 (fun i => i) []) <>
  snd (sequence.packSerial (fun _ => 0) (fun _ => 0) (Some 0)
         {| sequence.address := 4096; sequence.flag := fun _ => true |}
         0 2049 (fun i => i) []).
Proof.
  split; [reflexivity|]. split; [|split; [|split; [reflexivity|]]].
  - rewrite scan_unfold. reflexivity.
  - rewrite scan_unfold. vm_compute. discriminate.
  - vm_compute. discriminate.
Qed.

(** ** Backward scan *)

Lemma slice_mirror {T} (A : mem T) n (k : nat) :
  Z.of_nat k <= n ->
  slice (fun j => A (n - 1 - j)) 0 (Z.of_nat k) = rev (slice A (n - Z.of_nat k) n).
Proof.
  intros Hk. induction k as [|k IH].
  - now rewrite !slice_nil by lia.
  - rewrite (slice_snoc _ 0 (Z.of_nat (S k))) by lia.
    replace (Z.of_nat (S k) - 1) with (Z.of_nat k) by lia.
    rewrite IH by lia.
    rewrite (slice_cons A (n - Z.of_nat (S k)) n) by lia. cbn [rev].
    now replace (n - Z.of_nat (S k) + 1) with (n - Z.of_nat k) by lia;
      replace (n - 1 - Z.of_nat k) with (n - Z.of_nat (S k)) by lia.
Qed.

Lemma slice_getA_other {T} (A Out : mem T) s e :
  slice (sequence.getA_at (sequence.OtherBlock A) Out) s e = slice A s e.
Proof. reflexivity. Qed.

(** On the serial path the backward scan is the forward scan of the
    reversed array, reversed back, for any combiner at all. *)
Lemma scanBack_serial_mirror {ET} schedule (uninit : mem ET)
      (f : ET -> ET -> ET) (A Out Out' : mem ET) n z inclusive :
  nblocks n _SCAN_BSIZE <= 2 ->
  let back := sequence.scan schedule uninit Out 0 n f
                (sequence.getA_at (sequence.OtherBlock A)) z inclusive true in
  let mirror := sequence.scan schedule uninit Out' 0 n f
                  (sequence.getA_at (sequence.OtherBlock (fun j => A (n - 1 - j))))
                  z inclusive false in
  (forall i, 0 <= i < n -> fst back i = fst mirror (n - 1 - i)) /\
  snd back = snd mirror.
Proof.
  intros Hl. cbv zeta. rewrite !scan_unfold. rewrite Z.sub_0_r.
  destruct (Z.leb_spec (nblocks n _SCAN_BSIZE) 2); [|lia].
  destruct (scanSerial_backward f Out 0 n
              (sequence.getA_at (sequence.OtherBlock A)) z inclusive
              (getA_at_other_local A)) as [Hbt Hb].
  destruct (scanSerial_forward f Out' 0 n
              (sequence.getA_at (sequence.OtherBlock (fun j => A (n - 1 - j))))
              z inclusive (getA_at_other_local _)) as [Hft Hf].
  rewrite slice_getA_other in Hbt, Hft.
  destruct (Z_le_gt_dec n 0) as [Hn|Hn].
  { split; [intros; lia|]. rewrite Hbt, Hft. now rewrite !slice_nil by lia. }
  split.
  - intros i Hi. destruct (Hb i) as [Hbi _].
    destruct (Hf (n - 1 - i)) as [Hfi _].
    rewrite Hbi, Hfi by lia. rewrite !slice_getA_other. f_equal.
    destruct inclusive.
    + pose proof (slice_mirror A n (Z.to_nat (n - i)) ltac:(lia)) as Hm.
      replace (Z.of_nat (Z.to_nat (n - i))) with (n - i) in Hm by lia.
      replace (n - 1 - i + 1) with (n - i) by lia. rewrite Hm.
      now replace (n - (n - i)) with i by lia.
    + pose proof (slice_mirror A n (Z.to_nat (n - 1 - i)) ltac:(lia)) as Hm.
      replace (Z.of_nat (Z.to_nat (n - 1 - i))) with (n - 1 - i) in Hm by lia.
      rewrite Hm. now replace (n - (n - 1 - i)) with (i + 1) by lia.
  - rewrite Hbt, Hft.
    pose proof (slice_mirror A n (Z.to_nat n) ltac:(lia)) as Hm.
    replace (Z.of_nat (Z.to_nat n)) with n in Hm by lia.
    rewrite Hm. now replace (n - n) with 0 by lia.
Qed.

(** With a combiner that is commutative as well, the backward scan does
    mirror the forward one on any number of blocks. *)
Section ScanBackward.
Context {ET : Type}.
Variable f : ET -> ET -> ET.
Hypothesis f_assoc : forall a b c, f (f a b) c = f a (f b c).
Hypothesis f_comm : forall a b, f a b = f b a.
Variable schedule : Z -> list Z.
Hypothesis schedule_perm : forall l, Permutation (schedule l) (range 0 l).
Variable uninit : mem ET.

Lemma fold_left_push l z x : fold_left f l (f z x) = f (fold_left f l z) x.
Proof.
  revert z. induction l as [|y l IH]; intros z; cbn [fold_left]; [reflexivity|].
  rewrite <- IH. f_equal.
  now rewrite f_assoc, (f_comm x y), <- f_assoc.
Qed.

Lemma fold_left_rev_comm l z : fold_left f (rev l) z = fold_left f l z.
Proof.
  induction l as [|x l IH]; [reflexivity|].
  cbn [rev fold_left]. rewrite fold_left_app. cbn [fold_left].
  now rewrite IH, fold_left_push.
Qed.

(** Combining an accumulator with the forward reduction of a block is
    folding the block into it backwards. *)
Lemma combine_block_backward (g : Z -> ET) bs be r :
  bs < be ->
  f r (sequence.reduceSerial bs be f g) = fold_left f (rev (slice g bs be)) r.
Proof.
  intros H. rewrite fold_left_rev_comm, reduceSerial_fold.
  rewrite (slice_cons g bs be H). cbn [fold_left].
  symmetry. now apply fold_left_assoc.
Qed.

Lemma fold_block_sums_backward (g : Z -> ET) s e bsize zero (d : nat) :
  s < e -> 0 < bsize -> Z.of_nat d <= nblocks (e - s) bsize ->
  let l := nblocks (e - s) bsize in
  let R i := sequence.reduceSerial (s + i * bsize)
               (Z.min (s + i * bsize + bsize) e) f g in
  fold_left f (rev (slice R (l - Z.of_nat d) l)) zero =
  fold_left f (rev (slice g (Z.min (s + (l - Z.of_nat d) * bsize) e) e)) zero.
Proof.
  intros Hn Hb Hd l R.
  pose proof (nblocks_cover (e - s) bsize ltac:(lia) Hb) as Hcover. fold l in Hcover.
  induction d as [|d IH].
  - rewrite !slice_nil by lia. reflexivity.
  - set (k := l - Z.of_nat (S d)).
    replace (l - Z.of_nat d) with (k + 1) in IH by lia.
    rewrite (slice_cons R k l) by lia. cbn [rev].
    rewrite fold_left_app. cbn [fold_left]. rewrite IH by lia.
    destruct (block_bounds s e bsize k Hn Hb ltac:(lia)) as (Hb1 & Hb2 & Hb3).
    unfold R. rewrite combine_block_backward by lia.
    rewrite <- fold_left_app, <- rev_app_distr.
    assert (Hnext : Z.min (s + (k + 1) * bsize) e =
                    Z.min (s + k * bsize + bsize) e) by (f_equal; lia).
    rewrite Hnext.
    replace (Z.min (s + k * bsize) e) with (s + k * bsize) by lia.
    rewrite <- (slice_app g (s + k * bsize) (Z.min (s + k * bsize + bsize) e) e)
      by lia.
    reflexivity.
Qed.

Lemma scan_backward Out s e g zero inclusive :
  local_accessor g ->
  let res := sequence.scan schedule uninit Out s e f g zero inclusive true in
  snd res = fold_left f (rev (slice (g Out) s e)) zero /\
  forall i,
    (s <= i < e ->
       fst res i =
       fold_left f (rev (slice (g Out) (if inclusive then i else i + 1) e)) zero) /\
    (~ s <= i < e -> fst res i = Out i).
Proof.
  remember (Z.to_nat (e - s)) as n eqn:Hn.
  revert Out s e g zero inclusive Hn.
  induction n as [n IH] using lt_wf_ind.
  intros Out s e g zero inclusive Hn Hg. cbv zeta.
  rewrite sequence.scan_equation_1.
  destruct (Z_le_gt_dec (nblocks (e - s) _SCAN_BSIZE) 2) as [Hl|Hl];
    cbn [sequence.scan_unfold_clause_1];
    [now apply scanSerial_backward|].
  pose proof _SCAN_BSIZE_ge2 as HB.
  pose proof (nblocks_decreases (e - s) _SCAN_BSIZE HB ltac:(lia)) as Hd.
  set (l := nblocks (e - s) _SCAN_BSIZE) in *.
  assert (Hse : s < e) by lia.
  set (R i := sequence.reduceSerial (s + i * _SCAN_BSIZE)
                (Z.min (s + i * _SCAN_BSIZE + _SCAN_BSIZE) e) f (g Out)).
  set (Sums1 := blocked_for schedule s e _SCAN_BSIZE _ (sequence.newA uninit l)).
  assert (HSums1 : forall i, 0 <= i < l -> Sums1 i = R i).
  { intros i Hi. unfold Sums1. now rewrite block_sums_table. }
  destruct (IH (Z.to_nat (l - 0)) ltac:(lia) Sums1 0 l
              (sequence.getA_at (sequence.SameBlock 0)) zero false eq_refl
              getA_at_same_local) as [Htotal HSums2].
  set (res := sequence.scan schedule uninit Sums1 0 l f _ zero false true) in *.
  assert (Hsuffix : forall i, 0 <= i <= l ->
            fold_left f
              (rev (slice (sequence.getA_at (sequence.SameBlock 0) Sums1) i l)) zero =
            fold_left f (rev (slice (g Out) (Z.min (s + i * _SCAN_BSIZE) e) e)) zero).
  { intros i Hi.
    rewrite (slice_ext _ R) by (intros k Hk; cbn; apply HSums1; lia).
    pose proof (fold_block_sums_backward (g Out) s e _SCAN_BSIZE zero
                  (Z.to_nat (l - i)) Hse ltac:(lia) ltac:(fold l; lia)) as Hf.
    cbv zeta in Hf. fold l in Hf.
    now replace (l - Z.of_nat (Z.to_nat (l - i))) with i in Hf by lia. }
  cbn [fst snd]. split.
  - rewrite Htotal, Hsuffix by lia.
    now replace (Z.min (s + 0 * _SCAN_BSIZE) e) with s by lia.
  - apply (blocked_for_fill schedule s e _SCAN_BSIZE
             (fun i s e Out =>
                fst (sequence.scanSerial Out s e f g (fst res i) inclusive true))
             (fun i => fold_left f
                         (rev (slice (g Out) (if inclusive then i else i + 1) e))
                         zero)
             Out schedule_perm ltac:(lia)).
    intros i st Hi bs be Hst j. fold l in Hi.
    destruct (block_bounds s e _SCAN_BSIZE i Hse ltac:(lia) Hi) as (Hb1 & _ & _).
    fold bs in Hb1. fold be in Hb1.
    destruct (scanSerial_backward f st bs be g (fst res i) inclusive Hg)
      as [_ Hser].
    destruct (Hser j) as [Hin Hout]. split; [|exact Hout].
    intros Hj. rewrite (Hin Hj).
    destruct (HSums2 i) as [HS _]. rewrite (HS ltac:(lia)).
    rewrite (Hsuffix (i + 1)) by lia.
    replace (Z.min (s + (i + 1) * _SCAN_BSIZE) e) with be by (subst be bs; lia).
    rewrite <- fold_left_app, <- rev_app_distr. do 2 f_equal.
    set (x := if inclusive then j else j + 1).
    assert (Hx : bs <= x <= be) by (subst x; destruct inclusive; lia).
    rewrite (slice_app (g Out) x be e) by lia.
    f_equal. apply slice_ext. intros k Hk. apply Hg, Hst. lia.
Qed.
End ScanBackward.

Lemma scanBack_commutative_mirror {ET} schedule (uninit : mem ET)
      (f : ET -> ET -> ET) (A Out Out' : mem ET) n z inclusive :
  (forall l, Permutation (schedule l) (range 0 l)) ->
  (forall a b c, f (f a b) c = f a (f b c)) ->
  (forall a b, f a b = f b a) ->
  let back := sequence.scan schedule uninit Out 0 n f
                (sequence.getA_at (sequence.OtherBlock A)) z inclusive true in
  let mirror := sequence.scan schedule uninit Out' 0 n f
                  (sequence.getA_at (sequence.OtherBlock (fun j => A (n - 1 - j))))
                  z inclusive false in
  (forall i, 0 <= i < n -> fst back i = fst mirror (n - 1 - i)) /\
  snd back = snd mirror.
Proof.
  intros Hsched Hassoc Hcomm. cbv zeta.
  destruct (scan_backward f Hassoc Hcomm schedule Hsched uninit Out 0 n
              (sequence.getA_at (sequence.OtherBlock A)) z inclusive
              (getA_at_other_local A)) as [Hbt Hb].
  destruct (scan_forward f Hassoc schedule Hsched uninit Out' 0 n
              (sequence.getA_at (sequence.OtherBlock (fun j => A (n - 1 - j))))
              z inclusive (getA_at_other_local _)) as [Hft Hf].
  rewrite slice_getA_other in Hbt, Hft.
  destruct (Z_le_gt_dec n 0) as [Hn|Hn].
  { split; [intros; lia|]. rewrite Hbt, Hft. now rewrite !slice_nil by lia. }
  split.
  - intros i Hi. destruct (Hb i) as [Hbi _].
    destruct (Hf (n - 1 - i)) as [Hfi _].
    rewrite Hbi, Hfi by lia. rewrite !slice_getA_other. f_equal.
    destruct inclusive.
    + pose proof (slice_mirror A n (Z.to_nat (n - i)) ltac:(lia)) as Hm.
      replace (Z.of_nat (Z.to_nat (n - i))) with (n - i) in Hm by lia.
      replace (n - 1 - i + 1) with (n - i) by lia. rewrite Hm.
      now replace (n - (n - i)) with i by lia.
    + pose proof (slice_mirror A n (Z.to_nat (n - 1 - i)) ltac:(lia)) as Hm.
      replace (Z.of_nat (Z.to_nat (n - 1 - i))) with (n - 1 - i) in Hm by lia.
      rewrite Hm. now replace (n - (n - 1 - i)) with (i + 1) by lia.
  - rewrite Hbt, Hft.
    pose proof (slice_mirror A n (Z.to_nat n) ltac:(lia)) as Hm.
    replace (Z.of_nat (Z.to_nat n)) with n in Hm by lia.
    rewrite Hm. now replace (n - n) with 0 by lia.
Qed.

(** C5: the backward scan is meant to be the forward scan of the reversed
    array, reversed back, for any associative combiner.  On the array
    [0, 1, ..., 2048] (three blocks) with the combiner that keeps its right
    argument, [scanBack] stores 2047 in [Out[1023]] and returns 1023, where
    the mirrored forward scan has 1024 and returns 0: past the serial base
    case the block sums are folded left to right also when the scan runs
    backwards. *)
Theorem scanBack_block_sums_run_forward :
  (forall a b c, last_wins (last_wins a b) c = last_wins a (last_wins b c)) /\
  fst (sequence.scanBack in_order (fun _ => 0)
         (sequence.OtherBlock (fun i => i)) (fun _ => 0) 2049 last_wins (-1))
      1023 = 2047 /\
  fst (sequence.scan_array in_order (fun _ => 0)
         (sequence.OtherBlock (fun i => 2049 - 1 - i)) (fun _ => 0) 2049
         last_wins (-1))
      (2049 - 1 - 1023) = 1024 /\
  snd (sequence.scanBack in_order (fun _ => 0)
         (sequence.OtherBlock (fun i => i)) (fun _ => 0) 2049 last_wins (-1))
  = 1023 /\
  snd (sequence.scan_array in_order (fun _ => 0)
         (sequence.OtherBlock (fun i => 2049 - 1 - i)) (fun _ => 0) 2049
         last_wins (-1))
  = 0.
Proof.
  split; [reflexivity|]. repeat split; vm_compute; reflexivity.
Qed.

(** ** writeMin *)

Lemma CAS_same a b : CAS a a b = (b, true).
Proof. unfold CAS. now rewrite Z.eqb_refl. Qed.

Lemma writeMin_run_returned fuel b r a :
  writeMin_run fuel b (returned r) a = Some (a, r).
Proof. now destruct fuel. Qed.

(** A call that no other writer disturbs returns after its load and one
    test: the CAS, if tried, succeeds. *)
Lemma writeMin_call fuel a b :
  (2 <= fuel)%nat -> writeMin fuel a b = Some (Z.min a b, b <? a).
Proof.
  intros Hf. destruct fuel as [|[|fuel]]; try lia.
  unfold writeMin. cbn [writeMin_run writeMin_step].
  rewrite Z.gtb_ltb. destruct (Z.ltb_spec b a).
  - rewrite CAS_same. cbn [negb]. rewrite writeMin_run_returned.
    now rewrite Z.min_r by lia.
  - rewrite writeMin_run_returned. now rewrite Z.min_l by lia.
Qed.

Lemma writeMin_all_fold fuel a vs :
  (2 <= fuel)%nat -> writeMin_all fuel a vs = Some (fold_left Z.min vs a).
Proof.
  intros Hf. revert a. induction vs as [|v vs IH]; intros a; cbn.
  - reflexivity.
  - rewrite writeMin_call by easy. apply IH.
Qed.

Lemma fold_left_min_right vs a : fold_left Z.min vs a = fold_right Z.min a vs.
Proof.
  revert a. induction vs as [|v vs IH]; intros a; cbn; [reflexivity|].
  rewrite IH. clear IH. induction vs as [|w vs IH]; cbn; [lia|].
  rewrite IH. lia.
Qed.

Lemma fold_right_min_perm vs vs' a :
  Permutation vs vs' -> fold_right Z.min a vs = fold_right Z.min a vs'.
Proof.
  induction 1; cbn; try congruence; lia.
Qed.

(** C9: for every stored value [v0] and proposed values [v1..vN], after
    the calls [writeMin(ptr, vi)] have run one after another in any order
    the cell holds [min(v0, v1, ..., vN)]; a single call returns, leaves
    the cell alone when the stored value is already <= [v], and leaves [v]
    stored otherwise. *)
Theorem writeMin_stores_minimum (fuel : nat) (v0 : Z) (vs order : list Z) :
  (2 <= fuel)%nat ->
  Permutation vs order ->
  writeMin_all fuel v0 order = Some (fold_right Z.min v0 vs) /\
  (forall a v, a <= v -> writeMin fuel a v = Some (a, false)) /\
  (forall a v, v < a -> writeMin fuel a v = Some (v, true)).
Proof.
  intros Hf Hp. split; [|split].
  - rewrite writeMin_all_fold, fold_left_min_right by easy.
    f_equal. symmetry. now apply fold_right_min_perm.
  - intros a v Hav. rewrite writeMin_call by easy.
    rewrite Z.min_l by lia. now destruct (Z.ltb_spec v a); [lia|].
  - intros a v Hav. rewrite writeMin_call by easy.
    rewrite Z.min_r by lia. now destruct (Z.ltb_spec v a); [|lia].
Qed.

Lemma writeMin_stores_minimum_witness :
  (2 <= 2)%nat /\ Permutation [5; 3; 8] [8; 5; 3] /\
  writeMin_all 2 7 [8; 5; 3] = Some 3.
Proof.
  assert (Hf : (2 <= 2)%nat) by lia.
  assert (Hp : Permutation [5; 3; 8] [8; 5; 3]).
  { apply Permutation_sym, (Permutation_cons_app [5; 3] []), Permutation_refl. }
  split; [exact Hf|]. split; [exact Hp|].
  destruct (writeMin_stores_minimum 2 7 [5; 3; 8] [8; 5; 3] Hf Hp) as [H _].
  exact H.
Defined.

Lemma thread_ok_lower a a' th : a' <= a -> thread_ok a th -> thread_ok a' th.
Proof. unfold thread_ok. destruct (snd th); lia || auto. Qed.

Lemma thread_step_values t ths a :
  map fst (fst (thread_step t ths a)) = map fst ths.
Proof.
  revert t. induction ths as [|[b pc] ths IH]; intros t; [reflexivity|].
  cbn [thread_step]. destruct t as [|t].
  - destruct (writeMin_step b pc a). reflexivity.
  - specialize (IH t). destruct (thread_step t ths a). cbn in *. now f_equal.
Qed.

(** A step never raises the cell, and what it stores is a proposed
    value. *)
Lemma thread_step_cell t ths a :
  snd (thread_step t ths a) <= a /\
  (snd (thread_step t ths a) = a \/
   In (snd (thread_step t ths a)) (map fst ths)).
Proof.
  revert t. induction ths as [|[b pc] ths IH]; intros t.
  - cbn. split; [lia | now left].
  - cbn [thread_step]. destruct t as [|t].
    + destruct pc as [|c|r]; cbn [writeMin_step];
        try (cbn; split; [lia | now left]).
      rewrite Z.gtb_ltb. destruct (Z.ltb_spec b c);
        [|cbn; split; [lia | now left]].
      unfold CAS. destruct (Z.eqb_spec a c) as [->|Hne]; cbn.
      * split; [lia | right; now left].
      * split; [lia | now left].
    + specialize (IH t). destruct (thread_step t ths a) as [rest a'].
      cbn in *. destruct IH as [H1 [H2|H2]]; split; auto.
Qed.

Lemma thread_step_ok t ths a :
  Forall (thread_ok a) ths ->
  Forall (thread_ok (snd (thread_step t ths a))) (fst (thread_step t ths a)).
Proof.
  revert t. induction ths as [|[b pc] ths IH]; intros t Hall.
  - cbn. constructor.
  - apply Forall_cons_iff in Hall. destruct Hall as [Hth Hall].
    pose proof (thread_step_cell t ((b, pc) :: ths) a) as [Hdown _].
    cbn [thread_step] in *. destruct t as [|t].
    + destruct (writeMin_step b pc a) as [pc' a'] eqn:Hstep. cbn [fst snd] in *.
      constructor.
      * unfold thread_ok in *. cbn [fst snd] in *.
        destruct pc as [|c|r]; cbn [writeMin_step] in Hstep.
        -- injection Hstep as <- <-. lia.
        -- rewrite Z.gtb_ltb in Hstep. destruct (Z.ltb_spec b c).
           ++ unfold CAS in Hstep.
              destruct (Z.eqb_spec a c); cbn in Hstep;
                injection Hstep as <- <-; lia || exact I.
           ++ injection Hstep as <- <-. lia.
        -- injection Hstep as <- <-. exact Hth.
      * eapply Forall_impl; [|exact Hall].
        intros th. now apply thread_ok_lower.
    + specialize (IH t Hall).
      destruct (thread_step t ths a) as [rest a']. cbn [fst snd] in *.
      constructor; [|exact IH]. now apply (thread_ok_lower a).
Qed.

Lemma thread_step_inv a0 t ths a :
  writeMin_inv a0 ths a ->
  writeMin_inv a0 (fst (thread_step t ths a)) (snd (thread_step t ths a)).
Proof.
  intros (Hle & Hin & Hall).
  destruct (thread_step_cell t ths a) as [Hdown Hval].
  split; [lia|]. split; [|now apply thread_step_ok].
  rewrite thread_step_values.
  destruct Hval as [->|Hval]; [exact Hin | now right].
Qed.

Lemma interleave_inv a0 sched ths a :
  writeMin_inv a0 ths a ->
  writeMin_inv a0 (fst (interleave sched ths a)) (snd (interleave sched ths a)).
Proof.
  unfold interleave. revert ths a.
  induction sched as [|t sched IH]; intros ths a Hinv; cbn [fold_left].
  - exact Hinv.
  - pose proof (thread_step_inv a0 t ths a Hinv) as Hinv'.
    destruct (thread_step t ths a) as [ths' a']. now apply IH.
Qed.

Lemma interleave_values sched ths a :
  map fst (fst (interleave sched ths a)) = map fst ths.
Proof.
  unfold interleave. revert ths a.
  induction sched as [|t sched IH]; intros ths a; cbn [fold_left].
  - reflexivity.
  - pose proof (thread_step_values t ths a) as Hv.
    destruct (thread_step t ths a) as [ths' a']. cbn [fst] in Hv.
    now rewrite IH.
Qed.

Lemma fold_right_min_lower a v0 vs :
  a <= v0 -> (forall v, In v vs -> a <= v) -> a <= fold_right Z.min v0 vs.
Proof.
  intros H0 Hvs. induction vs as [|v vs IH]; cbn; [exact H0|].
  apply Z.min_glb.
  - apply Hvs. now left.
  - apply IH. intros u Hu. apply Hvs. now right.
Qed.

Lemma fold_right_min_upper a v0 vs :
  a = v0 \/ In a vs -> fold_right Z.min v0 vs <= a.
Proof.
  induction vs as [|v vs IH]; cbn.
  - intros [->|[]]. lia.
  - intros [->|[->|Hin]].
    + specialize (IH (or_introl eq_refl)). lia.
    + lia.
    + specialize (IH (or_intror Hin)). lia.
Qed.

(** [N] concurrent callers proposing [vs] against the initial value [v0]:
    once all have returned, under any interleaving of their steps, the
    cell holds [min(v0, v1, ..., vN)]. *)
Lemma writeMin_interleaved_minimum v0 vs sched :
  let start := map (fun v => (v, at_load)) vs in
  let final := interleave sched start v0 in
  all_returned (fst final) ->
  snd final = fold_right Z.min v0 vs.
Proof.
  intros start final Hret.
  assert (Hinv : writeMin_inv v0 start v0).
  { split; [lia|]. split; [now left|].
    unfold start. apply Forall_forall. intros th Hth.
    apply in_map_iff in Hth. destruct Hth as (v & <- & _). exact I. }
  pose proof (interleave_inv v0 sched start v0 Hinv) as (Hle & Hin & Hall).
  pose proof (interleave_values sched start v0) as Hvals.
  fold final in Hle, Hin, Hall, Hvals.
  assert (Hvs : map fst start = vs).
  { unfold start. rewrite map_map. cbn. apply map_id. }
  rewrite Hvs in Hvals. rewrite Hvals in Hin.
  assert (Hlow : forall v, In v vs -> snd final <= v).
  { intros v Hv. rewrite <- Hvals in Hv. apply in_map_iff in Hv.
    destruct Hv as (th & <- & Hth).
    unfold all_returned in Hret. rewrite Forall_forall in Hall, Hret.
    specialize (Hall th Hth). destruct (Hret th Hth) as [r Hr].
    unfold thread_ok in Hall. now rewrite Hr in Hall. }
  apply Z.le_antisymm.
  - now apply fold_right_min_lower.
  - now apply fold_right_min_upper.
Qed.

(** ** remDuplicates *)

(** An invariant over the set of iterations that have run holds when the
    parallel loop is over. *)
Lemma parallel_for_invariant {St} (I : list Z -> St -> Prop)
      (body : Z -> St -> St) sched st0 :
  NoDup sched ->
  I [] st0 ->
  (forall done i st,
     I done st -> In i sched -> ~ In i done -> I (done ++ [i]) (body i st)) ->
  I sched (parallel_for sched body st0).
Proof.
  intros Hnd H0 Hstep.
  enough (G : forall rest done st,
            (forall i, In i rest -> In i sched) ->
            NoDup (done ++ rest) -> I done st ->
            I (done ++ rest) (parallel_for rest body st)).
  { apply (G sched [] st0); auto. }
  unfold parallel_for.
  induction rest as [|i rest IH]; intros done st Hin Hnd' Hinv; cbn [fold_left].
  - now rewrite app_nil_r.
  - replace (done ++ i :: rest) with ((done ++ [i]) ++ rest) in *
      by (now rewrite <- app_assoc).
    apply IH.
    + intros k Hk. apply Hin. now right.
    + exact Hnd'.
    + apply Hstep; [exact Hinv | apply Hin; now left |].
      rewrite <- app_assoc in Hnd'. cbn in Hnd'.
      apply NoDup_remove_2 in Hnd'. intros Hd. apply Hnd'.
      apply in_or_app. now left.
Qed.

Section RemDuplicatesCorrect.
Variable UINT_E_MAX : Z.
Variables schedule1 schedule2 : Z -> list Z.
Variables keys flags0 : mem Z.
Variables m n : Z.
Hypothesis schedule1_perm : Permutation (schedule1 m) (range 0 m).
Hypothesis schedule2_perm : Permutation (schedule2 m) (range 0 m).
Hypothesis m_fits : 0 <= m <= UINT_E_MAX.
Hypothesis keys_valid :
  forall i, 0 <= i < m -> 0 <= keys i < n \/ keys i = UINT_E_MAX.
Hypothesis flags_cleared : forall j, 0 <= j < n -> flags0 j = UINT_E_MAX.

(** The first loop. *)
Definition claim_body (i : Z) (flags : mem Z) : mem Z :=
  let key := keys i in
  if negb (key =? UINT_E_MAX) && (flags key =? UINT_E_MAX) then
    upd flags key (fst (CAS (flags key) UINT_E_MAX (to_uintE UINT_E_MAX i)))
  else flags.

(** After the entries of [done] have tried their CAS, a slot is untouched
    if no entry of [done] has its key, and otherwise holds the index of one
    of the entries of [done] that have its key. *)
Definition claimed (done : list Z) (flags : mem Z) : Prop :=
  forall j,
    (flags j = flags0 j /\
     forall i, In i done -> keys i = j -> j = UINT_E_MAX) \/
    (j <> UINT_E_MAX /\ exists w, In w done /\ keys w = j /\ flags j = w).

Lemma claim_phase :
  claimed (schedule1 m) (parallel_for (schedule1 m) claim_body flags0).
Proof.
  apply parallel_for_invariant.
  - apply (NoDup_schedule _ m schedule1_perm).
  - intros j. left. split; [reflexivity | intros i []].
  - intros done i fl Hinv Hi Hnew j.
    apply (in_schedule _ m i schedule1_perm) in Hi.
    assert (Hcast : to_uintE UINT_E_MAX i = i)
      by (unfold to_uintE; apply Z.mod_small; lia).
    unfold claim_body. cbv zeta.
    destruct (Z.eqb_spec (keys i) UINT_E_MAX) as [Hsent|Hkey]; cbn [negb andb].
    { destruct (Hinv j) as [[Hfl Hno]|(Hj & w & Hw & Hkw & Hfw)].
      - left. split; [exact Hfl|]. intros i' Hi' Hk.
        apply in_app_or in Hi'. destruct Hi' as [Hi'|[<-|[]]]; [eauto|congruence].
      - right. split; [exact Hj|]. exists w.
        split; [apply in_or_app; now left | easy]. }
    destruct (Z.eqb_spec (fl (keys i)) UINT_E_MAX) as [Hfree|Htaken].
    + rewrite Hfree. unfold CAS. rewrite Z.eqb_refl. cbn [fst]. rewrite Hcast.
      destruct (Z.eq_dec j (keys i)) as [->|Hj].
      * right. split; [exact Hkey|]. exists i.
        split; [apply in_or_app; right; now left|].
        split; [reflexivity | apply upd_same].
      * rewrite upd_other by exact Hj.
        destruct (Hinv j) as [[Hfl Hno]|(Hj' & w & Hw & Hkw & Hfw)].
        -- left. split; [exact Hfl|]. intros i' Hi' Hk.
           apply in_app_or in Hi'. destruct Hi' as [Hi'|[<-|[]]]; [eauto|congruence].
        -- right. split; [exact Hj'|]. exists w.
           split; [apply in_or_app; now left | easy].
    + destruct (Hinv j) as [[Hfl Hno]|(Hj' & w & Hw & Hkw & Hfw)].
      * left. split; [exact Hfl|]. intros i' Hi' Hk.
        apply in_app_or in Hi'. destruct Hi' as [Hi'|[<-|[]]]; [eauto|].
        exfalso. apply Htaken. rewrite Hk, Hfl. apply flags_cleared.
        destruct (keys_valid i Hi) as [Hv|Hv]; [now rewrite <- Hk | congruence].
      * right. split; [exact Hj'|]. exists w.
        split; [apply in_or_app; now left | easy].
Qed.
Let flags1 : mem Z := parallel_for (schedule1 m) claim_body flags0.

(** The second loop. *)
Definition reset_body (i : Z) (st : mem Z * mem Z) : mem Z * mem Z :=
  let '(get_key, flags) := st in
  let key := get_key i in
  if negb (key =? UINT_E_MAX) then
    if flags key =? i then (get_key, upd flags key UINT_E_MAX)
    else (upd get_key i UINT_E_MAX, flags)
  else (get_key, flags).

(** What entry [i] is left with: its key if it won its slot, the sentinel
    otherwise. *)
Definition outcome (i : Z) : Z :=
  if keys i =? UINT_E_MAX then UINT_E_MAX
  else if flags1 (keys i) =? i then keys i else UINT_E_MAX.

(** After the entries of [done] have looked at their slot: they hold their
    outcome and the other entries their key; a slot holds what the first
    loop left in it or the sentinel, the former if its winner has not run
    yet and the latter if it has. *)
Definition settled (done : list Z) (st : mem Z * mem Z) : Prop :=
  let '(ks, fl) := st in
  (forall i, ~ In i done -> ks i = keys i) /\
  (forall i, In i done -> ks i = outcome i) /\
  (forall j, fl j = flags1 j \/ fl j = UINT_E_MAX) /\
  (forall j, ~ In (flags1 j) done -> fl j = flags1 j) /\
  (forall w, In w done -> keys w <> UINT_E_MAX -> flags1 (keys w) = w ->
             fl (keys w) = UINT_E_MAX).

Lemma reset_phase :
  settled (schedule2 m) (parallel_for (schedule2 m) reset_body (keys, flags1)).
Proof.
  apply parallel_for_invariant.
  - apply (NoDup_schedule _ m schedule2_perm).
  - cbn. split; [reflexivity|]. split; [intros i []|].
    split; [now left|]. split; [reflexivity | intros w []].
  - intros done i [ks fl] (HA & HB & HC & HD & HE) Hi Hnew.
    apply (in_schedule _ m i schedule2_perm) in Hi.
    assert (Hin_app : forall x, In x (done ++ [i]) <-> In x done \/ x = i).
    { intros x. rewrite in_app_iff. cbn. intuition. }
    unfold reset_body. rewrite (HA i Hnew).
    destruct (Z.eqb_spec (keys i) UINT_E_MAX) as [Hsent|Hkey]; cbn [negb].
    { (* an entry that is already invalid *)
      cbn. repeat split.
      - intros x Hx. apply HA. rewrite Hin_app in Hx. tauto.
      - intros x Hx. apply Hin_app in Hx. destruct Hx as [Hx| ->]; [now apply HB|].
        rewrite (HA i Hnew). unfold outcome.
        destruct (Z.eqb_spec (keys i) UINT_E_MAX); congruence.
      - exact HC.
      - intros j Hj. apply HD. rewrite Hin_app in Hj. tauto.
      - intros w Hw Hkw Hfw. apply Hin_app in Hw.
        destruct Hw as [Hw| ->]; [now apply HE | contradiction]. }
    destruct (Z.eqb_spec (fl (keys i)) i) as [Hwin|Hlost].
    + (* win: reset the slot *)
      assert (Hw1 : flags1 (keys i) = i).
      { destruct (HC (keys i)) as [H|H]; [congruence | lia]. }
      cbn. repeat split.
      * intros x Hx. apply HA. rewrite Hin_app in Hx. tauto.
      * intros x Hx. apply Hin_app in Hx. destruct Hx as [Hx| ->]; [now apply HB|].
        rewrite (HA i Hnew). unfold outcome.
        destruct (Z.eqb_spec (keys i) UINT_E_MAX); [congruence|].
        destruct (Z.eqb_spec (flags1 (keys i)) i); congruence.
      * intros j. destruct (Z.eq_dec j (keys i)) as [->|Hj].
        -- right. apply upd_same.
        -- rewrite upd_other by exact Hj. apply HC.
      * intros j Hj. destruct (Z.eq_dec j (keys i)) as [->|Hjk].
        -- exfalso. apply Hj. apply Hin_app. right. exact Hw1.
        -- rewrite upd_other by exact Hjk. apply HD.
           rewrite Hin_app in Hj. tauto.
      * intros w Hw Hkw Hfw.
        destruct (Z.eq_dec (keys w) (keys i)) as [->|Hne].
        -- apply upd_same.
        -- rewrite upd_other by exact Hne. apply Hin_app in Hw.
           destruct Hw as [Hw| ->]; [now apply HE | contradiction].
    + (* lost: invalidate the entry *)
      assert (Hw1 : flags1 (keys i) <> i).
      { intros H. apply Hlost. rewrite <- H at 2. apply HD. now rewrite H. }
      cbn. repeat split.
      * intros x Hx. rewrite Hin_app in Hx.
        rewrite upd_other by tauto. apply HA. tauto.
      * intros x Hx. apply Hin_app in Hx. destruct Hx as [Hx| ->].
        -- rewrite upd_other by congruence. now apply HB.
        -- rewrite upd_same. unfold outcome.
           destruct (Z.eqb_spec (keys i) UINT_E_MAX); [congruence|].
           destruct (Z.eqb_spec (flags1 (keys i)) i); congruence.
      * exact HC.
      * intros j Hj. apply HD. rewrite Hin_app in Hj. tauto.
      * intros w Hw Hkw Hfw. apply Hin_app in Hw.
        destruct Hw as [Hw| ->]; [now apply HE | contradiction].
Qed.

Lemma remDuplicates_phases :
  remDuplicates UINT_E_MAX schedule1 schedule2 keys flags0 m n =
  parallel_for (schedule2 m) reset_body (keys, flags1).
Proof. reflexivity. Qed.

(** The postcondition of [remDuplicates]. *)
Lemma remDuplicates_post :
  let keys' := fst (remDuplicates UINT_E_MAX schedule1 schedule2 keys flags0 m n) in
  let flags' := snd (remDuplicates UINT_E_MAX schedule1 schedule2 keys flags0 m n) in
  (forall k, k <> UINT_E_MAX ->
     (exists i, 0 <= i < m /\ keys i = k) ->
     exists w, 0 <= w < m /\ keys w = k /\ keys' w = k /\
       (forall i, 0 <= i < m -> keys' i = k -> i = w) /\
       (forall i, 0 <= i < m -> keys i = k -> i <> w -> keys' i = UINT_E_MAX)) /\
  (forall i, 0 <= i < m -> keys' i = keys i \/ keys' i = UINT_E_MAX) /\
  (forall i, ~ 0 <= i < m -> keys' i = keys i) /\
  (forall j, 0 <= j < n -> flags' j = UINT_E_MAX).
Proof.
  cbv zeta. rewrite remDuplicates_phases.
  pose proof reset_phase as Hreset. pose proof claim_phase as Hclaim.
  fold flags1 in Hclaim.
  destruct (parallel_for (schedule2 m) reset_body (keys, flags1)) as [ks fl].
  destruct Hreset as (HA & HB & HC & HD & HE). cbn [fst snd].
  assert (Hin1 := fun i => in_schedule schedule1 m i schedule1_perm).
  assert (Hin2 := fun i => in_schedule schedule2 m i schedule2_perm).
  assert (Hout : forall i, 0 <= i < m -> ks i = outcome i)
    by (intros i Hi; apply HB, Hin2, Hi).
  repeat split.
  - intros k Hk (i0 & Hi0 & Hki0).
    destruct (Hclaim k) as [[_ Hno]|(_ & w & Hw & Hkw & Hfw)].
    { exfalso. apply Hk. apply (Hno i0); [now apply Hin1 | exact Hki0]. }
    apply Hin1 in Hw. exists w. split; [exact Hw|]. split; [exact Hkw|].
    assert (Hsel : forall i, 0 <= i < m -> ks i = k -> i = w).
    { intros i Hi Hksi. rewrite (Hout i Hi) in Hksi. unfold outcome in Hksi.
      destruct (Z.eqb_spec (keys i) UINT_E_MAX); [congruence|].
      destruct (Z.eqb_spec (flags1 (keys i)) i); congruence. }
    split; [|split; [exact Hsel|]].
    + rewrite (Hout w Hw). unfold outcome. rewrite Hkw.
      destruct (Z.eqb_spec k UINT_E_MAX); [congruence|].
      destruct (Z.eqb_spec (flags1 k) w); congruence.
    + intros i Hi Hki Hne. rewrite (Hout i Hi). unfold outcome. rewrite Hki.
      destruct (Z.eqb_spec k UINT_E_MAX); [congruence|].
      destruct (Z.eqb_spec (flags1 k) i); congruence.
  - intros i Hi. rewrite (Hout i Hi). unfold outcome.
    destruct (Z.eqb_spec (keys i) UINT_E_MAX); [now left|].
    destruct (Z.eqb_spec (flags1 (keys i)) i); [now left | now right].
  - intros i Hi. apply HA. now rewrite Hin2.
  - intros j Hj. destruct (Hclaim j) as [[Hfl _]|(Hne & w & Hw & Hkw & Hfw)].
    + destruct (HC j) as [H|H]; [|exact H].
      rewrite H, Hfl. now apply flags_cleared.
    + rewrite <- Hkw. apply HE.
      * apply Hin2. now apply Hin1.
      * congruence.
      * now rewrite Hkw.
Qed.
End RemDuplicatesCorrect.

(** C4, with the bound on [m] that it needs: for every [m <= UINT_E_MAX]
    entries whose keys lie in [[0, n)] or are the sentinel, and every flags
    array of length [n] cleared to the sentinel, after
    [remDuplicates(get_key, flags, m, n)]: for every key that appeared in
    at least one entry exactly one entry still carries that key, every
    other entry that carried it has the sentinel for a key, and every slot
    of the flags array is the sentinel again.  This holds for every order
    in which the iterations of the two parallel loops take effect.  The
    bound says that the entry indices fit the type of the flags and differ
    from the sentinel; with [UINT_E_MAX + 1] entries two entries can keep
    the same key. *)
Theorem remDuplicates_one_survivor (UINT_E_MAX : Z)
        (schedule1 schedule2 : Z -> list Z) (keys flags : mem Z) (m n : Z) :
  Permutation (schedule1 m) (range 0 m) ->
  Permutation (schedule2 m) (range 0 m) ->
  0 <= m <= UINT_E_MAX ->
  (forall i, 0 <= i < m -> 0 <= keys i < n \/ keys i = UINT_E_MAX) ->
  (forall j, 0 <= j < n -> flags j = UINT_E_MAX) ->
  let keys' := fst (remDuplicates UINT_E_MAX schedule1 schedule2 keys flags m n) in
  let flags' := snd (remDuplicates UINT_E_MAX schedule1 schedule2 keys flags m n) in
  (forall k, k <> UINT_E_MAX ->
     (exists i, 0 <= i < m /\ keys i = k) ->
     exists w, 0 <= w < m /\ keys' w = k /\
       (forall i, 0 <= i < m -> keys' i = k -> i = w) /\
       (forall i, 0 <= i < m -> keys i = k -> i <> w -> keys' i = UINT_E_MAX)) /\
  (forall j, 0 <= j < n -> flags' j = UINT_E_MAX).
Proof.
  intros Hs1 Hs2 Hm Hkeys Hflags keys' flags'.
  destruct (remDuplicates_post UINT_E_MAX schedule1 schedule2 keys flags m n
              Hs1 Hs2 Hm Hkeys Hflags) as (Hone & _ & _ & Hclear).
  split; [|exact Hclear].
  intros k Hk Hex. destruct (Hone k Hk Hex) as (w & Hw & _ & Hkw & Huniq & Hrest).
  exists w. auto.
Qed.

Lemma remDuplicates_one_survivor_witness :
  Permutation (in_order 5) (range 0 5) /\
  Permutation (rev (in_order 5)) (range 0 5) /\
  0 <= 5 <= 4294967295 /\
  (forall i, 0 <= i < 5 ->
     0 <= array_of 0 [2; 2; 1; 2; 1] i < 3 \/
     array_of 0 [2; 2; 1; 2; 1] i = 4294967295) /\
  (forall j, 0 <= j < 3 -> (fun _ : Z => 4294967295) j = 4294967295) /\
  snd (remDuplicates 4294967295 in_order (fun l => rev (in_order l))
         (array_of 0 [2; 2; 1; 2; 1]) (fun _ => 4294967295) 5 3) 2 = 4294967295.
Proof.
  assert (Hs1 : Permutation (in_order 5) (range 0 5)) by apply Permutation_refl.
  assert (Hs2 : Permutation (rev (in_order 5)) (range 0 5))
    by (apply Permutation_sym, Permutation_rev).
  assert (Hm : 0 <= 5 <= 4294967295) by lia.
  assert (Hk : forall i, 0 <= i < 5 ->
            0 <= array_of 0 [2; 2; 1; 2; 1] i < 3 \/
            array_of 0 [2; 2; 1; 2; 1] i = 4294967295).
  { intros i Hi. left.
    assert (Hc : i = 0 \/ i = 1 \/ i = 2 \/ i = 3 \/ i = 4) by lia.
    destruct Hc as [->|[->|[->|[->| ->]]]];
      match goal with
      | |- context [array_of ?d ?l ?i] =>
          let v := eval vm_compute in (array_of d l i) in
          change (array_of d l i) with v
      end; lia. }
  assert (Hf : forall j, 0 <= j < 3 -> (fun _ : Z => 4294967295) j = 4294967295)
    by reflexivity.
  split; [exact Hs1|]. split; [exact Hs2|]. split; [exact Hm|].
  split; [exact Hk|]. split; [exact Hf|].
  destruct (remDuplicates_one_survivor 4294967295 in_order
              (fun l => rev (in_order l)) (array_of 0 [2; 2; 1; 2; 1])
              (fun _ => 4294967295) 5 3 Hs1 Hs2 Hm Hk Hf) as [_ Hclear].
  apply Hclear. lia.
Defined.

Example remDuplicates_example :
  slice (fst (remDuplicates 4294967295 in_order (fun l => rev (in_order l))
                (array_of 0 [2; 2; 1; 2; 1]) (fun _ => 4294967295) 5 3)) 0 5 =
  [2; 4294967295; 1; 4294967295; 4294967295].
Proof. vm_compute. reflexivity. Qed.

(** ** remDuplicates with more entries than indices of the flags' type *)

Lemma fold_left_invariant {St} (P : St -> Prop) (body : St -> Z -> St) l st :
  P st -> (forall i st, In i l -> P st -> P (body st i)) ->
  P (fold_left body l st).
Proof.
  revert st. induction l as [|i l IH]; intros st Hst Hstep; cbn [fold_left].
  - exact Hst.
  - apply IH.
    + apply Hstep; [now left | exact Hst].
    + intros k st' Hk. apply Hstep. now right.
Qed.

(** With [UINT_E_MAX + 1] entries the last index is the sentinel itself:
    the entry that has it leaves no mark in the slot of its key, and finds
    there, once the winner has reset the slot, what it takes for its own
    index.  Here entries [0] and [UINT_E_MAX] have the key [0], the other
    entries have no key, and the loops run in index order: both entries
    keep the key. *)
Lemma remDuplicates_index_wraps MAX :
  1 <= MAX ->
  let keys : mem Z := fun i => if (i =? 0) || (i =? MAX) then 0 else MAX in
  let keys' := fst (remDuplicates MAX in_order in_order keys (fun _ => MAX)
                      (MAX + 1) 1) in
  (forall i, 0 <= i < MAX + 1 -> 0 <= keys i < 1 \/ keys i = MAX) /\
  keys' 0 = 0 /\ keys' MAX = 0.
Proof.
  intros HM keys keys'.
  assert (Hk0 : keys 0 = 0) by reflexivity.
  assert (HkM : keys MAX = 0).
  { unfold keys. rewrite (Z.eqb_refl MAX). now rewrite orb_true_r. }
  assert (Hmid : forall i, 1 <= i < MAX -> keys i = MAX).
  { intros i Hi. unfold keys.
    destruct (Z.eqb_spec i 0), (Z.eqb_spec i MAX); cbn [orb]; lia. }
  assert (Hne : (0 =? MAX) = false) by (apply Z.eqb_neq; lia).
  split.
  { intros i Hi. destruct (Z.eq_dec i 0) as [->|]; [left; rewrite Hk0; lia|].
    destruct (Z.eq_dec i MAX) as [->|]; [left; rewrite HkM; lia|].
    right. apply Hmid. lia. }
  unfold keys', remDuplicates, in_order, parallel_for.
  match goal with
  | |- context [fold_left ?f (range 0 (MAX + 1)) (fun _ => MAX)] =>
      set (flags1 := fold_left f (range 0 (MAX + 1)) (fun _ => MAX))
  end.
  assert (HF : flags1 0 = 0).
  { unfold flags1. rewrite (range_cons 0 (MAX + 1)) by lia. cbn [fold_left].
    apply (fold_left_invariant (fun fl : mem Z => fl 0 = 0)).
    - rewrite Hk0, Hne, Z.eqb_refl. cbn [negb andb]. rewrite upd_same.
      unfold CAS. rewrite Z.eqb_refl. cbn [fst]. unfold to_uintE.
      apply Z.mod_0_l. lia.
    - intros i fl Hi Hfl. apply in_range in Hi. cbv beta.
      destruct (Z.eq_dec i MAX) as [->|Hi'].
      + rewrite HkM, Hfl, Hne. cbn [negb andb]. exact Hfl.
      + rewrite Hmid by lia. rewrite Z.eqb_refl. cbn [negb andb]. exact Hfl. }
  rewrite (range_cons 0 (MAX + 1)) by lia. cbn [fold_left].
  rewrite Hk0, Hne, HF. cbn [negb]. rewrite Z.eqb_refl.
  match goal with
  | |- @fst _ _ ?t 0 = 0 /\ _ => set (R := t)
  end.
  assert (G : fst R = keys /\ snd R 0 = MAX).
  { unfold R.
    apply (fold_left_invariant
             (fun st : mem Z * mem Z => fst st = keys /\ snd st 0 = MAX)).
    - split; [reflexivity | apply upd_same].
    - intros i [ks fl] Hi [Hks Hfl]. cbn [fst snd] in Hks, Hfl. subst ks.
      apply in_range in Hi.
      destruct (Z.eq_dec i MAX) as [->|Hi'].
      + rewrite HkM, Hne, Hfl, Z.eqb_refl. cbn [negb fst snd].
        split; [reflexivity | apply upd_same].
      + rewrite Hmid by lia. rewrite Z.eqb_refl. cbn [negb fst snd].
        split; [reflexivity | exact Hfl]. }
  destruct G as [G _].
  pose proof (f_equal (fun k : mem Z => k 0) G) as G0.
  pose proof (f_equal (fun k : mem Z => k MAX) G) as GM.
  cbv beta in G0, GM. rewrite Hk0 in G0. rewrite HkM in GM.
  split; [exact G0 | exact GM].
Qed.

(** The bound [m <= UINT_E_MAX] is needed: with a 32-bit [uintE] and
    [m = 2^32] entries, of which entries [0] and [4294967295] have the key
    [0] and the others none, the keys lie in [[0, 1)] or are the sentinel
    and the flags are cleared, and after the call, with both loops run in
    index order, two entries still carry the key [0]. *)
Lemma remDuplicates_two_survivors :
  let keys : mem Z :=
    fun i => if (i =? 0) || (i =? 4294967295) then 0 else 4294967295 in
  let flags : mem Z := fun _ => 4294967295 in
  let keys' := fst (remDuplicates 4294967295 in_order in_order keys flags
                      4294967296 1) in
  (forall i, 0 <= i < 4294967296 ->
     0 <= keys i < 1 \/ keys i = 4294967295) /\
  (forall j, 0 <= j < 1 -> flags j = 4294967295) /\
  0 <= 0 < 4294967296 /\ 0 <= 4294967295 < 4294967296 /\
  0 <> 4294967295 /\
  keys 0 = 0 /\ keys 4294967295 = 0 /\
  keys' 0 = 0 /\ keys' 4294967295 = 0.
Proof.
  destruct (remDuplicates_index_wraps 4294967295 ltac:(lia)) as (Hv & H0 & HM).
  cbv zeta. split; [exact Hv|]. split; [reflexivity|].
  split; [lia|]. split; [lia|]. split; [lia|].
  split; [reflexivity|]. split; [reflexivity|].
  split; [exact H0 | exact HM].
Qed.

Lemma scan_in_place_witness :
  (forall l, Permutation (in_order l) (range 0 l)) /\
  (forall a b c, Z.add (Z.add a b) c = Z.add a (Z.add b c)) /\
  let inplace := sequence.scan_array in_order (fun _ => 0)
                   (sequence.SameBlock 0) (array_of 0 [3; 1; 4; 1; 5]) 5 Z.add 0 in
  let fresh := sequence.scan_array in_order (fun _ => 0)
                 (sequence.OtherBlock (array_of 0 [3; 1; 4; 1; 5]))
                 (fun _ => 7) 5 Z.add 0 in
  fst inplace 4 = fst fresh 4 /\ snd inplace = snd fresh.
Proof.
  assert (Hs : forall l, Permutation (in_order l) (range 0 l))
    by (intros l; apply Permutation_refl).
  assert (Ha : forall a b c, Z.add (Z.add a b) c = Z.add a (Z.add b c))
    by (intros; lia).
  split; [exact Hs|]. split; [exact Ha|].
  destruct (scan_in_place in_order (fun _ => 0) (fun _ => 0) Z.add
              (array_of 0 [3; 1; 4; 1; 5]) (fun _ => 7) 5 0 (fun _ => 0) 0 Hs Ha)
    as (Hcells & Htotal & _).
  cbv zeta. split; [apply Hcells; lia | exact Htotal].
Defined.

(** * Further properties *)

(** ** The front ends of reduce *)

Lemma slice_map {A B} (g : A -> B) (M : mem A) s e :
  slice (fun i => g (M i)) s e = map g (slice M s e).
Proof. unfold slice. now rewrite map_map. Qed.

Lemma fold_left_addF_count (F : mem bool) l acc :
  fold_left sequence.addF (map (sequence.boolGetA F) l) acc =
  acc + Z.of_nat (length (filter F l)).
Proof.
  revert acc. induction l as [|i l IH]; intros acc; cbn [map fold_left filter].
  - cbn. lia.
  - rewrite IH. unfold sequence.addF, sequence.boolGetA.
    destruct (F i); cbn [Z.b2z length]; lia.
Qed.

Section Wrapped.
(** The reduction of an integer type: a sum is reduced the same whether
    or not its terms were reduced before. *)
Variable wrap : Z -> Z.
Hypothesis wrap_add_l : forall x y, wrap (wrap x + y) = wrap (x + y).
Hypothesis wrap_add_r : forall x y, wrap (x + wrap y) = wrap (x + y).

Lemma wrap_idem x : wrap (wrap x) = wrap x.
Proof.
  transitivity (wrap (wrap x + 0)); [now rewrite Z.add_0_r|].
  rewrite wrap_add_l. now rewrite Z.add_0_r.
Qed.

Lemma addF_at_assoc a b c :
  sequence.addF_at wrap (sequence.addF_at wrap a b) c =
  sequence.addF_at wrap a (sequence.addF_at wrap b c).
Proof.
  unfold sequence.addF_at. rewrite wrap_add_l, wrap_add_r. f_equal. lia.
Qed.

Lemma fold_left_addF_at_sum l acc :
  wrap acc = acc ->
  fold_left (sequence.addF_at wrap) l acc = wrap (acc + fold_right Z.add 0 l).
Proof.
  revert acc. induction l as [|x l IH]; intros acc Hacc;
    cbn [fold_left fold_right].
  - now rewrite Z.add_0_r, Hacc.
  - rewrite IH by (unfold sequence.addF_at; apply wrap_idem).
    unfold sequence.addF_at. rewrite wrap_add_l. f_equal. lia.
Qed.

(** The casts of the terms of a sum do not change the reduced sum. *)
Lemma wrap_sum_flagged {vertex} (getOutDegree : vertex -> Z) (V : mem vertex)
      (activeV : mem bool) l acc :
  wrap (acc + fold_right Z.add 0
                (map (sequence.getDegree wrap getOutDegree V activeV) l)) =
  wrap (acc + fold_right Z.add 0
                (map (fun i => getOutDegree (V i)) (filter activeV l))).
Proof.
  revert acc. induction l as [|i l IH]; intros acc; [reflexivity|].
  cbn [map filter fold_right]. unfold sequence.getDegree at 1.
  destruct (activeV i); cbn [map fold_right].
  - rewrite !Z.add_assoc. rewrite IH.
    rewrite (Z.add_comm acc (wrap _)), <- Z.add_assoc, wrap_add_l.
    f_equal. lia.
  - rewrite Z.add_0_l. apply IH.
Qed.
End Wrapped.



(** X2: [sum(In, n)] of [n >= 1] flags is the number of flags that are
    set, in whatever order the blocks of the parallel path run. *)
Theorem sum_counts_set_flags schedule (uninit : mem Z) (In : mem bool) n :
  (forall l, Permutation (schedule l) (range 0 l)) ->
  1 <= n ->
  sequence.sum schedule uninit In n = count_true In 0 n.
Proof.
  intros Hs Hn. unfold sequence.sum.
  rewrite (reduce_reduceSerial sequence.addF addF_assoc schedule Hs) by lia.
  rewrite reduceSerial_fold. unfold slice at 1.
  rewrite fold_left_addF_count. unfold count_true.
  rewrite (range_cons 0 n) by lia. cbn [filter].
  unfold sequence.boolGetA.
  destruct (In 0); cbn [Z.b2z length]; lia.
Qed.

Lemma sum_counts_set_flags_witness :
  (forall l, Permutation (in_order l) (range 0 l)) /\ 1 <= 4 /\
  sequence.sum in_order (fun _ => 0)
    (array_of false [true; false; true; true]) 4 = 3.
Proof.
  assert (Hs : forall l, Permutation (in_order l) (range 0 l))
    by (intros l; apply Permutation_refl).
  split; [exact Hs|]. split; [lia|].
  exact (sum_counts_set_flags in_order (fun _ => 0)
           (array_of false [true; false; true; true]) 4 Hs ltac:(lia)).
Defined.

(** X3: [mapReduce(A, n, f, g)] with an associative [f] and [n >= 1]
    returns the left fold by [f] of the images by [g] of [A[0..n)], in
    array order, each element being mapped once. *)
Theorem mapReduce_folds_images {IT OT} schedule (uninit : mem OT)
        (A : mem IT) n (f : OT -> OT -> OT) (g : IT -> OT) :
  (forall l, Permutation (schedule l) (range 0 l)) ->
  (forall a b c, f (f a b) c = f a (f b c)) ->
  1 <= n ->
  sequence.mapReduce schedule uninit A n f g =
  fold_left f (map g (slice A 1 n)) (g (A 0)).
Proof.
  intros Hs Ha Hn. unfold sequence.mapReduce.
  rewrite (reduce_reduceSerial f Ha schedule Hs) by lia.
  rewrite reduceSerial_fold. unfold sequence.getAF.
  now rewrite (slice_map g A).
Qed.

Lemma mapReduce_folds_images_witness :
  (forall l, Permutation (in_order l) (range 0 l)) /\
  (forall a b c, Z.max (Z.max a b) c = Z.max a (Z.max b c)) /\
  1 <= 3 /\
  sequence.mapReduce in_order (fun _ => 0) (array_of 0 [3; -7; 5]) 3
    Z.max Z.abs = 7.
Proof.
  assert (Hs : forall l, Permutation (in_order l) (range 0 l))
    by (intros l; apply Permutation_refl).
  assert (Ha : forall a b c, Z.max (Z.max a b) c = Z.max a (Z.max b c))
    by (intros; lia).
  split; [exact Hs|]. split; [exact Ha|]. split; [lia|].
  exact (mapReduce_folds_images in_order (fun _ => 0) (array_of 0 [3; -7; 5]) 3
           Z.max Z.abs Hs Ha ltac:(lia)).
Defined.

(** X4: [plusReduce(A, n)] and [plusReduceDegree(A, activeV, n)] in the
    arithmetic of their integer type, whose results are reduced by [wrap]
    ([x mod 2^w] at an unsigned type of [w] bits), for [n >= 1] values of
    that type and every order of the blocks: [plusReduce] returns the sum
    of [A[0..n)] reduced once, and [plusReduceDegree] the reduced sum of
    the out-degrees of the active vertices among the first [n]; so the
    exact sum when it is a value of the type, and the wrapped one
    otherwise. *)
Theorem plusReduce_sums {vertex} schedule (uninit : mem Z) (wrap : Z -> Z)
        (A : mem Z) (getOutDegree : vertex -> Z) (V : mem vertex)
        (activeV : mem bool) n :
  (forall l, Permutation (schedule l) (range 0 l)) ->
  (forall x y, wrap (wrap x + y) = wrap (x + y)) ->
  (forall x y, wrap (x + wrap y) = wrap (x + y)) ->
  wrap 0 = 0 ->
  1 <= n ->
  (forall i, 0 <= i < n -> wrap (A i) = A i) ->
  sequence.plusReduce schedule uninit wrap A n =
    wrap (fold_right Z.add 0 (slice A 0 n)) /\
  sequence.plusReduceDegree schedule uninit wrap getOutDegree V activeV n =
    wrap (fold_right Z.add 0
            (map (fun i => getOutDegree (V i)) (flagged activeV 0 n))).
Proof.
  intros Hs Hl Hr H0 Hn HA.
  unfold sequence.plusReduce, sequence.plusReduceDegree.
  rewrite !(reduce_reduceSerial (sequence.addF_at wrap)
              (addF_at_assoc wrap Hl Hr) schedule Hs) by lia.
  rewrite !reduceSerial_fold. split.
  - rewrite (fold_left_addF_at_sum wrap Hl) by (apply HA; lia).
    rewrite (slice_cons A 0 n) by lia. reflexivity.
  - assert (Hg0 : wrap (sequence.getDegree wrap getOutDegree V activeV 0) =
                  sequence.getDegree wrap getOutDegree V activeV 0).
    { unfold sequence.getDegree. destruct (activeV 0);
        [apply (wrap_idem wrap Hl) | exact H0]. }
    rewrite (fold_left_addF_at_sum wrap Hl) by exact Hg0.
    unfold slice. rewrite (wrap_sum_flagged wrap Hl).
    unfold flagged. rewrite (range_cons 0 n) by lia. cbn [filter].
    unfold sequence.getDegree. destruct (activeV 0); cbn [map fold_right].
    + now rewrite Hl.
    + reflexivity.
Qed.

Lemma plusReduce_sums_witness :
  (forall l, Permutation (in_order l) (range 0 l)) /\
  (forall x y, (x mod 2 ^ 32 + y) mod 2 ^ 32 = (x + y) mod 2 ^ 32) /\
  (forall x y, (x + y mod 2 ^ 32) mod 2 ^ 32 = (x + y) mod 2 ^ 32) /\
  0 mod 2 ^ 32 = 0 /\ 1 <= 2 /\
  sequence.plusReduce in_order (fun _ => 0) (fun x => x mod 2 ^ 32)
    (array_of 0 [4294967295; 1]) 2 = 0 /\
  sequence.plusReduceDegree in_order (fun _ => 0) (fun x => x mod 2 ^ 32)
    (fun v : list Z => Z.of_nat (length v))
    (array_of [] [[1; 2]; [3]; [4; 5; 6]]) (array_of false [true; false])
    2 = 2.
Proof.
  assert (Hs : forall l, Permutation (in_order l) (range 0 l))
    by (intros l; apply Permutation_refl).
  assert (Hl : forall x y, (x mod 2 ^ 32 + y) mod 2 ^ 32 = (x + y) mod 2 ^ 32)
    by (intros; apply Zplus_mod_idemp_l).
  assert (Hr : forall x y, (x + y mod 2 ^ 32) mod 2 ^ 32 = (x + y) mod 2 ^ 32)
    by (intros; apply Zplus_mod_idemp_r).
  split; [exact Hs|]. split; [exact Hl|]. split; [exact Hr|].
  split; [reflexivity|]. split; [lia|].
  refine (plusReduce_sums in_order (fun _ => 0) (fun x => x mod 2 ^ 32)
            (array_of 0 [4294967295; 1])
            (fun v : list Z => Z.of_nat (length v))
            (array_of [] [[1; 2]; [3]; [4; 5; 6]])
            (array_of false [true; false]) 2 Hs Hl Hr eq_refl ltac:(lia) _).
  intros i Hi. assert (i = 0 \/ i = 1) as [-> | ->] by lia; reflexivity.
Defined.

(** ** reduce with the functors minF and maxF *)

Lemma fold_left_select {T} (f : T -> T -> T) l a :
  (forall a b, f a b = a \/ f a b = b) ->
  fold_left f l a = a \/ In (fold_left f l a) l.
Proof.
  intros Hsel. revert a. induction l as [|x l IH]; intros a; cbn [fold_left].
  - now left.
  - destruct (IH (f a x)) as [H|H].
    + rewrite H. destruct (Hsel a x) as [E|E]; rewrite E; [now left|].
      right. now left.
    + right. now right.
Qed.

Lemma fold_left_minF_lower l a :
  fold_left minF l a <= a /\ forall x, In x l -> fold_left minF l a <= x.
Proof.
  revert a. induction l as [|x l IH]; intros a; cbn [fold_left].
  - split; [lia|]. intros x [].
  - destruct (IH (minF a x)) as [H1 H2].
    assert (minF a x <= a /\ minF a x <= x)
      by (unfold minF; destruct (Z.ltb_spec a x); lia).
    split; [lia|]. intros y [<-|Hy]; [lia|]. now apply H2.
Qed.

Lemma fold_left_maxF_upper l a :
  a <= fold_left maxF l a /\ forall x, In x l -> x <= fold_left maxF l a.
Proof.
  revert a. induction l as [|x l IH]; intros a; cbn [fold_left].
  - split; [lia|]. intros x [].
  - destruct (IH (maxF a x)) as [H1 H2].
    assert (a <= maxF a x /\ x <= maxF a x)
      by (unfold maxF; destruct (Z.gtb_spec a x); lia).
    split; [lia|]. intros y [<-|Hy]; [lia|]. now apply H2.
Qed.

Lemma minF_min a b : minF a b = Z.min a b.
Proof. unfold minF. destruct (Z.ltb_spec a b); lia. Qed.

Lemma maxF_max a b : maxF a b = Z.max a b.
Proof. unfold maxF. destruct (Z.gtb_spec a b); lia. Qed.

Lemma minF_assoc a b c : minF (minF a b) c = minF a (minF b c).
Proof. rewrite !minF_min. lia. Qed.

Lemma maxF_assoc a b c : maxF (maxF a b) c = maxF a (maxF b c).
Proof. rewrite !maxF_max. lia. Qed.

Lemma in_slice {T} (A : mem T) s e x :
  In x (slice A s e) <-> exists i, s <= i < e /\ x = A i.
Proof.
  unfold slice. rewrite in_map_iff. split.
  - intros (i & <- & Hi). exists i. now rewrite <- in_range.
  - intros (i & Hi & ->). exists i. now rewrite in_range.
Qed.

(** X5: [reduce(A, n, minF)] returns the least and [reduce(A, n, maxF)]
    the greatest element of [A[0..n)], for [n >= 1] and in whatever order
    the blocks run: the result is an element of the array and bounds all
    of them. *)
Theorem reduce_minF_maxF_extrema schedule (uninit : mem Z) (A : mem Z) n :
  (forall l, Permutation (schedule l) (range 0 l)) ->
  1 <= n ->
  let lo := sequence.reduce_array schedule uninit A n minF in
  let hi := sequence.reduce_array schedule uninit A n maxF in
  (exists i, 0 <= i < n /\ lo = A i) /\
  (exists i, 0 <= i < n /\ hi = A i) /\
  forall i, 0 <= i < n -> lo <= A i <= hi.
Proof.
  intros Hs Hn. cbv zeta. unfold sequence.reduce_array.
  rewrite (reduce_reduceSerial minF minF_assoc schedule Hs) by lia.
  rewrite (reduce_reduceSerial maxF maxF_assoc schedule Hs) by lia.
  rewrite !reduceSerial_fold. unfold sequence.getA.
  change (fun i => A i) with A. change (0 + 1) with 1.
  split; [|split].
  - destruct (fold_left_select minF (slice A 1 n) (A 0)) as [H|H].
    + intros a b. unfold minF. destruct (a <? b); auto.
    + exists 0. split; [lia|exact H].
    + apply in_slice in H. destruct H as (i & Hi & H). exists i.
      split; [lia|exact H].
  - destruct (fold_left_select maxF (slice A 1 n) (A 0)) as [H|H].
    + intros a b. unfold maxF. destruct (a >? b); auto.
    + exists 0. split; [lia|exact H].
    + apply in_slice in H. destruct H as (i & Hi & H). exists i.
      split; [lia|exact H].
  - intros i Hi.
    destruct (fold_left_minF_lower (slice A 1 n) (A 0)) as [L0 L].
    destruct (fold_left_maxF_upper (slice A 1 n) (A 0)) as [U0 U].
    destruct (Z.eq_dec i 0) as [->|Hi0]; [lia|].
    assert (Hin : In (A i) (slice A 1 n))
      by (apply in_slice; exists i; split; [lia|reflexivity]).
    specialize (L _ Hin). specialize (U _ Hin). lia.
Qed.

Lemma reduce_minF_maxF_extrema_witness :
  (forall l, Permutation (in_order l) (range 0 l)) /\ 1 <= 4 /\
  sequence.reduce_array in_order (fun _ => 0) (array_of 0 [3; -7; 5; 2]) 4 minF
    <= array_of 0 [3; -7; 5; 2] 2
    <= sequence.reduce_array in_order (fun _ => 0) (array_of 0 [3; -7; 5; 2]) 4 maxF.
Proof.
  assert (Hs : forall l, Permutation (in_order l) (range 0 l))
    by (intros l; apply Permutation_refl).
  split; [exact Hs|]. split; [lia|].
  destruct (reduce_minF_maxF_extrema in_order (fun _ => 0)
              (array_of 0 [3; -7; 5; 2]) 4 Hs ltac:(lia)) as (_ & _ & H).
  apply H. lia.
Defined.

(** ** What scan leaves alone, and how its modes relate *)

Lemma fold_left_frame {T R} (body : Z -> mem T * R -> mem T * R) l j :
  (forall i st, In i l -> fst (body i st) j = fst st j) ->
  forall st, fst (fold_left (fun st i => body i st) l st) j = fst st j.
Proof.
  induction l as [|i l IH]; intros Hb st; cbn [fold_left].
  - reflexivity.
  - rewrite IH by (intros k st' Hk; apply Hb; now right).
    apply Hb. now left.
Qed.

Lemma parallel_for_frame {T} (body : Z -> mem T -> mem T) sched j :
  (forall i st, In i sched -> body i st j = st j) ->
  forall st, parallel_for sched body st j = st j.
Proof.
  unfold parallel_for.
  induction sched as [|i l IH]; intros Hb st; cbn [fold_left].
  - reflexivity.
  - rewrite IH by (intros k st' Hk; apply Hb; now right).
    apply Hb. now left.
Qed.

(** [scanSerial] stores into the cells of its range only, whatever the
    combiner, the accessor and the mode. *)
Lemma scanSerial_frame {ET} (f : ET -> ET -> ET) Out s e g zero inclusive back j :
  ~ s <= j < e ->
  fst (sequence.scanSerial Out s e f g zero inclusive back) j = Out j.
Proof.
  intros Hj. unfold sequence.scanSerial.
  destruct inclusive, back; rewrite ?for_up_fold, ?for_down_fold;
    (rewrite fold_left_frame; [reflexivity|]);
    intros i [O r] Hi; rewrite <- ?in_rev in Hi; apply in_range in Hi;
    cbn [fst]; apply upd_other; lia.
Qed.

(** X6: [scan], in each of its four modes and for any combiner and
    accessor, stores into no cell of the destination outside [[s, e)],
    on the serial path and on the blocked path alike. *)
Theorem scan_writes_only_its_range {ET} schedule (uninit : mem ET)
        (f : ET -> ET -> ET) Out s e g zero inclusive back j :
  (forall l, Permutation (schedule l) (range 0 l)) ->
  ~ s <= j < e ->
  fst (sequence.scan schedule uninit Out s e f g zero inclusive back) j = Out j.
Proof.
  intros Hs Hj. rewrite scan_unfold.
  destruct (Z.leb_spec (nblocks (e - s) _SCAN_BSIZE) 2) as [Hl|Hl].
  - now apply scanSerial_frame.
  - unfold sequence.scan_block_path. cbv zeta. cbn [fst].
    unfold blocked_for at 1. apply parallel_for_frame.
    intros i st Hi. apply scanSerial_frame.
    apply (in_schedule schedule _ i (Hs _)) in Hi.
    pose proof _SCAN_BSIZE_ge2. nia.
Qed.

Lemma scan_writes_only_its_range_witness :
  (forall l, Permutation (in_order l) (range 0 l)) /\ ~ 1 <= 4 < 4 /\
  fst (sequence.scan in_order (fun _ => 0) (array_of 0 [9; 8; 7; 6; 5]) 1 4
         Z.sub (sequence.getA_at (sequence.SameBlock 1)) 0 true true) 4 = 5.
Proof.
  assert (Hs : forall l, Permutation (in_order l) (range 0 l))
    by (intros l; apply Permutation_refl).
  split; [exact Hs|]. split; [lia|].
  exact (scan_writes_only_its_range in_order (fun _ => 0) Z.sub
           (array_of 0 [9; 8; 7; 6; 5]) 1 4
           (sequence.getA_at (sequence.SameBlock 1)) 0 true true 4 Hs
           ltac:(lia)).
Defined.

(** X7: with an associative combiner the forward [scan] computes what
    [scanSerial] computes: the same destination, cell by cell, and the
    same total, in exclusive and in inclusive mode and whether the input
    is the destination or another array. *)
Theorem scan_agrees_with_scanSerial {ET} schedule (uninit : mem ET)
        (f : ET -> ET -> ET) (In : sequence.inptr) Out n zero inclusive :
  (forall l, Permutation (schedule l) (range 0 l)) ->
  (forall a b c, f (f a b) c = f a (f b c)) ->
  In = sequence.SameBlock 0 \/ (exists A, In = sequence.OtherBlock A) ->
  let par := sequence.scan schedule uninit Out 0 n f (sequence.getA_at In)
               zero inclusive false in
  let ser := sequence.scanSerial Out 0 n f (sequence.getA_at In)
               zero inclusive false in
  (forall i, fst par i = fst ser i) /\ snd par = snd ser.
Proof.
  intros Hs Ha HIn.
  assert (Hg : local_accessor (sequence.getA_at In)).
  { destruct HIn as [->|[A ->]];
      [apply getA_at_same_local | apply getA_at_other_local]. }
  cbv zeta.
  destruct (scan_forward f Ha schedule Hs uninit Out 0 n
              (sequence.getA_at In) zero inclusive Hg) as [Pt Pc].
  destruct (scanSerial_forward f Out 0 n (sequence.getA_at In) zero inclusive Hg)
    as [St Sc].
  split; [|congruence].
  intros i. destruct (Pc i) as [P1 P2], (Sc i) as [S1 S2].
  destruct (Z_le_gt_dec 0 i), (Z_lt_le_dec i n);
    try (rewrite P2, S2 by lia; reflexivity).
  rewrite P1, S1 by lia. reflexivity.
Qed.

Lemma scan_agrees_with_scanSerial_witness :
  (forall l, Permutation (in_order l) (range 0 l)) /\
  (forall a b c, last_wins (last_wins a b) c = last_wins a (last_wins b c)) /\
  fst (sequence.scan in_order (fun _ => 0) (array_of 0 [3; 1; 4; 1; 5]) 0 5
         last_wins (sequence.getA_at (sequence.SameBlock 0)) 0 true false) 2 =
  fst (sequence.scanSerial (array_of 0 [3; 1; 4; 1; 5]) 0 5
         last_wins (sequence.getA_at (sequence.SameBlock 0)) 0 true false) 2.
Proof.
  assert (Hs : forall l, Permutation (in_order l) (range 0 l))
    by (intros l; apply Permutation_refl).
  assert (Ha : forall a b c,
             last_wins (last_wins a b) c = last_wins a (last_wins b c))
    by reflexivity.
  split; [exact Hs|]. split; [exact Ha|].
  destruct (scan_agrees_with_scanSerial in_order (fun _ => 0) last_wins
              (sequence.SameBlock 0) (array_of 0 [3; 1; 4; 1; 5]) 5 0 true
              Hs Ha (or_introl eq_refl)) as [H _].
  exact (H 2).
Defined.

(** X8: [scanI] against [scan], for an associative combiner.  Cell [i] of
    the inclusive scan is cell [i] of the exclusive scan combined with
    [In[i]]; both return the same total, and the last cell of the
    inclusive scan holds it. *)
Theorem scanI_extends_scan {ET} schedule (uninit : mem ET)
        (f : ET -> ET -> ET) (A Out Out' : mem ET) n zero :
  (forall l, Permutation (schedule l) (range 0 l)) ->
  (forall a b c, f (f a b) c = f a (f b c)) ->
  1 <= n ->
  let incl := sequence.scanI schedule uninit (sequence.OtherBlock A) Out n f zero in
  let excl := sequence.scan_array schedule uninit (sequence.OtherBlock A) Out' n f zero in
  (forall i, 0 <= i < n -> fst incl i = f (fst excl i) (A i)) /\
  snd incl = snd excl /\
  fst incl (n - 1) = snd incl.
Proof.
  intros Hs Ha Hn. cbv zeta. unfold sequence.scanI, sequence.scan_array.
  destruct (scan_forward f Ha schedule Hs uninit Out 0 n
              (sequence.getA_at (sequence.OtherBlock A)) zero true
              (getA_at_other_local A)) as [It Ic].
  destruct (scan_forward f Ha schedule Hs uninit Out' 0 n
              (sequence.getA_at (sequence.OtherBlock A)) zero false
              (getA_at_other_local A)) as [Et Ec].
  rewrite !slice_getA_other in *.
  split; [|split].
  - intros i Hi. destruct (Ic i) as [I1 _], (Ec i) as [E1 _].
    rewrite I1, E1 by lia. rewrite !slice_getA_other.
    rewrite (slice_snoc A 0 (i + 1)) by lia.
    replace (i + 1 - 1) with i by lia.
    now rewrite fold_left_app.
  - congruence.
  - destruct (Ic (n - 1)) as [I1 _]. rewrite I1 by lia.
    rewrite It, slice_getA_other. now replace (n - 1 + 1) with n by lia.
Qed.

Lemma scanI_extends_scan_witness :
  (forall l, Permutation (in_order l) (range 0 l)) /\
  (forall a b c, Z.add (Z.add a b) c = Z.add a (Z.add b c)) /\
  1 <= 5 /\
  fst (sequence.scanI in_order (fun _ => 0)
         (sequence.OtherBlock (array_of 0 [3; 1; 4; 1; 5])) (fun _ => 0) 5
         Z.add 0) 4 = 14.
Proof.
  assert (Hs : forall l, Permutation (in_order l) (range 0 l))
    by (intros l; apply Permutation_refl).
  assert (Ha : forall a b c, Z.add (Z.add a b) c = Z.add a (Z.add b c))
    by (intros; lia).
  split; [exact Hs|]. split; [exact Ha|]. split; [lia|].
  destruct (scanI_extends_scan in_order (fun _ => 0) Z.add
              (array_of 0 [3; 1; 4; 1; 5]) (fun _ => 0) (fun _ => 0) 5 0
              Hs Ha ltac:(lia)) as (_ & _ & H).
  exact H.
Defined.

(** X9: [scanBack] and [scanIBack] with a combiner that is associative
    and commutative.  Cell [i] holds the seed combined with the elements
    after [i] (from [i] on when inclusive), taken from the last one down,
    the total is the fold of the whole array from the last element down,
    and no other cell is written, in whatever order the blocks run. *)
Theorem scanBack_suffix_folds {ET} schedule (uninit : mem ET)
        (f : ET -> ET -> ET) (A Out : mem ET) n zero :
  (forall l, Permutation (schedule l) (range 0 l)) ->
  (forall a b c, f (f a b) c = f a (f b c)) ->
  (forall a b, f a b = f b a) ->
  let excl := sequence.scanBack schedule uninit (sequence.OtherBlock A) Out n f zero in
  let incl := sequence.scanIBack schedule uninit (sequence.OtherBlock A) Out n f zero in
  (forall i, 0 <= i < n ->
     fst excl i = fold_left f (rev (slice A (i + 1) n)) zero /\
     fst incl i = fold_left f (rev (slice A i n)) zero) /\
  (forall i, ~ 0 <= i < n -> fst excl i = Out i /\ fst incl i = Out i) /\
  snd excl = fold_left f (rev (slice A 0 n)) zero /\
  snd incl = snd excl.
Proof.
  intros Hs Ha Hc. cbv zeta. unfold sequence.scanBack, sequence.scanIBack.
  destruct (scan_backward f Ha Hc schedule Hs uninit Out 0 n
              (sequence.getA_at (sequence.OtherBlock A)) zero false
              (getA_at_other_local A)) as [Et Ec].
  destruct (scan_backward f Ha Hc schedule Hs uninit Out 0 n
              (sequence.getA_at (sequence.OtherBlock A)) zero true
              (getA_at_other_local A)) as [It Ic].
  rewrite !slice_getA_other in *.
  split; [|split; [|split]].
  - intros i Hi. destruct (Ec i) as [E1 _], (Ic i) as [I1 _].
    rewrite E1, I1 by lia. now rewrite !slice_getA_other.
  - intros i Hi. destruct (Ec i) as [_ E2], (Ic i) as [_ I2].
    now rewrite E2, I2 by lia.
  - exact Et.
  - congruence.
Qed.

Lemma scanBack_suffix_folds_witness :
  (forall l, Permutation (in_order l) (range 0 l)) /\
  (forall a b c, Z.add (Z.add a b) c = Z.add a (Z.add b c)) /\
  (forall a b, Z.add a b = Z.add b a) /\
  fst (sequence.scanBack in_order (fun _ => 0)
         (sequence.OtherBlock (array_of 0 [3; 1; 4; 1; 5])) (fun _ => 0) 5
         Z.add 0) 1 = 10.
Proof.
  assert (Hs : forall l, Permutation (in_order l) (range 0 l))
    by (intros l; apply Permutation_refl).
  assert (Ha : forall a b c, Z.add (Z.add a b) c = Z.add a (Z.add b c))
    by (intros; lia).
  assert (Hc : forall a b, Z.add a b = Z.add b a) by (intros; lia).
  split; [exact Hs|]. split; [exact Ha|]. split; [exact Hc|].
  destruct (scanBack_suffix_folds in_order (fun _ => 0) Z.add
              (array_of 0 [3; 1; 4; 1; 5]) (fun _ => 0) 5 0 Hs Ha Hc)
    as (H & _).
  destruct (H 1 ltac:(lia)) as [H1 _]. exact H1.
Defined.

(** ** blocked_for *)

Lemma for_up_cells {T} (h : Z -> T -> T) bs be (st : mem T) k :
  for_up bs be (fun j st => upd st j (h j (st j))) st k =
  if (bs <=? k) && (k <? be) then h k (st k) else st k.
Proof.
  destruct (Z_le_gt_dec be bs) as [Hle|Hgt].
  { rewrite for_up_none by lia.
    destruct (Z.leb_spec bs k), (Z.ltb_spec k be); cbn [andb]; (reflexivity || lia). }
  remember (Z.to_nat (be - bs)) as d eqn:Hd.
  revert be Hgt Hd. induction d as [|d IH]; intros be Hgt Hd; [lia|].
  replace be with (be - 1 + 1) by lia. rewrite for_up_snoc by lia.
  destruct (Z.eq_dec (be - 1) bs) as [E|E].
  - rewrite E. rewrite for_up_none by lia.
    destruct (Z.eq_dec bs k) as [->|Hk].
    + rewrite upd_same.
      destruct (Z.leb_spec k k), (Z.ltb_spec k (k + 1)); cbn [andb];
        (reflexivity || lia).
    + rewrite upd_other by lia.
      destruct (Z.leb_spec bs k), (Z.ltb_spec k (bs + 1)); cbn [andb];
        (reflexivity || lia).
  - destruct (Z.eq_dec (be - 1) k) as [Hk|Hk].
    + rewrite Hk, upd_same. rewrite IH by lia.
      destruct (Z.leb_spec bs k), (Z.ltb_spec k k), (Z.ltb_spec k (k + 1));
        cbn [andb]; (reflexivity || lia).
    + rewrite upd_other by lia. rewrite IH by lia.
      destruct (Z.leb_spec bs k), (Z.ltb_spec k (be - 1)),
        (Z.ltb_spec k (be - 1 + 1)); cbn [andb]; (reflexivity || lia).
Qed.

(** X10: the blocks of [blocked_for] partition [[s, e)].  A body that
    walks its block and updates each cell it meets, run by [blocked_for]
    in any order of the blocks, updates each cell of [[s, e)] exactly once
    and no cell outside; an empty or negative range has no cell to
    update. *)
Theorem blocked_for_visits_each_index_once {T} schedule s e bsize
        (h : Z -> T -> T) (Out : mem T) j :
  (forall l, Permutation (schedule l) (range 0 l)) ->
  0 < bsize ->
  blocked_for schedule s e bsize
    (fun i s e st => for_up s e (fun j st => upd st j (h j (st j))) st) Out j =
  if (s <=? j) && (j <? e) then h j (Out j) else Out j.
Proof.
  intros Hs Hb.
  destruct (blocked_for_fill schedule s e bsize
              (fun i s e st => for_up s e (fun j st => upd st j (h j (st j))) st)
              (fun j => h j (Out j)) Out Hs Hb) with (j := j) as [Hin Hout].
  - intros i st Hi bs be Hst k. rewrite for_up_cells.
    destruct (Z.leb_spec bs k), (Z.ltb_spec k be); cbn [andb];
      (split; [intros Hk|intros Hk]); try lia; try reflexivity.
    now rewrite Hst by lia.
  - destruct (Z.leb_spec s j), (Z.ltb_spec j e); cbn [andb];
      (apply Hin; lia) || (apply Hout; lia).
Qed.

Lemma blocked_for_visits_each_index_once_witness :
  (forall l, Permutation (rev (in_order l)) (range 0 l)) /\ 0 < 2 /\
  blocked_for (fun l => rev (in_order l)) 1 6 2
    (fun i s e st => for_up s e (fun j st => upd st j (st j + 1)) st)
    (fun _ => 0) 3 = 1 /\
  blocked_for (fun l => rev (in_order l)) 1 6 2
    (fun i s e st => for_up s e (fun j st => upd st j (st j + 1)) st)
    (fun _ => 0) 6 = 0.
Proof.
  assert (Hs : forall l, Permutation (rev (in_order l)) (range 0 l))
    by (intros l; apply Permutation_sym, Permutation_rev).
  split; [exact Hs|]. split; [lia|]. split.
  - exact (blocked_for_visits_each_index_once (fun l => rev (in_order l)) 1 6 2
             (fun _ c => c + 1) (fun _ => 0) 3 Hs ltac:(lia)).
  - exact (blocked_for_visits_each_index_once (fun l => rev (in_order l)) 1 6 2
             (fun _ c => c + 1) (fun _ => 0) 6 Hs ltac:(lia)).
Defined.

(** ** packIndex and filter *)

Lemma StronglySorted_range s e : StronglySorted Z.lt (range s e).
Proof.
  remember (Z.to_nat (e - s)) as k eqn:Hk. revert s Hk.
  induction k as [|k IH]; intros s Hk.
  - rewrite range_nil by lia. constructor.
  - rewrite range_cons by lia. constructor.
    + apply IH. lia.
    + apply Forall_forall. intros i Hi. apply in_range in Hi. lia.
Qed.

Lemma StronglySorted_filter {T} (R : T -> T -> Prop) (p : T -> bool) l :
  StronglySorted R l -> StronglySorted R (filter p l).
Proof.
  induction 1 as [|x l Hl IH Hx]; cbn [filter]; [constructor|].
  destruct (p x); [|exact IH]. constructor; [exact IH|].
  rewrite Forall_forall in *. intros y Hy. apply filter_In in Hy.
  now apply Hx.
Qed.

Lemma filter_map_swap {A B} (g : A -> B) (p : B -> bool) l :
  filter p (map g l) = map g (filter (fun i => p (g i)) l).
Proof.
  induction l as [|x l IH]; cbn [map filter]; [reflexivity|].
  rewrite IH. now destruct (p (g x)).
Qed.

(** X11: [packIndex(Fl, n)] returns, in storage of its own, the indices
    [i < n] whose flag is set and their number: each such index once, no
    other value, in strictly increasing order, whatever the order in which
    the blocks run. *)
Theorem packIndex_lists_set_flags schedule (uninit : mem Z)
        (Fl : sequence.boolptr) len cout :
  (forall l, Permutation (schedule l) (range 0 l)) ->
  let res := sequence.packIndex schedule uninit Fl len cout in
  let M := fst (fst res) in
  let sq := snd (fst res) in
  sequence.n sq = count_true (sequence.flag Fl) 0 len /\
  exists p idx,
    sequence.A sq = Some p /\
    slice M p (p + sequence.n sq) = idx /\
    StronglySorted Z.lt idx /\
    forall i, In i idx <-> 0 <= i < len /\ sequence.flag Fl i = true.
Proof.
  intros Hs. cbv zeta. unfold sequence.packIndex.
  destruct (pack_packed schedule Hs uninit uninit uninit None Fl 0 len
              sequence.identityF cout) as (Hn & p & HA & Hslice & _).
  split; [exact Hn|]. exists p, (flagged (sequence.flag Fl) 0 len).
  split; [exact HA|]. split; [|split].
  - rewrite Hslice. unfold sequence.identityF. apply map_id.
  - apply StronglySorted_filter, StronglySorted_range.
  - intros i. unfold flagged. rewrite filter_In, in_range. reflexivity.
Qed.

Lemma packIndex_lists_set_flags_witness :
  (forall l, Permutation (in_order l) (range 0 l)) /\
  sequence.n (snd (fst (sequence.packIndex in_order (fun _ => 0)
      {| sequence.address := 4096;
         sequence.flag := array_of false [true; false; true; true] |} 4 []))) = 3.
Proof.
  assert (Hs : forall l, Permutation (in_order l) (range 0 l))
    by (intros l; apply Permutation_refl).
  split; [exact Hs|].
  destruct (packIndex_lists_set_flags in_order (fun _ => 0)
      {| sequence.address := 4096;
         sequence.flag := array_of false [true; false; true; true] |} 4 [] Hs)
    as [H _].
  exact H.
Defined.

Section FilterCorrect.
Context {ET : Type}.
Variable schedule : Z -> list Z.
Hypothesis schedule_perm : forall l, Permutation (schedule l) (range 0 l).
Variable uninit : mem ET.
Variable uninit_int : mem Z.

(** The flags and the result of [filter(In, Out, Fl, n, p)]. *)
Lemma filter_spec (In M : mem ET) Out (Fl : sequence.boolptr) len
      (p : ET -> bool) cout :
  let res := sequence.filter schedule uninit uninit_int In M Out Fl len p cout in
  let Fl' := fst (fst (fst res)) in
  let M' := snd (fst (fst res)) in
  let m := snd (fst res) in
  (forall i, sequence.flag Fl' i =
             if (0 <=? i) && (i <? len) then p (In i) else sequence.flag Fl i) /\
  m = Z.of_nat (length (filter p (slice In 0 len))) /\
  exists d,
    slice M' d (d + m) = filter p (slice In 0 len) /\
    forall o, Out = Some o ->
      d = o /\ forall j, ~ o <= j < o + m -> M' j = M j.
Proof.
  cbv zeta. unfold sequence.filter, sequence.pack_array.
  set (F' := parallel_for (schedule len)
               (fun i F => upd F i (p (In i))) (sequence.flag Fl)).
  set (Fl' := {| sequence.address := sequence.address Fl; sequence.flag := F' |}).
  assert (HF : forall i, F' i =
                 if (0 <=? i) && (i <? len) then p (In i) else sequence.flag Fl i).
  { intros i. unfold F'.
    apply (parallel_for_table (fun i => p (In i)) (sequence.flag Fl)
             (schedule len) len (schedule_perm len)). }
  assert (Hfl : flagged F' 0 len = filter (fun i => p (In i)) (range 0 len)).
  { unfold flagged. apply filter_ext_in. intros i Hi. apply in_range in Hi.
    rewrite HF.
    destruct (Z.leb_spec 0 i), (Z.ltb_spec i len); cbn [andb];
      (reflexivity || lia). }
  pose proof (pack_packed schedule schedule_perm uninit uninit_int M Out Fl'
                0 len (sequence.getA In) cout) as Hp.
  destruct (sequence.pack schedule uninit uninit_int M Out Fl' 0 len
              (sequence.getA In) cout) as [[M' sq] cout'].
  destruct Hp as (Hn & d & HA & Hslice & Hout). cbn [fst snd] in *.
  change (sequence.flag Fl') with F' in *.
  unfold count_true in Hn.
  change (filter F' (range 0 len)) with (flagged F' 0 len) in Hn.
  rewrite Hfl in *.
  assert (Hmap : map (sequence.getA In) (filter (fun i => p (In i)) (range 0 len)) =
                 filter p (slice In 0 len)).
  { unfold slice. now rewrite filter_map_swap. }
  split; [exact HF|]. split.
  - rewrite Hn, <- Hmap. now rewrite length_map.
  - exists d. split; [now rewrite Hslice|exact Hout].
Qed.
End FilterCorrect.

(** X12: [filter(In, Out, Fl, n, p)] stores [p(In[i])] in [Fl[i]] for
    [i < n] and packs the elements that satisfy [p]: it returns their
    number and leaves them in the destination in array order; a
    destination given by the caller is written in the result cells only.
    [filter(In, Out, n, p)], which allocates the flags, gives the same
    result for any address and initial contents of that allocation. *)
Theorem filter_keeps_satisfying {ET} schedule (uninit : mem ET)
        (uninit_int : mem Z) (In M : mem ET) Out (Fl : sequence.boolptr) len
        (p : ET -> bool) cout Fl_address uninit_bool :
  (forall l, Permutation (schedule l) (range 0 l)) ->
  let kept := filter p (slice In 0 len) in
  let res := sequence.filter schedule uninit uninit_int In M Out Fl len p cout in
  let res' := sequence.filter_alloc schedule uninit uninit_int Fl_address
                uninit_bool In M Out len p cout in
  (forall i, sequence.flag (fst (fst (fst res))) i =
             if (0 <=? i) && (i <? len) then p (In i) else sequence.flag Fl i) /\
  (snd (fst res) = Z.of_nat (length kept) /\
   exists d,
     slice (snd (fst (fst res))) d (d + snd (fst res)) = kept /\
     forall o, Out = Some o ->
       d = o /\ forall j, ~ o <= j < o + snd (fst res) ->
                  snd (fst (fst res)) j = M j) /\
  (snd (fst res') = Z.of_nat (length kept) /\
   exists d,
     slice (fst (fst res')) d (d + snd (fst res')) = kept /\
     forall o, Out = Some o ->
       d = o /\ forall j, ~ o <= j < o + snd (fst res') ->
                  fst (fst res') j = M j).
Proof.
  intros Hs. cbv zeta.
  destruct (filter_spec schedule Hs uninit uninit_int In M Out Fl len p cout)
    as (HF & Hm & Hd).
  split; [exact HF|]. split; [split; [exact Hm|exact Hd]|].
  unfold sequence.filter_alloc.
  pose proof (filter_spec schedule Hs uninit uninit_int In M Out
                {| sequence.address := Fl_address; sequence.flag := uninit_bool |}
                len p cout) as H.
  cbv zeta in H.
  destruct (sequence.filter schedule uninit uninit_int In M Out
              {| sequence.address := Fl_address; sequence.flag := uninit_bool |}
              len p cout) as [[[Fl2 M2] m2] cout2].
  cbn [fst snd] in *. destruct H as (_ & Hm2 & Hd2). split; assumption.
Qed.

Lemma filter_keeps_satisfying_witness :
  (forall l, Permutation (in_order l) (range 0 l)) /\
  snd (fst (sequence.filter_alloc in_order (fun _ => 0) (fun _ => 0) 4096
              (fun _ => true) (array_of 0 [3; -1; 4; -1; 5]) (fun _ => 0)
              (Some 2) 5 (fun x => 0 <? x) [])) = 3.
Proof.
  assert (Hs : forall l, Permutation (in_order l) (range 0 l))
    by (intros l; apply Permutation_refl).
  split; [exact Hs|].
  destruct (filter_keeps_satisfying in_order (fun _ => 0) (fun _ => 0)
              (array_of 0 [3; -1; 4; -1; 5]) (fun _ => 0) (Some 2)
              {| sequence.address := 0; sequence.flag := fun _ => false |}
              5 (fun x => 0 <? x) [] 4096 (fun _ => true) Hs)
    as (_ & _ & H & _).
  exact H.
Defined.

(** ** remDuplicates: what it leaves alone, a second run, and filter *)

(** X13: [remDuplicates] changes a key to the sentinel or not at all, and
    touches no entry from [m] on. *)
Theorem remDuplicates_only_erases (UINT_E_MAX : Z)
        (schedule1 schedule2 : Z -> list Z) (keys flags : mem Z) (m n : Z) :
  Permutation (schedule1 m) (range 0 m) ->
  Permutation (schedule2 m) (range 0 m) ->
  0 <= m <= UINT_E_MAX ->
  (forall i, 0 <= i < m -> 0 <= keys i < n \/ keys i = UINT_E_MAX) ->
  (forall j, 0 <= j < n -> flags j = UINT_E_MAX) ->
  let keys' := fst (remDuplicates UINT_E_MAX schedule1 schedule2 keys flags m n) in
  (forall i, 0 <= i < m -> keys' i = keys i \/ keys' i = UINT_E_MAX) /\
  (forall i, ~ 0 <= i < m -> keys' i = keys i).
Proof.
  intros Hs1 Hs2 Hm Hkeys Hflags keys'.
  destruct (remDuplicates_post UINT_E_MAX schedule1 schedule2 keys flags m n
              Hs1 Hs2 Hm Hkeys Hflags) as (_ & Hin & Hout & _).
  split; [exact Hin|exact Hout].
Qed.

Lemma remDuplicates_only_erases_witness :
  Permutation (in_order 5) (range 0 5) /\
  Permutation (rev (in_order 5)) (range 0 5) /\
  0 <= 5 <= 4294967295 /\
  fst (remDuplicates 4294967295 in_order (fun l => rev (in_order l))
         (array_of 0 [2; 2; 1; 2; 1; 2]) (fun _ => 4294967295) 5 3) 5 = 2.
Proof.
  assert (Hs1 : Permutation (in_order 5) (range 0 5)) by apply Permutation_refl.
  assert (Hs2 : Permutation (rev (in_order 5)) (range 0 5))
    by apply Permutation_sym, Permutation_rev.
  split; [exact Hs1|]. split; [exact Hs2|]. split; [lia|].
  destruct (remDuplicates_only_erases 4294967295 in_order
              (fun l => rev (in_order l)) (array_of 0 [2; 2; 1; 2; 1; 2])
              (fun _ => 4294967295) 5 3 Hs1 Hs2 ltac:(lia)) as [_ H].
  - intros i Hi.
    assert (i = 0 \/ i = 1 \/ i = 2 \/ i = 3 \/ i = 4) as Hc by lia.
    destruct Hc as [->|[->|[->|[->| ->]]]]; left; vm_compute; intuition congruence.
  - reflexivity.
  - apply H. lia.
Defined.

(** X14: under the preconditions of [remDuplicates] (keys in [[0, n)] or
    the sentinel, flags cleared, and [m <= UINT_E_MAX], so that every entry
    index fits the type of the flags and differs from the sentinel), a
    second [remDuplicates], on the keys and the flags that a first one
    leaves behind, changes no key, and leaves the flags cleared again: the
    survivors of the first run are the survivors of the second, in
    whatever order the loops of the two runs take effect. *)
Theorem remDuplicates_idempotent (UINT_E_MAX : Z)
        (schedule1 schedule2 schedule3 schedule4 : Z -> list Z)
        (keys flags : mem Z) (m n : Z) :
  Permutation (schedule1 m) (range 0 m) ->
  Permutation (schedule2 m) (range 0 m) ->
  Permutation (schedule3 m) (range 0 m) ->
  Permutation (schedule4 m) (range 0 m) ->
  0 <= m <= UINT_E_MAX ->
  (forall i, 0 <= i < m -> 0 <= keys i < n \/ keys i = UINT_E_MAX) ->
  (forall j, 0 <= j < n -> flags j = UINT_E_MAX) ->
  let once := remDuplicates UINT_E_MAX schedule1 schedule2 keys flags m n in
  let twice := remDuplicates UINT_E_MAX schedule3 schedule4 (fst once) (snd once) m n in
  (forall i, fst twice i = fst once i) /\
  (forall j, 0 <= j < n -> snd twice j = UINT_E_MAX).
Proof.
  intros Hs1 Hs2 Hs3 Hs4 Hm Hkeys Hflags once twice.
  destruct (remDuplicates_post UINT_E_MAX schedule1 schedule2 keys flags m n
              Hs1 Hs2 Hm Hkeys Hflags) as (Hone & Hin & Hout & Hclear).
  fold once in Hone, Hin, Hout, Hclear.
  assert (Hkeys' : forall i, 0 <= i < m ->
            0 <= fst once i < n \/ fst once i = UINT_E_MAX).
  { intros i Hi. destruct (Hin i Hi) as [->| ->]; [now apply Hkeys|now right]. }
  destruct (remDuplicates_post UINT_E_MAX schedule3 schedule4 (fst once)
              (snd once) m n Hs3 Hs4 Hm Hkeys' Hclear)
    as (Hone' & Hin' & Hout' & Hclear').
  fold twice in Hone', Hin', Hout', Hclear'.
  split; [|exact Hclear'].
  intros i. destruct (Z_le_gt_dec 0 i), (Z_lt_le_dec i m);
    try (apply Hout'; lia).
  destruct (Z.eq_dec (fst once i) UINT_E_MAX) as [E|E].
  { destruct (Hin' i ltac:(lia)) as [H|H]; congruence. }
  destruct (Hone' (fst once i) E) as (w & Hw & Hkw & Hkw' & _ & _).
  { exists i. split; [lia|reflexivity]. }
  (* the survivor [w] of the second run carries the key of [i] after the
     first run, which only one entry does *)
  assert (Hk : keys i = fst once i)
    by (destruct (Hin i ltac:(lia)) as [H|H]; congruence).
  destruct (Hone (fst once i) E) as (w0 & _ & _ & _ & Huniq & _).
  { exists i. split; [lia|now symmetry]. }
  assert (i = w0) by (apply Huniq; [lia|reflexivity]).
  assert (w = w0) by (apply Huniq; [lia|exact Hkw]).
  congruence.
Qed.

Lemma remDuplicates_idempotent_witness :
  Permutation (in_order 5) (range 0 5) /\
  Permutation (rev (in_order 5)) (range 0 5) /\
  0 <= 5 <= 4294967295 /\
  let once := remDuplicates 4294967295 in_order (fun l => rev (in_order l))
                (array_of 0 [2; 2; 1; 2; 1]) (fun _ => 4294967295) 5 3 in
  fst (remDuplicates 4294967295 (fun l => rev (in_order l)) in_order
         (fst once) (snd once) 5 3) 2 = fst once 2.
Proof.
  assert (Hs1 : Permutation (in_order 5) (range 0 5)) by apply Permutation_refl.
  assert (Hs2 : Permutation (rev (in_order 5)) (range 0 5))
    by apply Permutation_sym, Permutation_rev.
  split; [exact Hs1|]. split; [exact Hs2|]. split; [lia|].
  destruct (remDuplicates_idempotent 4294967295 in_order
              (fun l => rev (in_order l)) (fun l => rev (in_order l)) in_order
              (array_of 0 [2; 2; 1; 2; 1])
              (fun _ => 4294967295) 5 3 Hs1 Hs2 Hs2 Hs1 ltac:(lia)) as [H _].
  - intros i Hi.
    assert (i = 0 \/ i = 1 \/ i = 2 \/ i = 3 \/ i = 4) as Hc by lia.
    destruct Hc as [->|[->|[->|[->| ->]]]]; left; vm_compute; intuition congruence.
  - reflexivity.
  - exact (H 2).
Defined.

(** X15: [remDuplicates] followed by [filter] with [nonMaxF], the way the
    two are used together, under the preconditions of [remDuplicates]
    (keys in [[0, n)] or the sentinel, flags cleared, and
    [m <= UINT_E_MAX]): the result holds every key other than the
    sentinel that occurs in the first [m] entries, each one once, and
    nothing else. *)
Theorem remDuplicates_filter_distinct_keys (UINT_E_MAX : Z)
        (schedule1 schedule2 schedule : Z -> list Z) (keys flags : mem Z)
        (m n : Z) (uninit uninit_int M : mem Z) Out (Fl : sequence.boolptr) cout :
  Permutation (schedule1 m) (range 0 m) ->
  Permutation (schedule2 m) (range 0 m) ->
  (forall l, Permutation (schedule l) (range 0 l)) ->
  0 <= m <= UINT_E_MAX ->
  (forall i, 0 <= i < m -> 0 <= keys i < n \/ keys i = UINT_E_MAX) ->
  (forall j, 0 <= j < n -> flags j = UINT_E_MAX) ->
  let keys' := fst (remDuplicates UINT_E_MAX schedule1 schedule2 keys flags m n) in
  let res := sequence.filter schedule uninit uninit_int keys' M Out Fl m
               (nonMaxF UINT_E_MAX) cout in
  exists d L,
    slice (snd (fst (fst res))) d (d + snd (fst res)) = L /\
    snd (fst res) = Z.of_nat (length L) /\
    NoDup L /\
    forall k, In k L <->
              k <> UINT_E_MAX /\ exists i, 0 <= i < m /\ keys i = k.
Proof.
  intros Hs1 Hs2 Hs Hm Hkeys Hflags keys' res.
  destruct (remDuplicates_post UINT_E_MAX schedule1 schedule2 keys flags m n
              Hs1 Hs2 Hm Hkeys Hflags) as (Hone & Hin & _ & _).
  fold keys' in Hone, Hin.
  destruct (filter_spec schedule Hs uninit uninit_int keys' M Out Fl m
              (nonMaxF UINT_E_MAX) cout) as (_ & Hcnt & d & Hslice & _).
  fold res in Hcnt, Hslice.
  exists d, (filter (nonMaxF UINT_E_MAX) (slice keys' 0 m)).
  split; [exact Hslice|]. split; [exact Hcnt|].
  assert (Hnm : forall k, nonMaxF UINT_E_MAX k = true <-> k <> UINT_E_MAX).
  { intros k. unfold nonMaxF. destruct (Z.eqb_spec k UINT_E_MAX); cbn;
      intuition congruence. }
  assert (Hsame : forall i, 0 <= i < m -> keys' i <> UINT_E_MAX ->
                            keys i = keys' i).
  { intros i Hi Hne. destruct (Hin i Hi) as [H|H]; congruence. }
  split.
  - unfold slice. rewrite filter_map_swap.
    apply NoDup_map_NoDup_ForallPairs.
    + intros i j Hi Hj Heq.
      apply filter_In in Hi, Hj. destruct Hi as [Hi Hni], Hj as [Hj Hnj].
      apply in_range in Hi, Hj. apply Hnm in Hni, Hnj.
      destruct (Hone (keys' i) Hni) as (w & _ & _ & _ & Huniq & _).
      { exists i. split; [lia|now apply Hsame]. }
      rewrite (Huniq i ltac:(lia) eq_refl).
      symmetry. apply Huniq; [lia|now symmetry].
    + apply NoDup_filter, NoDup_range.
  - intros k. rewrite filter_In, in_slice, Hnm. split.
    + intros [(i & Hi & ->) Hne]. split; [exact Hne|].
      exists i. split; [lia|now apply Hsame].
    + intros [Hne Hex]. split; [|exact Hne].
      destruct (Hone k Hne Hex) as (w & Hw & _ & Hkw & _).
      exists w. split; [lia|now symmetry].
Qed.

Lemma remDuplicates_filter_distinct_keys_witness :
  Permutation (in_order 5) (range 0 5) /\
  Permutation (rev (in_order 5)) (range 0 5) /\
  (forall l, Permutation (in_order l) (range 0 l)) /\
  0 <= 5 <= 4294967295 /\
  let keys' := fst (remDuplicates 4294967295 in_order (fun l => rev (in_order l))
                      (array_of 0 [2; 2; 1; 2; 1]) (fun _ => 4294967295) 5 3) in
  let res := sequence.filter in_order (fun _ => 0) (fun _ => 0) keys'
               (fun _ => 0) (Some 0)
               {| sequence.address := 0; sequence.flag := fun _ => false |} 5
               (nonMaxF 4294967295) [] in
  exists d L, slice (snd (fst (fst res))) d (d + snd (fst res)) = L /\
              snd (fst res) = Z.of_nat (length L) /\ NoDup L.
Proof.
  assert (Hs1 : Permutation (in_order 5) (range 0 5)) by apply Permutation_refl.
  assert (Hs2 : Permutation (rev (in_order 5)) (range 0 5))
    by apply Permutation_sym, Permutation_rev.
  assert (Hs : forall l, Permutation (in_order l) (range 0 l))
    by (intros l; apply Permutation_refl).
  split; [exact Hs1|]. split; [exact Hs2|]. split; [exact Hs|]. split; [lia|].
  destruct (remDuplicates_filter_distinct_keys 4294967295 in_order
              (fun l => rev (in_order l)) in_order (array_of 0 [2; 2; 1; 2; 1])
              (fun _ => 4294967295) 5 3 (fun _ => 0) (fun _ => 0) (fun _ => 0)
              (Some 0) {| sequence.address := 0; sequence.flag := fun _ => false |}
              [] Hs1 Hs2 Hs ltac:(lia)) as (d & L & H1 & H2 & H3 & _).
  - intros i Hi.
    assert (i = 0 \/ i = 1 \/ i = 2 \/ i = 3 \/ i = 4) as Hc by lia.
    destruct Hc as [->|[->|[->|[->| ->]]]]; left; vm_compute; intuition congruence.
  - reflexivity.
  - exists d, L. split; [exact H1|]. split; [exact H2|exact H3].
Defined.

(** ** Concurrent callers of one cell *)

(** The thread that takes a step is the only one whose control point
    changes. *)
Section Pool.
Context {PC : Type}.
Variable step : Z -> PC -> Z -> PC * Z.
Variable pool_step : nat -> list (Z * PC) -> Z -> list (Z * PC) * Z.
Hypothesis pool_step_nil : forall t a, pool_step t [] a = ([], a).
Hypothesis pool_step_here :
  forall b pc rest a,
    pool_step O ((b, pc) :: rest) a =
    ((b, fst (step b pc a)) :: rest, snd (step b pc a)).
Hypothesis pool_step_there :
  forall t b pc rest a,
    pool_step (S t) ((b, pc) :: rest) a =
    ((b, pc) :: fst (pool_step t rest a), snd (pool_step t rest a)).

Lemma pool_step_split t ths a :
  ((length ths <= t)%nat /\ pool_step t ths a = (ths, a)) \/
  exists l1 b pc l2,
    ths = l1 ++ (b, pc) :: l2 /\ length l1 = t /\
    pool_step t ths a =
    (l1 ++ (b, fst (step b pc a)) :: l2, snd (step b pc a)).
Proof.
  revert t. induction ths as [|[b pc] ths IH]; intros t.
  - left. split; [cbn; lia | apply pool_step_nil].
  - destruct t as [|t].
    + right. exists [], b, pc, ths. rewrite pool_step_here. now cbn.
    + rewrite pool_step_there.
      destruct (IH t) as [[Hlen ->]|(l1 & b' & pc' & l2 & -> & Hlen & ->)].
      * left. split; [cbn; lia | reflexivity].
      * right. exists ((b, pc) :: l1), b', pc', l2. cbn [fst snd length app].
        split; [reflexivity|]. split; [lia|reflexivity].
Qed.

Lemma pool_step_at l1 b pc l2 a :
  pool_step (length l1) (l1 ++ (b, pc) :: l2) a =
  (l1 ++ (b, fst (step b pc a)) :: l2, snd (step b pc a)).
Proof.
  induction l1 as [|[b' pc'] l1 IH]; cbn [length app].
  - apply pool_step_here.
  - now rewrite pool_step_there, IH.
Qed.

Lemma pool_invariant (I : list (Z * PC) -> Z -> Prop) :
  (forall l1 b pc l2 a,
     I (l1 ++ (b, pc) :: l2) a ->
     I (l1 ++ (b, fst (step b pc a)) :: l2) (snd (step b pc a))) ->
  forall sched ths a,
    I ths a ->
    I (fst (fold_left (fun '(ths, a) t => pool_step t ths a) sched (ths, a)))
      (snd (fold_left (fun '(ths, a) t => pool_step t ths a) sched (ths, a))).
Proof.
  intros Hstep sched. induction sched as [|t sched IH]; intros ths a HI;
    cbn [fold_left].
  - exact HI.
  - destruct (pool_step_split t ths a)
      as [[_ E]|(l1 & b & pc & l2 & -> & _ & E)]; rewrite E.
    + now apply IH.
    + apply IH, Hstep, HI.
Qed.
End Pool.

Lemma rmw_thread_step_here op b pc rest a :
  rmw_thread_step op O ((b, pc) :: rest) a =
  ((b, fst (rmw_step op b pc a)) :: rest, snd (rmw_step op b pc a)).
Proof. cbn [rmw_thread_step]. now destruct (rmw_step op b pc a). Qed.

Lemma rmw_thread_step_there op t b pc rest a :
  rmw_thread_step op (S t) ((b, pc) :: rest) a =
  ((b, pc) :: fst (rmw_thread_step op t rest a),
   snd (rmw_thread_step op t rest a)).
Proof. cbn [rmw_thread_step]. now destruct (rmw_thread_step op t rest a). Qed.

Lemma rmw_interleave_invariant op (I : rmw_threads -> Z -> Prop) :
  (forall l1 b pc l2 a,
     I (l1 ++ (b, pc) :: l2) a ->
     I (l1 ++ (b, fst (rmw_step op b pc a)) :: l2) (snd (rmw_step op b pc a))) ->
  forall sched ths a,
    I ths a ->
    I (fst (rmw_interleave op sched ths a)) (snd (rmw_interleave op sched ths a)).
Proof.
  intros Hstep sched ths a HI. unfold rmw_interleave.
  refine (pool_invariant (rmw_step op) (rmw_thread_step op) _ _ _
            I Hstep sched ths a HI).
  - intros t a'. reflexivity.
  - apply rmw_thread_step_here.
  - apply rmw_thread_step_there.
Qed.

Lemma rmw_history_app l1 l2 :
  rmw_history (l1 ++ l2) = rmw_history l1 ++ rmw_history l2.
Proof. unfold rmw_history. apply flat_map_app. Qed.

Lemma rmw_chain_snoc op a0 h a b :
  rmw_chain op a0 h a -> rmw_chain op a0 (h ++ [(b, a)]) (op a b).
Proof.
  revert a0. induction h as [|[b' o] h IH]; intros a0; cbn [rmw_chain app].
  - intros ->. split; reflexivity.
  - intros [-> H]. split; [reflexivity|]. now apply IH.
Qed.

Lemma rmw_chain_fold op a0 h a :
  rmw_chain op a0 h a -> a = fold_left op (map fst h) a0.
Proof.
  revert a0. induction h as [|[b o] h IH]; intros a0; cbn [rmw_chain map fold_left fst].
  - auto.
  - intros [_ H]. now apply IH.
Qed.

Lemma rmw_step_inv op a0 bs l1 b pc l2 a :
  rmw_inv op a0 bs (l1 ++ (b, pc) :: l2) a ->
  rmw_inv op a0 bs (l1 ++ (b, fst (rmw_step op b pc a)) :: l2)
    (snd (rmw_step op b pc a)).
Proof.
  intros (Hbs & Hcas & h & Hperm & Hchain).
  assert (Hbs' : forall pc', map fst (l1 ++ (b, pc') :: l2) = bs).
  { intros pc'. rewrite <- Hbs, !map_app. reflexivity. }
  assert (Hother : forall pc' b' o nv,
             (forall o' nv', pc' = rmw_cas o' nv' -> nv' = op o' b) ->
             In (b', rmw_cas o nv) (l1 ++ (b, pc') :: l2) -> nv = op o b').
  { intros pc' b' o nv Hnew Hin. apply in_app_or in Hin.
    destruct Hin as [Hin|[Hin|Hin]].
    - apply (Hcas b' o nv). apply in_or_app. now left.
    - injection Hin as <- ->. now apply Hnew.
    - apply (Hcas b' o nv). apply in_or_app. right. now right. }
  rewrite rmw_history_app in Hperm. cbn [rmw_history flat_map] in Hperm.
  fold (rmw_history l2) in Hperm. cbn [fst snd] in Hperm.
  destruct pc as [|o nv|o]; cbn [rmw_step fst snd].
  - (* the load *)
    split; [apply Hbs'|]. split.
    + intros b' o nv. apply Hother. intros o' nv' E. now injection E as <- <-.
    + exists h. split; [|exact Hchain].
      rewrite rmw_history_app. cbn [rmw_history flat_map]. exact Hperm.
  - (* the CAS *)
    assert (Hnv : nv = op o b).
    { apply (Hcas b o nv). apply in_or_app. right. now left. }
    unfold CAS. destruct (Z.eqb_spec a o) as [->|Hne]; cbn [negb fst snd].
    + split; [apply Hbs'|]. split.
      * intros b' o' nv'. apply Hother. discriminate.
      * exists (h ++ [(b, o)]). split.
        -- rewrite rmw_history_app. cbn [rmw_history flat_map fst snd].
           fold (rmw_history l2). cbn [app] in *.
           apply Permutation_trans with ((b, o) :: h).
           ++ apply Permutation_sym, Permutation_cons_append.
           ++ now apply Permutation_cons_app.
        -- rewrite Hnv. now apply rmw_chain_snoc.
    + split; [apply Hbs'|]. split.
      * intros b' o' nv'. apply Hother. discriminate.
      * exists h. split; [|exact Hchain].
        rewrite rmw_history_app. cbn [rmw_history flat_map]. exact Hperm.
  - (* through *)
    split; [apply Hbs'|]. split.
    + intros b' o' nv'. apply Hother. discriminate.
    + exists h. split; [|exact Hchain].
      rewrite rmw_history_app. cbn [rmw_history flat_map fst snd].
      exact Hperm.
Qed.

Lemma rmw_interleave_inv op a0 bs sched :
  let final := rmw_interleave op sched (map (fun b => (b, rmw_load)) bs) a0 in
  rmw_inv op a0 bs (fst final) (snd final).
Proof.
  cbv zeta. apply rmw_interleave_invariant.
  - intros l1 b pc l2 a. apply rmw_step_inv.
  - split; [|split].
    + rewrite map_map. cbn [fst]. apply map_id.
    + intros b o nv Hin. apply in_map_iff in Hin.
      destruct Hin as (x & E & _). discriminate.
    + exists []. split; [|reflexivity].
      assert (E : forall l, rmw_history (map (fun b => (b, rmw_load)) l) = []).
      { induction l as [|x l IH]; [reflexivity|]. cbn. exact IH. }
      rewrite E. constructor.
Qed.

(** X16: [writeAdd], [multiplyAndSave], [divideAndSave],
    [pbbs::fetch_and_add] and [pbbs::write_add] are linearizable.  Let
    any number of callers run against one cell, their loads and CASes
    interleaved in any way, and stop them anywhere: the calls that are
    through can be put in an order in which, had they run one after
    another from the initial value with nothing in between, each would
    have read the value it did read (the value [fetch_and_add] returns)
    and the cell would hold what it holds. *)
Theorem rmw_linearizable (op : Z -> Z -> Z) (a0 : Z) (bs : list Z)
        (sched : list nat) :
  let final := rmw_interleave op sched (map (fun b => (b, rmw_load)) bs) a0 in
  exists h,
    Permutation h (rmw_history (fst final)) /\
    rmw_chain op a0 h (snd final).
Proof.
  cbv zeta. destruct (rmw_interleave_inv op a0 bs sched) as (_ & _ & H).
  exact H.
Qed.

Section RightCommutative.
Variable op : Z -> Z -> Z.
Hypothesis op_comm : forall a b c, op (op a b) c = op (op a c) b.

Lemma fold_left_perm l l' a :
  Permutation l l' -> fold_left op l a = fold_left op l' a.
Proof.
  intros H. revert a. induction H; intros a; cbn [fold_left].
  - reflexivity.
  - apply IHPermutation.
  - now rewrite op_comm.
  - now rewrite IHPermutation1.
Qed.
End RightCommutative.

Lemma rmw_history_all_done ths :
  forallb (fun th => rmw_is_done (snd th)) ths = true ->
  map fst (rmw_history ths) = map fst ths.
Proof.
  induction ths as [|[b pc] ths IH]; [reflexivity|].
  cbn [forallb snd]. intros H. apply andb_prop in H. destruct H as [Hd H].
  destruct pc; try discriminate. cbn. f_equal. now apply IH.
Qed.

(** X17: no update is lost.  When the operator satisfies
    [(a op b) op c = (a op c) op b], as [+] and [*] of an integer type and
    division by non-zero divisors do, and all the concurrent callers are
    through, the cell holds the initial value combined with the argument
    of every caller: for [writeAdd] the initial value plus the sum of the
    arguments, however the loads and CASes were interleaved. *)
Theorem rmw_no_lost_update (op : Z -> Z -> Z) (a0 : Z) (bs : list Z)
        (sched : list nat) :
  (forall a b c, op (op a b) c = op (op a c) b) ->
  let final := rmw_interleave op sched (map (fun b => (b, rmw_load)) bs) a0 in
  forallb (fun th => rmw_is_done (snd th)) (fst final) = true ->
  snd final = fold_left op bs a0.
Proof.
  intros Hop final Hdone.
  destruct (rmw_interleave_inv op a0 bs sched) as (Hbs & _ & h & Hperm & Hchain).
  fold final in Hbs, Hperm, Hchain.
  rewrite (rmw_chain_fold op a0 h _ Hchain).
  apply (fold_left_perm op Hop).
  rewrite <- Hbs, <- (rmw_history_all_done _ Hdone).
  now apply Permutation_map.
Qed.

Lemma rmw_no_lost_update_witness :
  (forall a b c, Z.add (Z.add a b) c = Z.add (Z.add a c) b) /\
  forallb (fun th => rmw_is_done (snd th))
    (fst (rmw_interleave Z.add [0; 1; 0; 1; 1; 1]%nat
            (map (fun b => (b, rmw_load)) [3; 4]) 10)) = true /\
  snd (rmw_interleave Z.add [0; 1; 0; 1; 1; 1]%nat
         (map (fun b => (b, rmw_load)) [3; 4]) 10) = 17.
Proof.
  assert (Hop : forall a b c, Z.add (Z.add a b) c = Z.add (Z.add a c) b)
    by (intros; lia).
  split; [exact Hop|]. split; [reflexivity|].
  exact (rmw_no_lost_update Z.add 10 [3; 4] [0; 1; 0; 1; 1; 1]%nat Hop eq_refl).
Defined.

Lemma rmw_thread_step_at op l1 b pc l2 a :
  rmw_thread_step op (length l1) (l1 ++ (b, pc) :: l2) a =
  (l1 ++ (b, fst (rmw_step op b pc a)) :: l2, snd (rmw_step op b pc a)).
Proof.
  refine (pool_step_at (rmw_step op) (rmw_thread_step op) _ _ l1 b pc l2 a).
  - apply rmw_thread_step_here.
  - apply rmw_thread_step_there.
Qed.

Lemma nth_error_middle {T} (l1 : list T) x l2 :
  nth_error (l1 ++ x :: l2) (length l1) = Some x.
Proof. rewrite nth_error_app2 by lia. now rewrite Nat.sub_diag. Qed.

(** X18: a call of [writeAdd], [multiplyAndSave], [divideAndSave],
    [fetch_and_add] or [write_add] comes to an end when the other callers
    leave the cell alone.  A caller that starts and takes its two steps
    with no step of another caller in between is through: it has read the
    value the cell held, the cell holds that value combined with its
    argument, and no other caller has moved.  From any control point three
    steps of its own are enough. *)
Theorem rmw_solo_call_completes (op : Z -> Z -> Z) (ths : rmw_threads)
        (t : nat) (b : Z) (pc : rmw_pc) (a : Z) :
  nth_error ths t = Some (b, pc) ->
  (exists oldV,
     nth_error (fst (rmw_interleave op [t; t; t] ths a)) t =
     Some (b, rmw_done oldV)) /\
  (pc = rmw_load ->
   nth_error (fst (rmw_interleave op [t; t] ths a)) t = Some (b, rmw_done a) /\
   snd (rmw_interleave op [t; t] ths a) = op a b /\
   forall t', t' <> t ->
     nth_error (fst (rmw_interleave op [t; t] ths a)) t' = nth_error ths t').
Proof.
  intros Hnth. apply nth_error_split in Hnth.
  destruct Hnth as (l1 & l2 & -> & <-).
  assert (Hfresh : forall a',
            rmw_interleave op [length l1; length l1]
              (l1 ++ (b, rmw_load) :: l2) a' =
            (l1 ++ (b, rmw_done a') :: l2, op a' b)).
  { intros a'. unfold rmw_interleave. cbn [fold_left].
    rewrite !rmw_thread_step_at. cbn [rmw_step fst snd]. unfold CAS.
    now rewrite Z.eqb_refl. }
  split.
  - unfold rmw_interleave. cbn [fold_left].
    destruct pc as [|o nv|o].
    + repeat (progress (rewrite ?rmw_thread_step_at; cbn [rmw_step fst snd negb];
                        unfold CAS; rewrite ?Z.eqb_refl)).
      exists a. apply nth_error_middle.
    + rewrite rmw_thread_step_at. cbn [rmw_step]. unfold CAS.
      destruct (Z.eqb_spec a o) as [->|Hne]; cbn [negb fst snd].
      * repeat (progress (rewrite ?rmw_thread_step_at; cbn [rmw_step fst snd negb])).
        exists o. apply nth_error_middle.
      * repeat (progress (rewrite ?rmw_thread_step_at; cbn [rmw_step fst snd negb];
                          unfold CAS; rewrite ?Z.eqb_refl)).
        exists a. apply nth_error_middle.
    + repeat (progress (rewrite ?rmw_thread_step_at; cbn [rmw_step fst snd negb])).
      exists o. apply nth_error_middle.
  - intros ->. rewrite Hfresh. cbn [fst snd].
    split; [apply nth_error_middle|]. split; [reflexivity|].
    intros t' Ht'.
    destruct (Nat.lt_ge_cases t' (length l1)) as [Hlt|Hge].
    + now rewrite !nth_error_app1 by lia.
    + rewrite !nth_error_app2 by lia.
      destruct (t' - length l1)%nat as [|k] eqn:E; [lia|]. reflexivity.
Qed.

Lemma rmw_solo_call_completes_witness :
  nth_error [(3, rmw_cas 10 13); (4, rmw_load)] 1 = Some (4, rmw_load) /\
  nth_error (fst (rmw_interleave Z.add [1; 1]%nat
                    [(3, rmw_cas 10 13); (4, rmw_load)] 10)) 1 =
  Some (4, rmw_done 10) /\
  snd (rmw_interleave Z.add [1; 1]%nat
         [(3, rmw_cas 10 13); (4, rmw_load)] 10) = 14.
Proof.
  split; [reflexivity|].
  destruct (rmw_solo_call_completes Z.add [(3, rmw_cas 10 13); (4, rmw_load)]
              1 4 rmw_load 10 eq_refl) as [_ H].
  destruct (H eq_refl) as (H1 & H2 & _).
  split; [exact H1|exact H2].
Defined.

(** ** pbbs::write_min under an order of the caller *)

Lemma write_min_thread_step_here less b pc rest a :
  pbbs.write_min_thread_step less O ((b, pc) :: rest) a =
  ((b, fst (pbbs.write_min_step less b pc a)) :: rest,
   snd (pbbs.write_min_step less b pc a)).
Proof.
  cbn [pbbs.write_min_thread_step].
  now destruct (pbbs.write_min_step less b pc a).
Qed.

Lemma write_min_thread_step_there less t b pc rest a :
  pbbs.write_min_thread_step less (S t) ((b, pc) :: rest) a =
  ((b, pc) :: fst (pbbs.write_min_thread_step less t rest a),
   snd (pbbs.write_min_thread_step less t rest a)).
Proof.
  cbn [pbbs.write_min_thread_step].
  now destruct (pbbs.write_min_thread_step less t rest a).
Qed.

Section WriteMinOrder.
Variable less : Z -> Z -> bool.
Hypothesis less_irrefl : forall x, less x x = false.
Hypothesis less_trans :
  forall x y z, less x y = true -> less y z = true -> less x z = true.

Lemma write_min_ok_lower a a' th :
  a' = a \/ less a' a = true ->
  write_min_ok less a th -> write_min_ok less a' th.
Proof.
  intros [->|Hlt]; [auto|]. unfold write_min_ok. destruct (snd th) as [|c|r].
  - auto.
  - intros [->|Hc]; right; [exact Hlt|]. now apply (less_trans a' a c).
  - intros Hb. destruct (less (fst th) a') eqn:E; [|reflexivity].
    now rewrite (less_trans _ _ _ E Hlt) in Hb.
Qed.

Lemma write_min_step_inv a0 vs l1 b pc l2 a :
  write_min_inv less a0 vs (l1 ++ (b, pc) :: l2) a ->
  write_min_inv less a0 vs
    (l1 ++ (b, fst (pbbs.write_min_step less b pc a)) :: l2)
    (snd (pbbs.write_min_step less b pc a)).
Proof.
  intros (Hvs & Hin & Hlow & Hall).
  assert (Hvs' : forall pc', map fst (l1 ++ (b, pc') :: l2) = vs).
  { intros pc'. rewrite <- Hvs, !map_app. reflexivity. }
  assert (Hb : In b vs).
  { rewrite <- Hvs, map_app. apply in_or_app. right. now left. }
  apply Forall_app in Hall. destruct Hall as [H1 Hall].
  apply Forall_cons_iff in Hall. destruct Hall as [Hth H2].
  assert (Hre : forall pc' a',
            a' = a \/ less a' a = true ->
            write_min_ok less a' (b, pc') ->
            Forall (write_min_ok less a') (l1 ++ (b, pc') :: l2)).
  { intros pc' a' Ha' Hnew. apply Forall_app. split.
    - eapply Forall_impl; [|exact H1]. intros th. now apply write_min_ok_lower.
    - constructor; [exact Hnew|].
      eapply Forall_impl; [|exact H2]. intros th. now apply write_min_ok_lower. }
  unfold write_min_ok in Hth. cbn [fst snd] in Hth.
  destruct pc as [|c|r]; cbn [pbbs.write_min_step fst snd].
  - split; [apply Hvs'|]. split; [exact Hin|]. split; [exact Hlow|].
    apply Hre; [now left|]. unfold write_min_ok. cbn. now left.
  - destruct (less b c) eqn:Hbc.
    + unfold CAS. destruct (Z.eqb_spec a c) as [->|Hne]; cbn [negb fst snd].
      * split; [apply Hvs'|]. split; [now right|]. split.
        -- right. destruct Hlow as [->|Hlow]; [exact Hbc|].
           now apply (less_trans b c a0).
        -- apply Hre; [now right|]. unfold write_min_ok. cbn.
           apply less_irrefl.
      * split; [apply Hvs'|]. split; [exact Hin|]. split; [exact Hlow|].
        apply Hre; [now left|]. exact I.
    + split; [apply Hvs'|]. split; [exact Hin|]. split; [exact Hlow|].
      apply Hre; [now left|]. unfold write_min_ok. cbn [fst snd].
      destruct Hth as [->|Hac]; [exact Hbc|].
      destruct (less b a) eqn:E; [|reflexivity].
      now rewrite (less_trans _ _ _ E Hac) in Hbc.
  - split; [apply Hvs'|]. split; [exact Hin|]. split; [exact Hlow|].
    apply Hre; [now left|]. exact Hth.
Qed.

Lemma write_min_interleave_inv a0 vs sched :
  let final := pbbs.write_min_interleave less sched
                 (map (fun v => (v, at_load)) vs) a0 in
  write_min_inv less a0 vs (fst final) (snd final).
Proof.
  cbv zeta. unfold pbbs.write_min_interleave.
  refine (pool_invariant (pbbs.write_min_step less)
            (pbbs.write_min_thread_step less) _ _ _
            (write_min_inv less a0 vs) _ sched _ a0 _).
  - intros t a'. reflexivity.
  - apply write_min_thread_step_here.
  - apply write_min_thread_step_there.
  - intros l1 b pc l2 a. apply write_min_step_inv.
  - split; [|split; [|split]].
    + rewrite map_map. cbn [fst]. apply map_id.
    + now left.
    + now left.
    + apply Forall_forall. intros th Hth. apply in_map_iff in Hth.
      destruct Hth as (v & <- & _). exact I.
Qed.
End WriteMinOrder.

(** X19: [pbbs::write_min(a, b, less)] with concurrent callers.  For an
    order [less] that is irreflexive and transitive, once all the callers
    have returned, however their loads and CASes were interleaved, the
    cell holds its initial value or one of the proposed values, and
    neither the initial value nor any proposed value goes before what it
    holds: it holds a least one of them. *)
Theorem write_min_stores_least (less : Z -> Z -> bool) (v0 : Z) (vs : list Z)
        (sched : list nat) :
  (forall x, less x x = false) ->
  (forall x y z, less x y = true -> less y z = true -> less x z = true) ->
  let final := pbbs.write_min_interleave less sched
                 (map (fun v => (v, at_load)) vs) v0 in
  all_returned (fst final) ->
  (snd final = v0 \/ In (snd final) vs) /\
  less v0 (snd final) = false /\
  forall v, In v vs -> less v (snd final) = false.
Proof.
  intros Hirr Htr final Hret.
  destruct (write_min_interleave_inv less Hirr Htr v0 vs sched)
    as (Hvs & Hin & Hlow & Hall).
  fold final in Hvs, Hin, Hlow, Hall.
  split; [exact Hin|]. split.
  - destruct Hlow as [->|Hlow]; [apply Hirr|].
    destruct (less v0 (snd final)) eqn:E; [|reflexivity].
    pose proof (Hirr v0) as H0. now rewrite (Htr _ _ _ E Hlow) in H0.
  - intros v Hv. rewrite <- Hvs in Hv. apply in_map_iff in Hv.
    destruct Hv as (th & <- & Hth).
    unfold all_returned in Hret. rewrite Forall_forall in Hall, Hret.
    specialize (Hall th Hth). destruct (Hret th Hth) as [r Hr].
    unfold write_min_ok in Hall. now rewrite Hr in Hall.
Qed.

Lemma write_min_stores_least_witness :
  (forall x, Z.gtb x x = false) /\
  (forall x y z, Z.gtb x y = true -> Z.gtb y z = true -> Z.gtb x z = true) /\
  all_returned (fst (pbbs.write_min_interleave Z.gtb [0; 1; 0; 1; 1; 1]%nat
                       (map (fun v => (v, at_load)) [5; 8]) 2)) /\
  snd (pbbs.write_min_interleave Z.gtb [0; 1; 0; 1; 1; 1]%nat
         (map (fun v => (v, at_load)) [5; 8]) 2) = 8.
Proof.
  assert (Hirr : forall x, Z.gtb x x = false)
    by (intros x; rewrite Z.gtb_ltb; apply Z.ltb_irrefl).
  assert (Htr : forall x y z,
             Z.gtb x y = true -> Z.gtb y z = true -> Z.gtb x z = true).
  { intros x y z. rewrite !Z.gtb_ltb, !Z.ltb_lt. lia. }
  assert (Hret : all_returned
                   (fst (pbbs.write_min_interleave Z.gtb [0; 1; 0; 1; 1; 1]%nat
                           (map (fun v => (v, at_load)) [5; 8]) 2))).
  { unfold all_returned. vm_compute.
    repeat (apply Forall_cons; [eexists; reflexivity|]). apply Forall_nil. }
  split; [exact Hirr|]. split; [exact Htr|]. split; [exact Hret|].
  destruct (write_min_stores_least Z.gtb 2 [5; 8] [0; 1; 0; 1; 1; 1]%nat
              Hirr Htr Hret) as ([H|H] & H0 & Hv).
  - exfalso. rewrite H in Hv. specialize (Hv 8 ltac:(cbn; auto)).
    vm_compute in Hv. discriminate.
  - destruct H as [H|[H|[]]]; [|now symmetry].
    exfalso. rewrite <- H in Hv. specialize (Hv 8 ltac:(cbn; auto)).
    vm_compute in Hv. discriminate.
Defined.

(** ** apply *)

Section ApplyCorrect.
Context {OT St : Type}.
Variable applyF : OT -> Z -> St -> St.
Variable endCondition : St -> bool.
Variable getter : St -> Z -> OT.

Lemma applySerial_loop_stop k j st :
  endCondition st = true ->
  sequence.applySerial_loop k j applyF endCondition getter st = st.
Proof. intros H. destruct k; cbn [sequence.applySerial_loop]; now rewrite ?H. Qed.

Lemma applySerial_loop_app k1 k2 j st :
  sequence.applySerial_loop (k1 + k2) j applyF endCondition getter st =
  sequence.applySerial_loop k2 (j + Z.of_nat k1) applyF endCondition getter
    (sequence.applySerial_loop k1 j applyF endCondition getter st).
Proof.
  revert j st. induction k1 as [|k1 IH]; intros j st.
  - cbn [Nat.add sequence.applySerial_loop]. now rewrite Z.add_0_r.
  - cbn [Nat.add sequence.applySerial_loop].
    destruct (endCondition st) eqn:E.
    + now rewrite applySerial_loop_stop.
    + rewrite IH. f_equal. lia.
Qed.

(** The loop over [[s, e)] is the loop over [[s, m)] followed by the loop
    over [[m, e)]: a loop left early leaves the condition true, which
    ends the next one at once. *)
Lemma applySerial_split s m e st :
  s <= m <= e ->
  sequence.applySerial s e applyF endCondition getter st =
  sequence.applySerial m e applyF endCondition getter
    (sequence.applySerial s m applyF endCondition getter st).
Proof.
  intros H. unfold sequence.applySerial.
  replace (Z.to_nat (e - s)) with (Z.to_nat (m - s) + Z.to_nat (e - m))%nat
    by lia.
  rewrite applySerial_loop_app. f_equal. lia.
Qed.

Lemma applySerial_stop s e st :
  endCondition st = true ->
  sequence.applySerial s e applyF endCondition getter st = st.
Proof. apply applySerial_loop_stop. Qed.

Lemma apply_blocks_in_order s e bsize (k : nat) st :
  s < e -> 0 < bsize -> Z.of_nat k <= nblocks (e - s) bsize ->
  fold_left
    (fun st i =>
       sequence.applySerial (s + i * bsize) (Z.min (s + i * bsize + bsize) e)
         applyF endCondition getter st)
    (range 0 (Z.of_nat k)) st =
  sequence.applySerial s (Z.min (s + Z.of_nat k * bsize) e)
    applyF endCondition getter st.
Proof.
  intros Hse Hb. induction k as [|k IH]; intros Hk.
  - rewrite range_nil by lia. cbn [fold_left].
    replace (Z.min (s + Z.of_nat 0 * bsize) e) with s by lia.
    unfold sequence.applySerial. now rewrite Z.sub_diag.
  - rewrite (range_snoc 0 (Z.of_nat (S k))) by lia.
    replace (Z.of_nat (S k) - 1) with (Z.of_nat k) by lia.
    rewrite fold_left_app. cbn [fold_left]. rewrite IH by lia.
    destruct (block_bounds s e bsize (Z.of_nat k) Hse Hb ltac:(lia))
      as (Hne & _ & _).
    replace (Z.min (s + Z.of_nat k * bsize) e) with (s + Z.of_nat k * bsize)
      by lia.
    replace (Z.min (s + Z.of_nat (S k) * bsize) e)
      with (Z.min (s + Z.of_nat k * bsize + bsize) e) by lia.
    symmetry. apply applySerial_split. lia.
Qed.
End ApplyCorrect.

(** X20: [apply] given a condition that already holds does nothing:
    [applyF] is not called, neither on the serial path nor by any block,
    in whatever order the blocks run. *)
Theorem apply_stops_at_once {OT St} (schedule : Z -> list Z) s e
        (applyF : OT -> Z -> St -> St) (endCondition : St -> bool)
        (getter : St -> Z -> OT) (st : St) :
  endCondition st = true ->
  sequence.apply schedule s e applyF endCondition getter st = st.
Proof.
  intros Hend. unfold sequence.apply. cbv zeta.
  destruct (nblocks (e - s) _SCAN_BSIZE <=? 1).
  - now apply applySerial_stop.
  - unfold blocked_for, parallel_for. cbv zeta.
    induction (schedule (nblocks (e - s) _SCAN_BSIZE)) as [|i l IH];
      cbn [fold_left]; [reflexivity|].
    now rewrite applySerial_stop.
Qed.

Lemma apply_stops_at_once_witness :
  (fun st : mem Z => 10 <=? st 0) (array_of 0 [12; 0]) = true /\
  sequence.apply in_order 0 5000
    (fun (x : Z) (j : Z) (st : mem Z) => upd st 0 (st 0 + x))
    (fun st => 10 <=? st 0) (fun st j => j) (array_of 0 [12; 0]) 0 = 12.
Proof.
  split; [reflexivity|].
  rewrite (apply_stops_at_once in_order 0 5000
             (fun (x : Z) (j : Z) (st : mem Z) => upd st 0 (st 0 + x))
             (fun st => 10 <=? st 0) (fun st j => j) (array_of 0 [12; 0])
             eq_refl).
  reflexivity.
Defined.

(** X21: when the blocks run one after another in index order, [apply]
    does what [applySerial] does on the whole range: [applyF] is called on
    the elements in index order up to the first point where the condition
    holds, and on none after it, also in the blocks that follow. *)
Theorem apply_in_order_is_applySerial {OT St} s e
        (applyF : OT -> Z -> St -> St) (endCondition : St -> bool)
        (getter : St -> Z -> OT) (st : St) :
  sequence.apply in_order s e applyF endCondition getter st =
  sequence.applySerial s e applyF endCondition getter st.
Proof.
  unfold sequence.apply. cbv zeta.
  destruct (Z.leb_spec (nblocks (e - s) _SCAN_BSIZE) 1) as [Hl|Hl];
    [reflexivity|].
  assert (Hse : s < e).
  { destruct (Z_lt_le_dec s e) as [H|H]; [exact H|].
    pose proof (nblocks_nonpos (e - s) _SCAN_BSIZE ltac:(lia)
                  ltac:(reflexivity)). lia. }
  assert (Hb : 0 < _SCAN_BSIZE) by reflexivity.
  unfold blocked_for, parallel_for, in_order. cbv zeta.
  pose proof (nblocks_cover (e - s) _SCAN_BSIZE ltac:(lia) Hb) as [_ Hhi].
  pose proof (apply_blocks_in_order applyF endCondition getter s e _SCAN_BSIZE
                (Z.to_nat (nblocks (e - s) _SCAN_BSIZE)) st Hse Hb
                ltac:(lia)) as H.
  rewrite Z2Nat.id in H by lia. rewrite H. f_equal. lia.
Qed.

(** ** namespace pbbs: log2_up, new_array_no_init and create_copy *)

Lemma log2_up_loop_count a b :
  pbbs.log2_up_loop a b = a + (if 0 <? b then Z.log2 b + 1 else 0).
Proof.
  remember (Z.to_nat b) as n eqn:Hn. revert a b Hn.
  induction n as [n IH] using lt_wf_ind. intros a b Hn.
  rewrite pbbs.log2_up_loop_equation_1.
  destruct (Z_gt_le_dec b 0) as [Hb|Hb]; cbn [pbbs.log2_up_loop_unfold_clause_1].
  - assert (Hhalf : 0 <= Z.shiftr b 1 < b).
    { rewrite Z.shiftr_div_pow2 by lia. change (2 ^ 1) with 2.
      split; [apply Z.div_pos; lia | apply Z.div_lt; lia]. }
    rewrite (IH (Z.to_nat (Z.shiftr b 1)) ltac:(lia) (a + 1) (Z.shiftr b 1) eq_refl).
    destruct (Z.ltb_spec 0 b); [|lia].
    destruct (Z.ltb_spec 0 (Z.shiftr b 1)) as [Hs|Hs].
    + rewrite Z.log2_shiftr by lia.
      assert (0 < Z.log2 b).
      { apply Z.log2_pos. destruct (Z.eq_dec b 1) as [->|]; lia. }
      lia.
    + assert (Z.shiftr b 1 = 0) as Hz by lia.
      apply Z.shiftr_eq_0_iff in Hz. destruct Hz as [->|[_ Hz]]; [lia|].
      assert (Z.log2 b = 0) by (pose proof (Z.log2_nonneg b); lia). lia.
  - destruct (Z.ltb_spec 0 b); lia.
Qed.

(** X22: [pbbs::log2_up(i)], at a signed type, is the logarithm in base 2
    of [i] rounded up: [0] for [i <= 1], and for [i >= 2] the one [a] with
    [2^(a-1) < i <= 2^a]. *)
Theorem log2_up_rounds_up (i : Z) :
  pbbs.log2_up i = Z.log2_up i /\
  (i <= 1 -> pbbs.log2_up i = 0) /\
  (2 <= i -> 2 ^ (pbbs.log2_up i - 1) < i <= 2 ^ pbbs.log2_up i).
Proof.
  assert (E : pbbs.log2_up i = Z.log2_up i).
  { unfold pbbs.log2_up. cbv zeta. rewrite log2_up_loop_count.
    unfold Z.log2_up. destruct (Z.compare_spec 1 i) as [H|H|H];
      destruct (Z.ltb_spec 0 (i - 1)); try lia.
    replace (Z.pred i) with (i - 1) by lia. lia. }
  split; [exact E|]. rewrite E. split.
  - intros Hi. apply Z.log2_up_eqn0. lia.
  - intros Hi. pose proof (Z.log2_up_spec i ltac:(lia)) as H.
    replace (Z.pred (Z.log2_up i)) with (Z.log2_up i - 1) in H by lia.
    exact H.
Qed.

Lemma mod_word_mod_line a : (a mod 2 ^ 64) mod 64 = a mod 64.
Proof.
  change 64 with (2 ^ 6) at 2 3.
  apply Z.bits_inj'. intros i Hi. destruct (Z_lt_le_dec i 6).
  - now rewrite !Z.mod_pow2_bits_low by lia.
  - now rewrite !Z.mod_pow2_bits_high by lia.
Qed.

(** X23: the number of bytes that [new_array_no_init<E>(n)] asks for is a
    multiple of the line size, 64, and a value of [size_t], whatever [n]
    and [sizeof(E)], also when [n * sizeof(E)] wraps around.  When
    [n * sizeof(E) + 64] fits [size_t] it is more than the [n * sizeof(E)]
    bytes of the array, by 64 at most: a whole line is added when the
    array ends on a line boundary. *)
Theorem new_array_bytes_padded (sizeof_E n : Z) :
  pbbs.new_array_bytes sizeof_E n mod pbbs.line_size = 0 /\
  0 <= pbbs.new_array_bytes sizeof_E n < 2 ^ 64 /\
  (0 <= n -> 0 < sizeof_E -> n * sizeof_E + 64 < 2 ^ 64 ->
   n * sizeof_E < pbbs.new_array_bytes sizeof_E n
     <= n * sizeof_E + pbbs.line_size /\
   ((n * sizeof_E) mod pbbs.line_size = 0 ->
    pbbs.new_array_bytes sizeof_E n = n * sizeof_E + pbbs.line_size)).
Proof.
  unfold pbbs.new_array_bytes, pbbs.u64, pbbs.line_size.
  split; [|split].
  - rewrite mod_word_mod_line. apply Z.mod_mul. lia.
  - apply Z.mod_pos_bound. reflexivity.
  - intros Hn Hsz Hfit.
    assert (0 <= n * sizeof_E) by nia.
    set (x := n * sizeof_E) in *.
    change (2 ^ 64) with 18446744073709551616 in *.
    rewrite (Z.mod_small x) by lia.
    pose proof (Z.div_mod x 64 ltac:(lia)) as Hdm.
    pose proof (Z.mod_pos_bound x 64 ltac:(lia)) as Hmod.
    assert (0 <= x / 64) by (apply Z.div_pos; lia).
    rewrite (Z.mod_small (x / 64 + 1)) by lia.
    rewrite (Z.mod_small ((x / 64 + 1) * 64)) by lia.
    split; [lia|]. intros Hz. lia.
Qed.

Lemma new_array_bytes_padded_witness :
  pbbs.new_array_bytes 4 16 = 128 /\
  pbbs.new_array_bytes 4 (2 ^ 62) mod 64 = 0 /\
  pbbs.new_array_bytes 4 (2 ^ 62) = 64.
Proof.
  destruct (new_array_bytes_padded 4 16) as (_ & _ & H).
  destruct (new_array_bytes_padded 4 (2 ^ 62)) as (H64 & _ & _).
  split; [|split; [exact H64|reflexivity]].
  apply H; [lia|lia|reflexivity|reflexivity].
Defined.

Lemma create_copy_row {T} (uninit : mem T) (row : mem T) i s
      (temp : mem (mem T)) :
  0 <= s ->
  let res := for_up 0 s (fun j temp => upd temp i (upd (temp i) j (row j)))
               (upd temp i uninit) in
  (forall j, res i j = if (0 <=? j) && (j <? s) then row j else uninit j) /\
  (forall i', i' <> i -> res i' = temp i').
Proof.
  intros Hs. cbv zeta.
  remember (Z.to_nat s) as k eqn:Hk. replace s with (Z.of_nat k) by lia.
  clear Hk Hs s. induction k as [|k IH].
  - rewrite for_up_none by lia. split.
    + intros j. rewrite upd_same.
      destruct (Z.leb_spec 0 j), (Z.ltb_spec j (Z.of_nat 0)); cbn [andb];
        (reflexivity || lia).
    + intros i' Hi'. now rewrite upd_other.
  - replace (Z.of_nat (S k)) with (Z.of_nat k + 1) by lia.
    rewrite for_up_snoc by lia. destruct IH as [IH1 IH2]. split.
    + intros j. rewrite upd_same.
      destruct (Z.eq_dec j (Z.of_nat k)) as [->|Hj].
      * rewrite upd_same.
        destruct (Z.leb_spec 0 (Z.of_nat k)),
          (Z.ltb_spec (Z.of_nat k) (Z.of_nat k + 1)); cbn [andb];
          (reflexivity || lia).
      * rewrite upd_other by lia. rewrite IH1.
        destruct (Z.leb_spec 0 j), (Z.ltb_spec j (Z.of_nat k)),
          (Z.ltb_spec j (Z.of_nat k + 1)); cbn [andb]; (reflexivity || lia).
    + intros i' Hi'. rewrite upd_other by lia. now apply IH2.
Qed.

(** X24: [create_copy(n, ref)] returns fresh storage whose first [n]
    cells hold [ref[0..n)], and [create_copy(n, s, ref)] fresh rows whose
    first [s] cells hold those of the rows of [ref], in whatever order the
    iterations of their parallel loops run; [ref] is only read. *)
Theorem create_copy_copies {T} (schedule : Z -> list Z) (uninit : mem T)
        (uninit_rows : mem (mem T)) (n s : Z) (ref : mem T)
        (refs : mem (mem T)) :
  (forall l, Permutation (schedule l) (range 0 l)) ->
  0 <= s ->
  (forall i, 0 <= i < n -> pbbs.create_copy schedule uninit n ref i = ref i) /\
  (forall i j, 0 <= i < n -> 0 <= j < s ->
     pbbs.create_copy_rows schedule uninit_rows uninit n s refs i j = refs i j).
Proof.
  intros Hs Hs0. split.
  - intros i Hi. unfold pbbs.create_copy. cbv zeta.
    rewrite (parallel_for_table ref uninit (schedule n) n (Hs n)).
    destruct (Z.leb_spec 0 i), (Z.ltb_spec i n); cbn [andb];
      (reflexivity || lia).
  - intros i j Hi Hj. unfold pbbs.create_copy_rows. cbv zeta.
    assert (Hin : In i (schedule n)) by (apply (in_schedule schedule n i (Hs n)); lia).
    assert (Hnd : NoDup (schedule n)) by apply (NoDup_schedule schedule n (Hs n)).
    revert Hin Hnd. generalize uninit_rows. unfold parallel_for.
    induction (schedule n) as [|k l IH]; intros temp Hin Hnd; [destruct Hin|].
    cbn [fold_left]. apply NoDup_cons_iff in Hnd. destruct Hnd as [Hk Hnd].
    destruct (create_copy_row uninit (refs k) k s temp Hs0) as [Hrow Hrest].
    cbv zeta in Hrow, Hrest.
    destruct Hin as [->|Hin].
    + (* row [i] is written now and by no later iteration *)
      assert (Hframe : forall l' temp',
                ~ In i l' ->
                fold_left
                  (fun temp i0 =>
                     for_up 0 s
                       (fun j0 temp0 =>
                          upd temp0 i0 (upd (temp0 i0) j0 (refs i0 j0)))
                       (upd temp i0 uninit)) l' temp' i = temp' i).
      { induction l' as [|k' l' IH']; intros temp' Hni; [reflexivity|].
        cbn [fold_left]. rewrite IH' by (intros H; apply Hni; now right).
        destruct (create_copy_row uninit (refs k') k' s temp' Hs0) as [_ Hr].
        apply Hr. intros ->. apply Hni. now left. }
      rewrite Hframe by exact Hk. rewrite Hrow.
      destruct (Z.leb_spec 0 j), (Z.ltb_spec j s); cbn [andb];
        (reflexivity || lia).
    + now apply IH.
Qed.

Lemma create_copy_copies_witness :
  (forall l, Permutation (rev (in_order l)) (range 0 l)) /\ 0 <= 2 /\
  pbbs.create_copy (fun l => rev (in_order l)) (fun _ => 0) 3
    (array_of 0 [7; 8; 9; 10]) 2 = 9 /\
  pbbs.create_copy_rows (fun l => rev (in_order l)) (fun _ _ => 0) (fun _ => 0)
    2 2 (array_of (fun _ => 0) [array_of 0 [1; 2]; array_of 0 [3; 4]]) 1 0 = 3.
Proof.
  assert (Hs : forall l, Permutation (rev (in_order l)) (range 0 l))
    by (intros l; apply Permutation_sym, Permutation_rev).
  split; [exact Hs|]. split; [lia|].
  destruct (create_copy_copies (fun l => rev (in_order l)) (fun _ => 0)
              (fun _ _ => 0) 2 2 (array_of 0 [7; 8; 9; 10])
              (array_of (fun _ => 0) [array_of 0 [1; 2]; array_of 0 [3; 4]])
              Hs ltac:(lia)) as [_ H2].
  destruct (create_copy_copies (fun l => rev (in_order l)) (fun _ => 0)
              (fun _ _ => 0) 3 2 (array_of 0 [7; 8; 9; 10])
              (array_of (fun _ => 0) [array_of 0 [1; 2]; array_of 0 [3; 4]])
              Hs ltac:(lia)) as [H1 _].
  split; [apply H1; lia | apply H2; lia].
Defined.

(** ** The hash functions permute the words *)

Lemma eqmod_bits k x y :
  0 <= k ->
  x mod 2 ^ k = y mod 2 ^ k <->
  forall i, 0 <= i < k -> Z.testbit x i = Z.testbit y i.
Proof.
  intros Hk. split.
  - intros H i Hi.
    rewrite <- (Z.mod_pow2_bits_low x k i), <- (Z.mod_pow2_bits_low y k i) by lia.
    now rewrite H.
  - intros H. apply Z.bits_inj'. intros i Hi. destruct (Z_lt_le_dec i k).
    + rewrite !Z.mod_pow2_bits_low by lia. apply H. lia.
    + now rewrite !Z.mod_pow2_bits_high by lia.
Qed.

Lemma word_high_bits w x i :
  0 <= w -> 0 <= x < 2 ^ w -> w <= i -> Z.testbit x i = false.
Proof.
  intros Hw Hx Hi. rewrite <- (Z.mod_small x (2 ^ w)) by lia.
  apply Z.mod_pow2_bits_high. lia.
Qed.

Lemma lxor_range w a b :
  0 <= w -> 0 <= a < 2 ^ w -> 0 <= b < 2 ^ w -> 0 <= Z.lxor a b < 2 ^ w.
Proof.
  intros Hw Ha Hb.
  assert (E : Z.lxor a b = Z.lxor a b mod 2 ^ w).
  { apply Z.bits_inj'. intros i Hi. destruct (Z_lt_le_dec i w).
    - now rewrite Z.mod_pow2_bits_low by lia.
    - rewrite Z.mod_pow2_bits_high by lia. rewrite Z.lxor_spec.
      now rewrite (word_high_bits w a), (word_high_bits w b) by lia. }
  rewrite E. apply Z.mod_pos_bound. apply Z.pow_pos_nonneg; lia.
Qed.

Lemma shiftr_range w a s :
  0 <= s -> 0 <= a < 2 ^ w -> 0 <= Z.shiftr a s < 2 ^ w.
Proof.
  intros Hs Ha. rewrite Z.shiftr_div_pow2 by lia.
  assert (0 < 2 ^ s) by (apply Z.pow_pos_nonneg; lia).
  split; [apply Z.div_pos; lia|].
  apply Z.div_lt_upper_bound; [lia|]. nia.
Qed.

Lemma lxor_cancel_r a b c : Z.lxor a c = Z.lxor b c -> a = b.
Proof.
  intros H.
  rewrite <- (Z.lxor_0_r a), <- (Z.lxor_0_r b), <- (Z.lxor_nilpotent c).
  now rewrite <- !Z.lxor_assoc, H.
Qed.

(** [x ^ (x >> s)]: the bits of [x] are found from the top one down. *)
Lemma xorshiftr_inj w s x y :
  0 < s -> 0 <= w -> 0 <= x < 2 ^ w -> 0 <= y < 2 ^ w ->
  Z.lxor x (Z.shiftr x s) = Z.lxor y (Z.shiftr y s) -> x = y.
Proof.
  intros Hs Hw Hx Hy H.
  enough (G : forall n : nat, forall i, w - Z.of_nat n <= i ->
                Z.testbit x i = Z.testbit y i).
  { apply Z.bits_inj'. intros i Hi. apply (G (Z.to_nat w)). lia. }
  induction n as [|n IH]; intros i Hi.
  - now rewrite (word_high_bits w x), (word_high_bits w y) by lia.
  - destruct (Z_le_gt_dec (w - Z.of_nat n) i) as [Hge|Hlt]; [now apply IH|].
    destruct (Z_lt_le_dec i 0) as [Hneg|Hpos].
    { now rewrite !Z.testbit_neg_r by lia. }
    assert (Hbit := f_equal (fun z => Z.testbit z i) H). cbv beta in Hbit.
    rewrite !Z.lxor_spec, !Z.shiftr_spec in Hbit by lia.
    rewrite (IH (i + s)) in Hbit by lia.
    destruct (Z.testbit x i), (Z.testbit y i), (Z.testbit y (i + s));
      cbn in Hbit; congruence.
Qed.

(** [(x ^ C) ^ (x >> s)] *)
Lemma xorshiftr_const_inj w s C x y :
  0 < s -> 0 <= w -> 0 <= x < 2 ^ w -> 0 <= y < 2 ^ w ->
  Z.lxor (Z.lxor x C) (Z.shiftr x s) = Z.lxor (Z.lxor y C) (Z.shiftr y s) ->
  x = y.
Proof.
  intros Hs Hw Hx Hy H. apply (xorshiftr_inj w s x y Hs Hw Hx Hy).
  apply (lxor_cancel_r _ _ C).
  rewrite !Z.lxor_assoc.
  rewrite (Z.lxor_comm (Z.shiftr x s) C), (Z.lxor_comm (Z.shiftr y s) C).
  rewrite <- !Z.lxor_assoc. exact H.
Qed.

Lemma pow2_mod_mod w k a :
  0 <= k <= w -> (a mod 2 ^ w) mod 2 ^ k = a mod 2 ^ k.
Proof.
  intros H. apply Z.bits_inj'. intros i Hi. destruct (Z_lt_le_dec i k).
  - now rewrite !Z.mod_pow2_bits_low by lia.
  - now rewrite !Z.mod_pow2_bits_high by lia.
Qed.

Lemma add_cancel_mod n x y C :
  (x + C) mod n = (y + C) mod n -> x mod n = y mod n.
Proof.
  intros H. replace x with (x + C - C) by lia. replace y with (y + C - C) by lia.
  now rewrite Zminus_mod, H, <- Zminus_mod.
Qed.

(** [A(x) ^ (x << s)], where the low bits of [A(x)] give those of [x]:
    the bits of [x] are found from the lowest one up. *)
Lemma lxor_shiftl_inj w s (A : Z -> Z) x y :
  0 < s -> 0 <= w ->
  (forall k, 0 <= k <= w ->
     A x mod 2 ^ k = A y mod 2 ^ k -> x mod 2 ^ k = y mod 2 ^ k) ->
  0 <= x < 2 ^ w -> 0 <= y < 2 ^ w ->
  Z.lxor (A x) (Z.shiftl x s mod 2 ^ w) = Z.lxor (A y) (Z.shiftl y s mod 2 ^ w) ->
  x = y.
Proof.
  intros Hs Hw HA Hx Hy H.
  enough (G : forall k : nat, Z.of_nat k <= w ->
                x mod 2 ^ Z.of_nat k = y mod 2 ^ Z.of_nat k).
  { specialize (G (Z.to_nat w) ltac:(lia)). rewrite Z2Nat.id in G by lia.
    now rewrite !Z.mod_small in G by lia. }
  induction k as [|k IH]; intros Hk.
  - cbn. now rewrite !Z.mod_1_r.
  - specialize (IH ltac:(lia)).
    rewrite (eqmod_bits (Z.of_nat k)) in IH by lia.
    apply HA; [lia|]. apply eqmod_bits; [lia|]. intros i Hi.
    assert (Hbit := f_equal (fun z => Z.testbit z i) H). cbv beta in Hbit.
    rewrite !Z.lxor_spec in Hbit.
    rewrite !Z.mod_pow2_bits_low in Hbit by lia.
    rewrite !Z.shiftl_spec in Hbit by lia.
    assert (Hlow : Z.testbit x (i - s) = Z.testbit y (i - s)).
    { destruct (Z_lt_le_dec (i - s) 0).
      - now rewrite !Z.testbit_neg_r by lia.
      - apply IH. lia. }
    rewrite Hlow in Hbit.
    destruct (Z.testbit (A x) i), (Z.testbit (A y) i), (Z.testbit y (i - s));
      cbn in Hbit; congruence.
Qed.

(** [(x + C) ^ (x << s)] and [x ^ (x << s)] in [w]-bit arithmetic *)
Lemma xor_add_shiftl_inj w s C x y :
  0 < s -> 0 <= w -> 0 <= x < 2 ^ w -> 0 <= y < 2 ^ w ->
  Z.lxor ((x + C) mod 2 ^ w) (Z.shiftl x s mod 2 ^ w) =
  Z.lxor ((y + C) mod 2 ^ w) (Z.shiftl y s mod 2 ^ w) ->
  x = y.
Proof.
  intros Hs Hw Hx Hy H.
  apply (lxor_shiftl_inj w s (fun x => (x + C) mod 2 ^ w) x y Hs Hw); auto.
  intros k Hk E. rewrite !pow2_mod_mod in E by lia.
  now apply (add_cancel_mod _ _ _ C).
Qed.

Lemma xorshiftl_inj w s x y :
  0 < s -> 0 <= w -> 0 <= x < 2 ^ w -> 0 <= y < 2 ^ w ->
  Z.lxor x (Z.shiftl x s mod 2 ^ w) = Z.lxor y (Z.shiftl y s mod 2 ^ w) ->
  x = y.
Proof.
  intros Hs Hw Hx Hy H.
  apply (lxor_shiftl_inj w s (fun x => x) x y Hs Hw); auto.
Qed.

(** [x * M + C] in [w]-bit arithmetic, for an odd [M] *)
Lemma mul_odd_inj w M C x y :
  0 <= w -> Z.gcd (2 ^ w) M = 1 -> 0 <= x < 2 ^ w -> 0 <= y < 2 ^ w ->
  (x * M + C) mod 2 ^ w = (y * M + C) mod 2 ^ w -> x = y.
Proof.
  intros Hw Hg Hx Hy H. apply add_cancel_mod in H.
  assert (Hpos : 0 < 2 ^ w) by (apply Z.pow_pos_nonneg; lia).
  assert (Hd : (2 ^ w | M * (x - y))).
  { apply Z.mod_divide; [lia|].
    replace (M * (x - y)) with (x * M - y * M) by lia.
    rewrite Zminus_mod, H, Z.sub_diag. now apply Z.mod_0_l; lia. }
  apply Z.gauss in Hd; [|exact Hg].
  destruct Hd as [q Hq]. assert (q = 0) by nia. subst q. lia.
Qed.

(** [(x + C) + (x << s)] in [w]-bit arithmetic is [x * (1 + 2^s) + C]. *)
Lemma add_shiftl_inj w s C x y :
  0 <= s -> 0 <= w -> Z.gcd (2 ^ w) (1 + 2 ^ s) = 1 ->
  0 <= x < 2 ^ w -> 0 <= y < 2 ^ w ->
  ((x + C) mod 2 ^ w + Z.shiftl x s mod 2 ^ w) mod 2 ^ w =
  ((y + C) mod 2 ^ w + Z.shiftl y s mod 2 ^ w) mod 2 ^ w ->
  x = y.
Proof.
  intros Hs Hw Hg Hx Hy H.
  assert (Hpos : 0 < 2 ^ w) by (apply Z.pow_pos_nonneg; lia).
  rewrite <- !Z.add_mod, !Z.shiftl_mul_pow2 in H by lia.
  apply (mul_odd_inj w (1 + 2 ^ s) C x y Hw Hg Hx Hy).
  replace (x * (1 + 2 ^ s) + C) with (x + C + x * 2 ^ s) by lia.
  replace (y * (1 + 2 ^ s) + C) with (y + C + y * 2 ^ s) by lia.
  exact H.
Qed.

(** [x * M + C] as the code writes it *)
Lemma mul_add_inj w M C x y :
  0 <= w -> Z.gcd (2 ^ w) M = 1 -> 0 <= x < 2 ^ w -> 0 <= y < 2 ^ w ->
  ((x * M) mod 2 ^ w + C) mod 2 ^ w = ((y * M) mod 2 ^ w + C) mod 2 ^ w ->
  x = y.
Proof.
  intros Hw Hg Hx Hy H. rewrite !Zplus_mod_idemp_l in H.
  now apply (mul_odd_inj w M C x y).
Qed.

Lemma mul_inj w M x y :
  0 <= w -> Z.gcd (2 ^ w) M = 1 -> 0 <= x < 2 ^ w -> 0 <= y < 2 ^ w ->
  (x * M) mod 2 ^ w = (y * M) mod 2 ^ w -> x = y.
Proof.
  intros Hw Hg Hx Hy H. apply (mul_odd_inj w M 0 x y Hw Hg Hx Hy).
  now rewrite !Z.add_0_r.
Qed.

(** Each step maps words to words and can be undone. *)
Section Steps.
Variable w : Z.
Hypothesis w_nonneg : 0 <= w.

Lemma pow2_pos : 0 < 2 ^ w.
Proof. apply Z.pow_pos_nonneg; lia. Qed.

Lemma xor_shiftr_range C s x :
  0 <= s -> 0 <= C < 2 ^ w -> 0 <= x < 2 ^ w -> 0 <= xor_shiftr C s x < 2 ^ w.
Proof.
  intros Hs HC Hx. unfold xor_shiftr.
  apply lxor_range; [lia | apply lxor_range; lia | now apply shiftr_range].
Qed.

Lemma xor_shiftr_inj C s x y :
  0 < s -> 0 <= x < 2 ^ w -> 0 <= y < 2 ^ w ->
  xor_shiftr C s x = xor_shiftr C s y -> x = y.
Proof. intros Hs. now apply xorshiftr_const_inj. Qed.

Lemma xorshiftr_range s x :
  0 <= s -> 0 <= x < 2 ^ w -> 0 <= xorshiftr s x < 2 ^ w.
Proof.
  intros Hs Hx. unfold xorshiftr.
  apply lxor_range; [lia | lia | now apply shiftr_range].
Qed.

Lemma xorshiftr_step_inj s x y :
  0 < s -> 0 <= x < 2 ^ w -> 0 <= y < 2 ^ w ->
  xorshiftr s x = xorshiftr s y -> x = y.
Proof. intros Hs. now apply xorshiftr_inj. Qed.

Lemma add_shiftl_range C s x : 0 <= add_shiftl w C s x < 2 ^ w.
Proof. unfold add_shiftl. apply Z.mod_pos_bound, pow2_pos. Qed.

Lemma add_shiftl_step_inj C s x y :
  0 <= s -> Z.gcd (2 ^ w) (1 + 2 ^ s) = 1 ->
  0 <= x < 2 ^ w -> 0 <= y < 2 ^ w ->
  add_shiftl w C s x = add_shiftl w C s y -> x = y.
Proof. intros Hs. now apply add_shiftl_inj. Qed.

Lemma add_xor_shiftl_range C s x : 0 <= add_xor_shiftl w C s x < 2 ^ w.
Proof.
  unfold add_xor_shiftl.
  apply lxor_range; [lia | |]; apply Z.mod_pos_bound, pow2_pos.
Qed.

Lemma add_xor_shiftl_inj C s x y :
  0 < s -> 0 <= x < 2 ^ w -> 0 <= y < 2 ^ w ->
  add_xor_shiftl w C s x = add_xor_shiftl w C s y -> x = y.
Proof. intros Hs. now apply xor_add_shiftl_inj. Qed.

Lemma xorshiftl_range s x : 0 <= x < 2 ^ w -> 0 <= xorshiftl w s x < 2 ^ w.
Proof.
  intros Hx. unfold xorshiftl.
  apply lxor_range; [lia | lia | apply Z.mod_pos_bound, pow2_pos].
Qed.

Lemma xorshiftl_step_inj s x y :
  0 < s -> 0 <= x < 2 ^ w -> 0 <= y < 2 ^ w ->
  xorshiftl w s x = xorshiftl w s y -> x = y.
Proof. intros Hs. now apply xorshiftl_inj. Qed.

Lemma mul_add_range M C x : 0 <= mul_add w M C x < 2 ^ w.
Proof. unfold mul_add. apply Z.mod_pos_bound, pow2_pos. Qed.

Lemma mul_add_step_inj M C x y :
  Z.gcd (2 ^ w) M = 1 -> 0 <= x < 2 ^ w -> 0 <= y < 2 ^ w ->
  mul_add w M C x = mul_add w M C y -> x = y.
Proof. now apply mul_add_inj. Qed.

Lemma mul_word_range M x : 0 <= mul_word w M x < 2 ^ w.
Proof. unfold mul_word. apply Z.mod_pos_bound, pow2_pos. Qed.

Lemma mul_word_inj M x y :
  Z.gcd (2 ^ w) M = 1 -> 0 <= x < 2 ^ w -> 0 <= y < 2 ^ w ->
  mul_word w M x = mul_word w M y -> x = y.
Proof. now apply mul_inj. Qed.
End Steps.

(** Side conditions on literals. *)
Ltac closed_arith :=
  vm_compute;
  first [ reflexivity | discriminate | (split; [discriminate | reflexivity]) ].

Lemma hash32_steps a :
  pbbs.hash32 a =
  xor_shiftr 0xb55a4f09 16
    (add_shiftl 32 0xfd7046c5 3
       (add_xor_shiftl 32 0xd3a2646c 9
          (add_shiftl 32 0x165667b1 5
             (xor_shiftr 0xc761c23c 19 (add_shiftl 32 0x7ed55d16 12 a))))).
Proof.
  unfold pbbs.hash32, pbbs.u32, xor_shiftr, add_shiftl, add_xor_shiftl.
  reflexivity.
Qed.

Lemma hash32_range a : 0 <= a < 2 ^ 32 -> 0 <= pbbs.hash32 a < 2 ^ 32.
Proof.
  intros Ha. rewrite hash32_steps.
  apply xor_shiftr_range; [closed_arith..|].
  apply add_shiftl_range. closed_arith.
Qed.

Lemma hash32_inj a b :
  0 <= a < 2 ^ 32 -> 0 <= b < 2 ^ 32 ->
  pbbs.hash32 a = pbbs.hash32 b -> a = b.
Proof.
  intros Ha Hb H. rewrite !hash32_steps in H.
  assert (W : 0 <= 32) by closed_arith.
  apply (xor_shiftr_inj 32 W) in H;
    [|closed_arith|apply (add_shiftl_range 32 W)..].
  apply (add_shiftl_step_inj 32 W) in H;
    [|closed_arith|closed_arith|apply (add_xor_shiftl_range 32 W)..].
  apply (add_xor_shiftl_inj 32 W) in H;
    [|closed_arith|apply (add_shiftl_range 32 W)..].
  assert (R : forall x, 0 <= x < 2 ^ 32 ->
                0 <= xor_shiftr 0xc761c23c 19 (add_shiftl 32 0x7ed55d16 12 x)
                < 2 ^ 32).
  { intros x Hx. apply (xor_shiftr_range 32 W); [closed_arith..|].
    apply (add_shiftl_range 32 W). }
  apply (add_shiftl_step_inj 32 W) in H;
    [|closed_arith|closed_arith|now apply R..].
  apply (xor_shiftr_inj 32 W) in H;
    [|closed_arith|apply (add_shiftl_range 32 W)..].
  apply (add_shiftl_step_inj 32 W) in H;
    [|closed_arith|closed_arith|assumption..].
  exact H.
Qed.

(** X25: [hashInt(uint)] and [pbbs::hash32], which are the same function,
    map the 32-bit words to 32-bit words and no two of them to the same
    one: each of the six steps can be undone. *)
Theorem hash32_no_collision (a b : Z) :
  0 <= a < 2 ^ 32 -> 0 <= b < 2 ^ 32 ->
  hashInt_uint a = pbbs.hash32 a /\
  0 <= pbbs.hash32 a < 2 ^ 32 /\
  (pbbs.hash32 a = pbbs.hash32 b -> a = b).
Proof.
  intros Ha Hb. split; [unfold hashInt_uint, pbbs.hash32; reflexivity|]. split.
  - now apply hash32_range.
  - now apply hash32_inj.
Qed.

Lemma hash32_no_collision_witness :
  0 <= 0 < 2 ^ 32 /\ 0 <= 4294967295 < 2 ^ 32 /\
  hashInt_uint 0 = 1800329511 /\
  pbbs.hash32 0 <> pbbs.hash32 4294967295.
Proof.
  assert (H0 : 0 <= 0 < 2 ^ 32) by closed_arith.
  assert (H1 : 0 <= 4294967295 < 2 ^ 32) by closed_arith.
  split; [exact H0|]. split; [exact H1|].
  destruct (hash32_no_collision 0 4294967295 H0 H1) as (E & _ & Hinj).
  split.
  - rewrite E. vm_compute. reflexivity.
  - intros Heq. apply Hinj in Heq. discriminate.
Defined.

Lemma hashInt_ulong_steps a :
  hashInt_ulong a =
  xor_shiftr 0xb55a4f090dd4a67b 32
    (add_shiftl 64 0xfd7046c5ef9ab54c 3
       (add_xor_shiftl 64 0xd3a2646cab3487e3 49
          (add_shiftl 64 0x165667b183a9c0e1 59
             (xor_shiftr 0xc761c23c510fa2dd 9
                (add_shiftl 64 0x7ed55d166bef7a1d 12 a))))).
Proof.
  unfold hashInt_ulong, pbbs.u64, xor_shiftr, add_shiftl, add_xor_shiftl.
  reflexivity.
Qed.

Lemma hashInt_ulong_range a : 0 <= a < 2 ^ 64 -> 0 <= hashInt_ulong a < 2 ^ 64.
Proof.
  intros Ha. rewrite hashInt_ulong_steps.
  apply xor_shiftr_range; [closed_arith..|].
  apply add_shiftl_range. closed_arith.
Qed.

Lemma hashInt_ulong_inj a b :
  0 <= a < 2 ^ 64 -> 0 <= b < 2 ^ 64 ->
  hashInt_ulong a = hashInt_ulong b -> a = b.
Proof.
  intros Ha Hb H. rewrite !hashInt_ulong_steps in H.
  assert (W : 0 <= 64) by closed_arith.
  apply (xor_shiftr_inj 64 W) in H;
    [|closed_arith|apply (add_shiftl_range 64 W)..].
  apply (add_shiftl_step_inj 64 W) in H;
    [|closed_arith|closed_arith|apply (add_xor_shiftl_range 64 W)..].
  apply (add_xor_shiftl_inj 64 W) in H;
    [|closed_arith|apply (add_shiftl_range 64 W)..].
  assert (R : forall x,
             0 <= xor_shiftr 0xc761c23c510fa2dd 9
                    (add_shiftl 64 0x7ed55d166bef7a1d 12 x) < 2 ^ 64).
  { intros x. apply (xor_shiftr_range 64 W); [closed_arith..|].
    apply (add_shiftl_range 64 W). }
  apply (add_shiftl_step_inj 64 W) in H;
    [|closed_arith|closed_arith|apply R..].
  apply (xor_shiftr_inj 64 W) in H;
    [|closed_arith|apply (add_shiftl_range 64 W)..].
  apply (add_shiftl_step_inj 64 W) in H;
    [|closed_arith|closed_arith|assumption..].
  exact H.
Qed.

(** X26: [hashInt(ulong)] maps the 64-bit words to 64-bit words and no
    two of them to the same one. *)
Theorem hashInt_ulong_no_collision (a b : Z) :
  0 <= a < 2 ^ 64 -> 0 <= b < 2 ^ 64 ->
  0 <= hashInt_ulong a < 2 ^ 64 /\
  (hashInt_ulong a = hashInt_ulong b -> a = b).
Proof.
  intros Ha Hb. split.
  - now apply hashInt_ulong_range.
  - now apply hashInt_ulong_inj.
Qed.

Lemma hashInt_ulong_no_collision_witness :
  0 <= 12345 < 2 ^ 64 /\ 0 <= 18446744073709551615 < 2 ^ 64 /\
  hashInt_ulong 12345 <> hashInt_ulong 18446744073709551615.
Proof.
  assert (H0 : 0 <= 12345 < 2 ^ 64) by closed_arith.
  assert (H1 : 0 <= 18446744073709551615 < 2 ^ 64) by closed_arith.
  split; [exact H0|]. split; [exact H1|].
  destruct (hashInt_ulong_no_collision 12345 18446744073709551615 H0 H1)
    as (_ & Hinj).
  intros Heq. apply Hinj in Heq. discriminate.
Defined.

Lemma hash64_steps u :
  pbbs.hash64 u =
  xorshiftl 64 5
    (xorshiftr 41
       (xorshiftl 64 20
          (mul_word 64 4768777513237032717
             (xorshiftr 4
                (xorshiftl 64 37
                   (xorshiftr 21
                      (mul_add 64 3935559000370003845 2691343689449507681
                         u))))))).
Proof.
  unfold pbbs.hash64, pbbs.u64, xorshiftl, xorshiftr, mul_word, mul_add.
  reflexivity.
Qed.

Lemma hash64_range u : 0 <= pbbs.hash64 u < 2 ^ 64.
Proof.
  rewrite hash64_steps.
  assert (W : 0 <= 64) by closed_arith.
  apply (xorshiftl_range 64 W), (xorshiftr_range 64 W); [closed_arith|].
  apply (xorshiftl_range 64 W), (mul_word_range 64 W).
Qed.

Lemma hash64_inj a b :
  0 <= a < 2 ^ 64 -> 0 <= b < 2 ^ 64 ->
  pbbs.hash64 a = pbbs.hash64 b -> a = b.
Proof.
  intros Ha Hb H. rewrite !hash64_steps in H.
  assert (W : 0 <= 64) by closed_arith.
  assert (R1 : forall x, 0 <= mul_add 64 3935559000370003845
                                2691343689449507681 x < 2 ^ 64)
    by (intros x; apply (mul_add_range 64 W)).
  assert (R2 : forall x, 0 <= x < 2 ^ 64 -> 0 <= xorshiftr 21 x < 2 ^ 64)
    by (intros x Hx; apply (xorshiftr_range 64 W); [closed_arith|exact Hx]).
  assert (R3 : forall s x, 0 <= x < 2 ^ 64 -> 0 <= xorshiftl 64 s x < 2 ^ 64)
    by (intros s x Hx; now apply (xorshiftl_range 64 W)).
  assert (R4 : forall x, 0 <= x < 2 ^ 64 -> 0 <= xorshiftr 4 x < 2 ^ 64)
    by (intros x Hx; apply (xorshiftr_range 64 W); [closed_arith|exact Hx]).
  assert (R5 : forall x, 0 <= mul_word 64 4768777513237032717 x < 2 ^ 64)
    by (intros x; apply (mul_word_range 64 W)).
  assert (R7 : forall x, 0 <= x < 2 ^ 64 -> 0 <= xorshiftr 41 x < 2 ^ 64)
    by (intros x Hx; apply (xorshiftr_range 64 W); [closed_arith|exact Hx]).
  apply (xorshiftl_step_inj 64 W) in H;
    [|closed_arith|apply R7, R3, R5..].
  apply (xorshiftr_step_inj 64 W) in H; [|closed_arith|apply R3, R5..].
  apply (xorshiftl_step_inj 64 W) in H; [|closed_arith|apply R5..].
  apply (mul_word_inj 64 W) in H;
    [|closed_arith|apply R4, R3, R2, R1..].
  apply (xorshiftr_step_inj 64 W) in H; [|closed_arith|apply R3, R2, R1..].
  apply (xorshiftl_step_inj 64 W) in H; [|closed_arith|apply R2, R1..].
  apply (xorshiftr_step_inj 64 W) in H; [|closed_arith|apply R1..].
  apply (mul_add_step_inj 64 W) in H; [|closed_arith|assumption..].
  exact H.
Qed.

(** X27: [pbbs::hash64] maps the 64-bit words to 64-bit words and no two
    of them to the same one: its two multipliers are odd and its six
    xor-shifts can be undone. *)
Theorem hash64_no_collision (a b : Z) :
  0 <= a < 2 ^ 64 -> 0 <= b < 2 ^ 64 ->
  0 <= pbbs.hash64 a < 2 ^ 64 /\
  (pbbs.hash64 a = pbbs.hash64 b -> a = b).
Proof.
  intros Ha Hb. split.
  - apply hash64_range.
  - now apply hash64_inj.
Qed.

Lemma hash64_no_collision_witness :
  0 <= 12345 < 2 ^ 64 /\ 0 <= 18446744073709551615 < 2 ^ 64 /\
  pbbs.hash64 12345 <> pbbs.hash64 18446744073709551615.
Proof.
  assert (H0 : 0 <= 12345 < 2 ^ 64) by closed_arith.
  assert (H1 : 0 <= 18446744073709551615 < 2 ^ 64) by closed_arith.
  split; [exact H0|]. split; [exact H1|].
  destruct (hash64_no_collision 12345 18446744073709551615 H0 H1)
    as (_ & Hinj).
  intros Heq. apply Hinj in Heq. discriminate.
Defined.

(** ** More on the blocks, fetch_and_add and write_min *)

(** X28: the macro [nblocks(n, bsize)], with C's truncating division: for
    [n >= 1] it is the ceiling of [n / bsize], the least number of blocks
    of [bsize] cells that cover [n] cells; for [1 - bsize < n <= 0], so
    for [n = 0] when [bsize >= 2], it is [1], one block, which is empty;
    and no [n <= 0] gives more than one block. *)
Theorem nblocks_is_ceiling (n bsize : Z) :
  0 < bsize ->
  (1 <= n ->
   nblocks n bsize = (n + bsize - 1) / bsize /\
   (nblocks n bsize - 1) * bsize < n <= nblocks n bsize * bsize) /\
  (1 - bsize < n <= 0 -> nblocks n bsize = 1) /\
  (n <= 0 -> nblocks n bsize <= 1).
Proof.
  intros Hb. split; [|split].
  - intros Hn. split; [|now apply nblocks_cover].
    rewrite nblocks_pos by lia.
    replace (n + bsize - 1) with (n - 1 + 1 * bsize) by lia.
    rewrite Z.div_add by lia. lia.
  - intros Hn. unfold nblocks.
    replace (n - 1) with (Z.opp (1 - n)) by lia.
    rewrite Z.quot_opp_l by lia. rewrite Z.quot_small by lia. reflexivity.
  - intros Hn. apply nblocks_nonpos; lia.
Qed.

Lemma nblocks_is_ceiling_witness :
  0 < 1024 /\ nblocks 2049 1024 = 3 /\ nblocks 2048 1024 = 2 /\
  nblocks 0 1024 = 1.
Proof.
  split; [lia|].
  destruct (nblocks_is_ceiling 2049 1024 ltac:(lia)) as (H & _).
  destruct (nblocks_is_ceiling 2048 1024 ltac:(lia)) as (H' & _).
  destruct (nblocks_is_ceiling 0 1024 ltac:(lia)) as (_ & H0 & _).
  split; [exact (proj1 (H ltac:(lia)))|].
  split; [exact (proj1 (H' ltac:(lia)))|]. apply H0. lia.
Defined.

Lemma rmw_history_args b o ths :
  In (b, o) (rmw_history ths) -> In b (map fst ths).
Proof.
  unfold rmw_history. rewrite in_flat_map. intros ([b' pc] & Hin & Hx).
  cbn [fst snd] in Hx. destruct pc; try contradiction.
  destruct Hx as [Hx|[]]. injection Hx as -> _.
  apply in_map_iff. exists (b, rmw_done oldV). split; [reflexivity|exact Hin].
Qed.

Lemma sum_perm l l' :
  Permutation l l' -> fold_right Z.add 0 l = fold_right Z.add 0 l'.
Proof. induction 1; cbn [fold_right]; lia. Qed.

Lemma rmw_history_sum ths :
  (forall th, In th ths -> 0 <= fst th) ->
  fold_right Z.add 0 (map fst (rmw_history ths)) <=
  fold_right Z.add 0 (map fst ths).
Proof.
  induction ths as [|[b pc] ths IH]; intros Hpos; [cbn; lia|].
  assert (Hb : 0 <= b) by (apply (Hpos (b, pc)); now left).
  specialize (IH (fun th Hth => Hpos th (or_intror Hth))).
  unfold rmw_history in *. cbn [flat_map map fold_right fst snd].
  destruct pc; cbn [app map fold_right fst]; lia.
Qed.

(** A chain of additions that stays inside the range on which the
    reduction of the counter's type does nothing. *)
Lemma rmw_chain_add_sorted (wrap : Z -> Z) lo hi h c a :
  (forall x, lo <= x <= hi -> wrap x = x) ->
  (forall x, In x h -> 0 <= fst x) ->
  lo <= c -> c + fold_right Z.add 0 (map fst h) <= hi ->
  rmw_chain (fun a b => wrap (a + b)) c h a ->
  StronglySorted (fun x y => snd x + fst x <= snd y) h /\
  a = c + fold_right Z.add 0 (map fst h) /\
  forall x, In x h -> c <= snd x /\ snd x + fst x <= a.
Proof.
  intros Hwrap. revert c. induction h as [|[b o] h IH]; intros c Hpos Hlo Hhi;
    cbn [rmw_chain map fold_right fst] in *.
  - intros ->. split; [constructor|]. split; [lia|]. intros x [].
  - intros [-> Hch].
    assert (Hb : 0 <= b) by (apply (Hpos (b, c)); now left).
    assert (Hsum : 0 <= fold_right Z.add 0 (map fst h)).
    { clear - Hpos. induction h as [|x h IH]; cbn [map fold_right]; [lia|].
      assert (0 <= fst x) by (apply Hpos; right; now left).
      assert (0 <= fold_right Z.add 0 (map fst h)); [|lia].
      apply IH. intros y [Hy|Hy]; apply Hpos; [now left|right; now right]. }
    rewrite Hwrap in Hch by lia.
    destruct (IH (c + b) (fun x Hx => Hpos x (or_intror Hx)) ltac:(lia)
                ltac:(lia) Hch) as (Hs & Ha & Hx).
    split; [|split; [lia|]].
    + constructor; [exact Hs|]. apply Forall_forall. intros x Hin.
      cbn [fst snd]. apply (Hx x Hin).
    + intros x [<-|Hin]; cbn [fst snd]; [lia|].
      destruct (Hx x Hin). lia.
Qed.

(** X29: [pbbs::fetch_and_add] hands out disjoint ranges as long as the
    counter does not overflow.  The counter has an integer type whose [+]
    reduces its result by [wrap], which leaves the values from the initial
    one up to [hi] as they are, and the concurrent callers add positive
    amounts whose sum with the initial value is at most [hi].  Then, under
    any interleaving, stopped anywhere, the callers that are through,
    taken in a suitable order, have each been returned a value that is at
    least the value returned to the one before plus the amount of that
    one; so no two of the ranges [[old, old + b)] meet, all lie between
    the initial value and the value of the counter, and the returned
    values are pairwise distinct. *)
Theorem fetch_and_add_disjoint_ranges (wrap : Z -> Z) (hi a0 : Z)
        (bs : list Z) (sched : list nat) :
  (forall x, a0 <= x <= hi -> wrap x = x) ->
  (forall b, In b bs -> 0 < b) ->
  a0 + fold_right Z.add 0 bs <= hi ->
  let final := rmw_interleave (fun a b => wrap (a + b)) sched
                 (map (fun b => (b, rmw_load)) bs) a0 in
  (exists h,
     Permutation h (rmw_history (fst final)) /\
     StronglySorted (fun x y => snd x + fst x <= snd y) h) /\
  (forall x, In x (rmw_history (fst final)) ->
     a0 <= snd x /\ snd x + fst x <= snd final) /\
  NoDup (map snd (rmw_history (fst final))).
Proof.
  intros Hwrap Hbs Hfit final.
  destruct (rmw_interleave_inv (fun a b => wrap (a + b)) a0 bs sched)
    as (Hargs & _ & h & Hperm & Hch).
  fold final in Hargs, Hperm, Hch.
  assert (Hpos : forall x, In x h -> 0 < fst x).
  { intros [b o] Hx. apply Hbs. rewrite <- Hargs.
    apply (rmw_history_args b o). now apply (Permutation_in _ Hperm). }
  assert (Hsum : fold_right Z.add 0 (map fst h) <= fold_right Z.add 0 bs).
  { rewrite (sum_perm _ _ (Permutation_map fst Hperm)), <- Hargs.
    apply rmw_history_sum. intros th Hth.
    apply Z.lt_le_incl, Hbs. rewrite <- Hargs. now apply in_map. }
  destruct (rmw_chain_add_sorted wrap a0 hi h a0 (snd final) Hwrap
              (fun x Hx => Z.lt_le_incl _ _ (Hpos x Hx)) ltac:(lia)
              ltac:(lia) Hch)
    as (Hsorted & _ & Hin).
  split; [exists h; split; assumption|]. split.
  - intros x Hx. apply Hin. now apply (Permutation_in _ (Permutation_sym Hperm)).
  - apply (Permutation_NoDup (Permutation_map snd Hperm)).
    clear Hperm Hch Hin Hsum. induction Hsorted as [|x h Hs IH Hx]; cbn [map].
    + constructor.
    + constructor.
      * intros Hmem. apply in_map_iff in Hmem. destruct Hmem as (y & Ey & Hy).
        rewrite Forall_forall in Hx. specialize (Hx y Hy).
        specialize (Hpos x (or_introl eq_refl)). lia.
      * apply IH. intros y Hy. apply Hpos. now right.
Qed.

Lemma fetch_and_add_disjoint_ranges_witness :
  (forall x, 4294967280 <= x <= 4294967295 -> x mod 2 ^ 32 = x) /\
  (forall b, In b [3; 4] -> 0 < b) /\
  4294967280 + fold_right Z.add 0 [3; 4] <= 4294967295 /\
  map snd (rmw_history
             (fst (rmw_interleave (fun a b => (a + b) mod 2 ^ 32)
                     [0; 1; 0; 1; 1; 1]%nat
                     (map (fun b => (b, rmw_load)) [3; 4]) 4294967280))) =
  [4294967280; 4294967283] /\
  NoDup (map snd (rmw_history
                    (fst (rmw_interleave (fun a b => (a + b) mod 2 ^ 32)
                            [0; 1; 0; 1; 1; 1]%nat
                            (map (fun b => (b, rmw_load)) [3; 4]) 4294967280)))).
Proof.
  assert (Hw : forall x, 4294967280 <= x <= 4294967295 -> x mod 2 ^ 32 = x).
  { intros x Hx. apply Z.mod_small. change (2 ^ 32) with 4294967296. lia. }
  assert (Hb : forall b, In b [3; 4] -> 0 < b).
  { intros b [<-|[<-|[]]]; lia. }
  assert (Hfit : 4294967280 + fold_right Z.add 0 [3; 4] <= 4294967295)
    by (cbn; lia).
  split; [exact Hw|]. split; [exact Hb|]. split; [exact Hfit|].
  split; [vm_compute; reflexivity|].
  destruct (fetch_and_add_disjoint_ranges (fun x => x mod 2 ^ 32) 4294967295
              4294967280 [3; 4] [0; 1; 0; 1; 1; 1]%nat Hw Hb Hfit)
    as (_ & _ & H).
  exact H.
Defined.

Lemma write_min_thread_step_at less l1 b pc l2 a :
  pbbs.write_min_thread_step less (length l1) (l1 ++ (b, pc) :: l2) a =
  (l1 ++ (b, fst (pbbs.write_min_step less b pc a)) :: l2,
   snd (pbbs.write_min_step less b pc a)).
Proof.
  refine (pool_step_at (pbbs.write_min_step less)
            (pbbs.write_min_thread_step less) _ _ l1 b pc l2 a).
  - apply write_min_thread_step_here.
  - apply write_min_thread_step_there.
Qed.

(** X30: a call of [pbbs::write_min(a, b, less)] that runs with no step of
    another caller in between takes two steps, the load and the test with
    its CAS, and has returned: it returns [true] exactly when [b] goes
    before the value [a] that the cell held, the cell then holds [b], and
    otherwise the cell is left as it was; no other caller has moved.
    [writeMin] is the case [less(b, c) = (c > b)]. *)
Theorem write_min_solo_call (less : Z -> Z -> bool) (ths : writeMin_threads)
        (t : nat) (b a : Z) :
  nth_error ths t = Some (b, at_load) ->
  let final := pbbs.write_min_interleave less [t; t] ths a in
  nth_error (fst final) t = Some (b, returned (less b a)) /\
  snd final = (if less b a then b else a) /\
  (forall t', t' <> t -> nth_error (fst final) t' = nth_error ths t') /\
  (forall pc a',
     pbbs.write_min_step (fun b c => c >? b) b pc a' = writeMin_step b pc a').
Proof.
  intros Hnth. apply nth_error_split in Hnth.
  destruct Hnth as (l1 & l2 & -> & <-). cbv zeta.
  unfold pbbs.write_min_interleave. cbn [fold_left].
  rewrite !write_min_thread_step_at. cbn [pbbs.write_min_step fst snd].
  assert (E : (if less b a
               then let '(a1, r) := CAS a a b in
                    if negb r then (at_load, a1) else (returned r, a1)
               else (returned false, a)) =
              (returned (less b a), if less b a then b else a)).
  { unfold CAS. rewrite Z.eqb_refl. now destruct (less b a). }
  rewrite E. cbn [fst snd].
  split; [apply nth_error_middle|]. split; [reflexivity|]. split.
  - intros t' Ht'.
    destruct (Nat.lt_ge_cases t' (length l1)) as [Hlt|Hge].
    + now rewrite !nth_error_app1 by lia.
    + rewrite !nth_error_app2 by lia.
      destruct (t' - length l1)%nat as [|k] eqn:Ek; [lia|]. reflexivity.
  - intros pc a'. destruct pc; reflexivity.
Qed.

Lemma write_min_solo_call_witness :
  nth_error [(5, at_test 9); (3, at_load)] 1 = Some (3, at_load) /\
  nth_error (fst (pbbs.write_min_interleave Z.ltb [1; 1]%nat
                    [(5, at_test 9); (3, at_load)] 7)) 1 =
  Some (3, returned true) /\
  snd (pbbs.write_min_interleave Z.ltb [1; 1]%nat
         [(5, at_test 9); (3, at_load)] 7) = 3.
Proof.
  split; [reflexivity|].
  destruct (write_min_solo_call Z.ltb [(5, at_test 9); (3, at_load)] 1 3 7
              eq_refl) as (H1 & H2 & _).
  split; [exact H1|exact H2].
Defined.
